(** * CEPID Infoviz: the filter / routing / cache-state layer

    A shallow embedding of the state authority of the dashboard
    ([DataProcessor]), of its salary statistics ([SalaryUtils]), of the
    path router ([Router]) and of the client-side sort of the offers
    modal ([OffersModal]), followed by the properties the specification
    states about them.

    Conventions of the embedding:
    - a JavaScript string is the [string] of the bytes of its UTF-8
      encoding;
    - [null] and [undefined] are [None];
    - a number read from the JSON dataset is a rational [Q], the value
      of a finite double; what the program computes with numbers is
      rounded as doubles are ([Double]);
    - arrays live in a store ([gmap loc (list Offer)]) so that aliasing
      between [data.offers] and [filteredOffers] is visible;
    - objects created by [{}] and used as dictionaries are finite maps
      over their own keys; where a key computed from the data is read
      in such an object ([getStats], [getOffersByDate],
      [getTopEmployers]), the names inherited from [Object.prototype]
      are modelled as well;
    - a function that can throw returns an [Outcome] carrying the state
      reached when the exception left the function. *)

From stdpp Require Import gmap strings list fin_maps sorting.
From Stdlib Require Import QArith Qround Qabs Lqa.
From Stdlib Require Import Strings.Ascii.

Local Open Scope string_scope.
Local Open Scope list_scope.

(** ** Data model *)

Record Offer := mkOffer {
  offer_id : string;
  title : option string;
  company : option string;
  department : option string;
  jobFamily : option string;
  contractType : option string;
  sector : option string;
  date : option string;
  salaryGrossAnnual : option Q;
  salaryNetMonthly : option Q
}.

Record DateRange := mkDateRange { first : string; last : string }.

(** [meta] of aggregated.json. *)
Record Meta := mkMeta {
  generatedAt : option string;
  totalOffers : option Q;
  offersWithSalary : option Q;
  meta_dateRange : option DateRange
}.

(** The JSON document as it comes out of [response.json()] or of the
    local database: plain values, no identity yet. *)
Record DatasetJson := mkDatasetJson {
  json_offers : list Offer;
  json_departments : gmap string string;
  json_dates : list string;
  json_meta : option Meta
}.

Abbreviation loc := positive.

(** The store of offer arrays. *)
Abbreviation Heap := (gmap loc (list Offer)).

(** [alloc h l] creates a new array holding [l]. *)
Definition alloc (h : Heap) (l : list Offer) : loc * Heap :=
  let r := fresh (dom h) in (r, <[r := l]> h).

(** The dataset object held by [DataProcessor.data]: [offers] is a
    reference to an array of the store. *)
Module Dataset.
Record t := mk {
  offers : loc;
  departments : gmap string string;
  dates : list string;
  meta : option Meta
}.
End Dataset.

(** Parsing a JSON document builds its arrays. *)
Definition materialize (j : DatasetJson) (h : Heap) : Dataset.t * Heap :=
  let '(r, h') := alloc h (json_offers j) in
  (Dataset.mk r (json_departments j) (json_dates j) (json_meta j), h').

(** Truthiness of the values that occur. *)
Definition truthy_string (s : string) : bool := negb (bool_decide (s = "")).

Definition truthy_ostring (v : option string) : bool :=
  match v with Some s => truthy_string s | None => false end.

Definition truthy_num (v : option Q) : bool :=
  match v with Some q => negb (Qeq_bool q 0) | None => false end.

(** [v || d] for a nullable string [v] and a string [d]. *)
Definition or_default (v : option string) (d : string) : string :=
  match v with
  | Some s => if truthy_string s then s else d
  | None => d
  end.

(** [String(v)] used as a property key. *)
Definition to_key (v : option string) : string :=
  match v with Some s => s | None => "null" end.

(** [arr.includes(v)] for an array of strings. *)
Definition includes (arr : list string) (v : option string) : bool :=
  match v with
  | Some s => bool_decide (s ∈ arr)
  | None => false
  end.

(** ** DataProcessor *)

Module DataProcessor.

Inductive Source := network | cache | none.

Record Filters := mkFilters {
  jobFamilies : list string;
  contractTypes : list string;
  departments : list string;
  dateRange : option DateRange
}.

(** The argument of [applyFilters]: each key may be absent. *)
Record PartialFilters := mkPartial {
  new_jobFamilies : option (list string);
  new_contractTypes : option (list string);
  new_departments : option (list string);
  new_dateRange : option (option DateRange)
}.

(** The fields of the [DataProcessor] object. *)
Record State := mkState {
  data : option Dataset.t;
  filteredOffers : option loc;
  isOffline : bool;
  dataSource : Source;
  filters : Filters
}.

(** Events dispatched on [window], with the references they carry. *)
Inductive Event :=
| dataFiltered (offers : loc) (fs : Filters)
| dataRefreshed (offers : loc).

Record World := mkWorld {
  heap : Heap;
  this : State;
  dispatched : list Event;
  (** datasets handed to [saveToStorage], oldest first *)
  saved : list Dataset.t
}.

Inductive Exception :=
| TypeError
| Error (message : string).

Inductive Outcome :=
| Returned (w : World)
| Threw (e : Exception) (w : World).

Definition final (o : Outcome) : World :=
  match o with Returned w => w | Threw _ w => w end.

(** The outcome of a promise. *)
Inductive Settled (A : Type) :=
| Fulfilled (a : A)
| Rejected (reason : string).
Arguments Fulfilled {A} a.
Arguments Rejected {A} reason.

Record Response := mkResponse {
  ok : bool;
  json : Settled (option DatasetJson)
}.

(** What the browser answers during one call: connectivity, the
    [fetch] of data/aggregated.json and the reads of the local
    database. *)
Record Env := mkEnv {
  onLine : bool;
  fetch : Settled Response;
  getOffers : Settled (list Offer);
  getAllMeta : Settled Meta;
  getDates : Settled (list string);
  getDepartments : Settled (gmap string string);
  getSummaries : Settled ()
}.

Definition emptyFilters : Filters := mkFilters [] [] [] None.

Definition initial (offline : bool) : World :=
  mkWorld ∅ (mkState None None offline none emptyFilters) [] [].

(** [fetchFromNetwork] *)
Definition fetchFromNetwork (env : Env) : Settled (option DatasetJson) :=
  match fetch env with
  | Rejected r => Rejected r
  | Fulfilled response =>
      if negb (ok response) then Rejected "Network response not ok"
      else json response
  end.

(** [Storage.loadAggregatedData] (storage.js): any failure of the
    database is caught there and answered by [null]; so is an empty
    offers store. *)
Definition Storage_loadAggregatedData (env : Env) : Settled (option DatasetJson) :=
  match getOffers env with
  | Rejected _ => Fulfilled None
  | Fulfilled offers =>
      if bool_decide (length offers = 0%nat) then Fulfilled None
      else
        match getAllMeta env, getDates env, getDepartments env, getSummaries env with
        | Fulfilled m, Fulfilled ds, Fulfilled deps, Fulfilled _ =>
            Fulfilled (Some (mkDatasetJson offers deps ds (Some m)))
        | _, _, _, _ => Fulfilled None
        end
  end.

(** [loadFromStorage]: the try/catch turns a rejection into [null]. *)
Definition loadFromStorage (storage : Settled (option DatasetJson)) : option DatasetJson :=
  match storage with
  | Fulfilled r => r
  | Rejected _ => None
  end.

Definition set_heap (h : Heap) (w : World) : World :=
  mkWorld h (this w) (dispatched w) (saved w).

Definition set_this (s : State) (w : World) : World :=
  mkWorld (heap w) s (dispatched w) (saved w).

Definition dispatchEvent (e : Event) (w : World) : World :=
  mkWorld (heap w) (this w) (dispatched w ++ [e]) (saved w).

(** [saveToStorage] runs in the background and swallows its errors;
    only the request is recorded. *)
Definition saveToStorage (d : Dataset.t) (w : World) : World :=
  mkWorld (heap w) (this w) (dispatched w) (saved w ++ [d]).

(** [this.data = d; this.filteredOffers = [...this.data.offers];
    this.dataSource = src]; the result names the new array. *)
Definition install (d : Dataset.t) (src : Source) (w : World) : loc * World :=
  let s := this w in
  let '(r, h) := alloc (heap w) (heap w !!! Dataset.offers d) in
  (r, mkWorld h (mkState (Some d) (Some r) (isOffline s) src (filters s))
              (dispatched w) (saved w)).

(** [loadData], with the storage layer as a parameter. *)
Definition loadData_with (env : Env) (storage : Settled (option DatasetJson))
    (w : World) : Outcome :=
  let fallback (w : World) : Outcome :=
    match loadFromStorage storage with
    | Some cachedData =>
        let '(d, h) := materialize cachedData (heap w) in
        Returned (install d cache (set_heap h w)).2
    | None =>
        Threw (Error "No data available. Please connect to the internet.") w
    end in
  if onLine env then
    match fetchFromNetwork env with
    | Fulfilled (Some j) =>
        let '(d, h) := materialize j (heap w) in
        Returned (saveToStorage d (install d network (set_heap h w)).2)
    | Fulfilled None => fallback w
    | Rejected _ => fallback w
    end
  else fallback w.

Definition loadData (env : Env) (w : World) : Outcome :=
  loadData_with env (Storage_loadAggregatedData env) w.

(** [newVersion && (!cachedVersion || newVersion > cachedVersion)] *)
Definition isNewer (cachedVersion newVersion : option string) : bool :=
  truthy_ostring newVersion &&
  (negb (truthy_ostring cachedVersion) ||
   match newVersion, cachedVersion with
   | Some n, Some c => String.ltb c n
   | _, _ => false
   end).

(** [refreshIfNeeded]: every exception raised in the body is caught and
    logged. *)
Definition refreshIfNeeded (env : Env) (w : World) : Outcome :=
  match dataSource (this w) with
  | cache =>
      match fetchFromNetwork env with
      | Rejected _ => Returned w
      | Fulfilled None => Returned w
      | Fulfilled (Some j) =>
          let '(networkData, h) := materialize j (heap w) in
          let w1 := set_heap h w in
          match data (this w1) with
          | None => Returned w1
          | Some cached =>
              let cachedVersion := Dataset.meta cached ≫= generatedAt in
              let newVersion := Dataset.meta networkData ≫= generatedAt in
              if isNewer cachedVersion newVersion then
                let '(r, w2) := install networkData network w1 in
                Returned (dispatchEvent (dataRefreshed r) (saveToStorage networkData w2))
              else Returned w1
          end
      end
  | _ => Returned w
  end.

(** [{ ...this.filters, ...newFilters }] *)
Definition merge (fs : Filters) (newFilters : PartialFilters) : Filters :=
  mkFilters (default (jobFamilies fs) (new_jobFamilies newFilters))
            (default (contractTypes fs) (new_contractTypes newFilters))
            (default (departments fs) (new_departments newFilters))
            (default (dateRange fs) (new_dateRange newFilters)).

(** The callback of [this.data.offers.filter] in [applyFilters]. *)
Definition keep (fs : Filters) (offer : Offer) : bool :=
  if bool_decide (0 < length (jobFamilies fs))%nat
     && negb (includes (jobFamilies fs) (jobFamily offer)) then false
  else if bool_decide (0 < length (contractTypes fs))%nat
     && negb (includes (contractTypes fs) (contractType offer)) then false
  else if bool_decide (0 < length (departments fs))%nat
     && negb (includes (departments fs) (department offer)) then false
  else true.

Definition applyFilters (newFilters : PartialFilters) (w : World) : Outcome :=
  let s := this w in
  let fs := merge (filters s) newFilters in
  let w1 := set_this (mkState (data s) (filteredOffers s) (isOffline s) (dataSource s) fs) w in
  match data s with
  | None => Threw TypeError w1
  | Some d =>
      let '(r, h) := alloc (heap w1) (filter (keep fs) (heap w1 !!! Dataset.offers d)) in
      Returned (dispatchEvent (dataFiltered r fs)
        (mkWorld h (mkState (data s) (Some r) (isOffline s) (dataSource s) fs)
                 (dispatched w1) (saved w1)))
  end.

Definition resetFilters (w : World) : Outcome :=
  let s := this w in
  let fs := emptyFilters in
  let w1 := set_this (mkState (data s) (filteredOffers s) (isOffline s) (dataSource s) fs) w in
  match data s with
  | None => Threw TypeError w1
  | Some d =>
      let '(r, h) := alloc (heap w1) (heap w1 !!! Dataset.offers d) in
      Returned (dispatchEvent (dataFiltered r fs)
        (mkWorld h (mkState (data s) (Some r) (isOffline s) (dataSource s) fs)
                 (dispatched w1) (saved w1)))
  end.

(** The two operations that commit a filter state, and their runs; a
    run stops at the first exception. *)
Inductive FilterOp :=
| Apply (newFilters : PartialFilters)
| Reset.

Definition run_op (op : FilterOp) (w : World) : Outcome :=
  match op with
  | Apply nf => applyFilters nf w
  | Reset => resetFilters w
  end.

Fixpoint run_ops (ops : list FilterOp) (w : World) : Outcome :=
  match ops with
  | [] => Returned w
  | op :: rest =>
      match run_op op w with
      | Returned w' => run_ops rest w'
      | Threw e w' => Threw e w'
      end
  end.

(** The arrays behind [data.offers] and [filteredOffers]. *)
Definition all_offers (w : World) : list Offer :=
  match data (this w) with
  | Some d => heap w !!! Dataset.offers d
  | None => []
  end.

Definition filtered (w : World) : list Offer :=
  match filteredOffers (this w) with
  | Some r => heap w !!! r
  | None => []
  end.

(** Every entry point of the object, for the states a session can
    reach; an operation that throws leaves the state it had reached. *)
Inductive Op :=
| opLoadData (env : Env) (storage : Settled (option DatasetJson))
| opRefreshIfNeeded (env : Env)
| opApplyFilters (newFilters : PartialFilters)
| opResetFilters.

Definition exec (op : Op) (w : World) : Outcome :=
  match op with
  | opLoadData env storage => loadData_with env storage w
  | opRefreshIfNeeded env => refreshIfNeeded env w
  | opApplyFilters nf => applyFilters nf w
  | opResetFilters => resetFilters w
  end.

Inductive reachable : World → Prop :=
| reachable_initial offline : reachable (initial offline)
| reachable_step op w : reachable w → reachable (final (exec op w)).

(** A dataset is loaded and its offers array exists. *)
Definition loaded (w : World) : Prop :=
  ∃ d, data (this w) = Some d ∧ Dataset.offers d ∈ dom (heap w).

(** The rule of the specification for one dimension: no restriction
    when the set is empty, membership otherwise. *)
Definition admits (set : list string) (v : option string) : Prop :=
  set = [] ∨ ∃ s, v = Some s ∧ s ∈ set.

Definition all_empty (fs : Filters) : Prop :=
  jobFamilies fs = [] ∧ contractTypes fs = [] ∧ departments fs = [].

(** The network produced a dataset / the cache produced a dataset. *)
Definition network_data (env : Env) : option DatasetJson :=
  if onLine env then
    match fetchFromNetwork env with
    | Fulfilled r => r
    | Rejected _ => None
    end
  else None.

End DataProcessor.


(** ** Array.prototype.sort

    The language guarantees a stable sort, and for a consistent
    comparator the result does not depend on the algorithm; it is
    modelled by a stable insertion sort.  The comparator returns a
    number, of which only the sign is used. *)

Fixpoint sort_insert {A : Type} (compareFn : A → A → Q) (x : A) (l : list A) : list A :=
  match l with
  | [] => [x]
  | y :: l' =>
      if Qle_bool (compareFn x y) 0 then x :: y :: l'
      else y :: sort_insert compareFn x l'
  end.

Fixpoint Array_sort {A : Type} (compareFn : A → A → Q) (l : list A) : list A :=
  match l with
  | [] => []
  | x :: l' => sort_insert compareFn x (Array_sort compareFn l')
  end.

(** ** Numbers

    A number of the program is an IEEE 754 double.  A finite double is
    modelled by the rational it equals (so the two zeros are one);
    sums and quotients are the exact results rounded to the nearest
    double, ties to even, and a result beyond the largest double is an
    infinity. *)

Module Double.

(** [2^e] for an integer [e]. *)
Definition pow2 (e : Z) : Q :=
  if (0 <=? e)%Z then inject_Z (2 ^ e) else Qinv (inject_Z (2 ^ (- e))).

(** The exponent of a positive rational: the [e] with
    [2^e <= q < 2^(e+1)]. *)
Definition exponent (q : Q) : Z :=
  let e := (Z.log2 (Qnum q) - Z.log2 (Zpos (Qden q)))%Z in
  if Qle_bool (pow2 e) q then e else (e - 1)%Z.

(** The integer nearest to a rational that is not negative, the even
    one of two that are as near. *)
Definition nearest_even (q : Q) : Z :=
  let f := Qfloor q in
  match Qcompare (q - inject_Z f) (1 # 2) with
  | Lt => f
  | Gt => (f + 1)%Z
  | Eq => if Z.even f then f else (f + 1)%Z
  end.

(** Rounding to the nearest double: 53 significant bits, the smallest
    step [2^-1074]; [None] when the result is beyond the largest
    double. *)
Definition round (q : Q) : option Q :=
  if Qeq_bool q 0 then Some 0%Q
  else
    let a := Qabs q in
    let quantum := pow2 (Z.max (exponent a - 52) (-1074)) in
    let r := (inject_Z (nearest_even (a / quantum)) * quantum)%Q in
    if Qle_bool (pow2 1024) r then None
    else Some (Qred (if Qle_bool 0 q then r else - r)).

Inductive Number :=
| Finite (q : Q)
| Infinity (negative : bool)
| NaN.

(** The double of an exact result. *)
Definition rounded (q : Q) : Number :=
  match round q with
  | Some r => Finite r
  | None => Infinity (negb (Qle_bool 0 q))
  end.

(** [a + b] *)
Definition plus (a b : Number) : Number :=
  match a, b with
  | Finite x, Finite y => rounded (x + y)
  | Finite _, Infinity s => Infinity s
  | Infinity s, Finite _ => Infinity s
  | Infinity s, Infinity s' => if Bool.eqb s s' then Infinity s else NaN
  | NaN, _ => NaN
  | _, NaN => NaN
  end.

(** [a / b] for a divisor that is a finite number and not [-0]. *)
Definition divided (a : Number) (b : Q) : Number :=
  match a with
  | Finite x =>
      if Qeq_bool b 0
      then (if Qeq_bool x 0 then NaN else Infinity (negb (Qle_bool 0 x)))
      else rounded (x / b)
  | Infinity s => Infinity (xorb s (negb (Qle_bool 0 b)))
  | NaN => NaN
  end.

(** [ToNumber] of the element of an array of numbers: [undefined],
    beyond the end, becomes NaN. *)
Definition to_number (v : option Q) : Number :=
  match v with
  | Some q => Finite q
  | None => NaN
  end.

End Double.

(** ** SalaryUtils *)

Module SalaryUtils.
Import Double.

(** The object returned by [calculateStats].  The fields read in the
    array are [None] when the index is beyond its end ([undefined]);
    so is the median of an array of odd length.  The median of an
    array of even length and the mean are computed. *)
Record Stats := mkStats {
  count : nat;
  min : option Q;
  max : option Q;
  median : option Number;
  q1 : option Q;
  q3 : option Q;
  mean : Number
}.

(** The object literal that [calculateStats] returns for the sorted
    valid salaries; [valid.sort] sorts in place, so that [valid] and
    [sorted] are the same array when the mean is computed. *)
Definition summary (sorted : list Q) : Stats :=
  let len := length sorted in
  mkStats
    len
    (sorted !! 0%nat)
    (sorted !! (len - 1)%nat)
    (if bool_decide (len `mod` 2 = 0)%nat
     then Some (divided (plus (to_number (sorted !! (len / 2 - 1)%nat))
                              (to_number (sorted !! (len / 2)%nat)))
                        (inject_Z 2))
     else Finite <$> sorted !! (len / 2)%nat)
    (sorted !! (len / 4)%nat)
    (sorted !! (3 * len / 4)%nat)
    (divided (foldl (λ a b, plus a (Finite b)) (Finite (inject_Z 0)) sorted)
             (inject_Z (Z.of_nat len))).

(** [calculateStats(salaries)]; an element that is null, undefined or
    NaN is [None]. *)
Definition calculateStats (salaries : list (option Q)) : option Stats :=
  let valid := omap id salaries in
  if bool_decide (length valid = 0%nat) then None
  else Some (summary (Array_sort (λ a b, Qminus a b) valid)).

End SalaryUtils.

(** ** Object.prototype

    The names of the properties that an object created by [{}]
    inherits: read on a dictionary that has no own key of that name,
    each gives a function (or, for [__proto__], the prototype itself),
    never [undefined].  None of them is enumerable. *)
Definition Object_prototype : list string :=
  ["constructor"; "__proto__"; "hasOwnProperty"; "isPrototypeOf";
   "propertyIsEnumerable"; "toLocaleString"; "toString"; "valueOf";
   "__defineGetter__"; "__defineSetter__"; "__lookupGetter__"; "__lookupSetter__"].

(** ** DataProcessor.getStats *)

Module Stats.
Import DataProcessor.

(** A group while the offers are being counted. *)
Record Tally := mkTally {
  tally_name : option string;
  tally_count : nat;
  salaries : list Q
}.

(** A group of the returned object; [name] exists for departments
    only. *)
Record Group := mkGroup {
  name : option string;
  count : nat;
  salaryStats : option SalaryUtils.Stats
}.

Record DerivedStats := mkDerivedStats {
  total : nat;
  (** the offers whose salaryGrossAnnual is not [null] *)
  withSalary : nat;
  byJobFamily : gmap string Group;
  byContractType : gmap string Group;
  byDepartment : gmap string Group;
  bySector : gmap string Group
}.

(** A part of [getStats] runs against [Object.prototype] and may
    throw.  All that it can see or change of the prototype is whether
    the prototype has the enumerable property [count]: [getStats]
    creates it, with the value NaN, when it counts an offer under the
    key "__proto__".  The boolean is that fact, before and after. *)
Definition Run (A : Type) : Type := bool → (Exception + A) * bool.

Definition ret {A : Type} (a : A) : Run A := λ polluted, (inr a, polluted).

Definition throw {A : Type} (e : Exception) : Run A := λ polluted, (inl e, polluted).

Definition bind {A B : Type} (m : Run A) (k : A → Run B) : Run B :=
  λ polluted,
    match m polluted with
    | (inr a, polluted') => k a polluted'
    | (inl e, polluted') => (inl e, polluted')
    end.

(** [Object.prototype.count = NaN] *)
Definition pollute : Run () := λ _, (inr (), true).

Notation "'let*' x := m 'in' k" := (bind m (λ x, k))
  (at level 10, x name, k at level 200, only parsing).

(** [groups[k]] as the code reads it: an own group; else, for a name
    of [Object.prototype], the function or object inherited, which is
    truthy; else a falsy value ([undefined], or the NaN of a polluted
    prototype for the key "count"). *)
Inductive Property :=
| Own (g : Tally)
| Inherited
| Falsy.

Definition get (groups : gmap string Tally) (k : string) : Property :=
  match groups !! k with
  | Some g => Own g
  | None => if bool_decide (k ∈ Object_prototype) then Inherited else Falsy
  end.

(** The body of one [offers.forEach]: create the group at its first
    offer, count the offer, keep its salary when it is truthy.  Under
    an inherited name no group is created: [count++] lands on the
    inherited function, or on the prototype for "__proto__", and
    [salaries] is undefined there. *)
Definition count_offer (key : Offer → string) (name : string → Exception + option string)
    (groups : gmap string Tally) (o : Offer) : Run (gmap string Tally) :=
  let k := key o in
  let* groups :=
    match get groups k with
    | Falsy =>
        match name k with
        | inr n => ret (<[k := mkTally n 0 []]> groups)
        | inl e => throw e
        end
    | _ => ret groups
    end in
  let* groups :=
    match get groups k with
    | Own g => ret (<[k := mkTally (tally_name g) (S (tally_count g)) (salaries g)]> groups)
    | Inherited =>
        if bool_decide (k = "__proto__") then let* _ := pollute in ret groups
        else ret groups
    | Falsy => throw TypeError
    end in
  match salaryGrossAnnual o with
  | Some s =>
      if truthy_num (Some s)
      then match get groups k with
           | Own g =>
               ret (<[k := mkTally (tally_name g) (tally_count g) (salaries g ++ [s])]> groups)
           | _ => throw TypeError
           end
      else ret groups
  | None => ret groups
  end.

(** [offers.forEach(body)]: the first exception ends the loop. *)
Fixpoint forEach {A : Type} (body : A → Offer → Run A) (offers : list Offer) (acc : A)
    : Run A :=
  match offers with
  | [] => ret acc
  | o :: rest => let* acc := body acc o in forEach body rest acc
  end.

Definition summarize (g : Tally) : Group :=
  mkGroup (tally_name g) (tally_count g)
          (SalaryUtils.calculateStats (Some <$> salaries g)).

(** The [for ... in] loop that replaces [salaries] by [salaryStats]:
    it visits the own keys and then the enumerable properties of the
    prototype that no own key hides.  Under the inherited key "count"
    the dictionary holds NaN, whose [salaries] is undefined, and
    [calculateStats] throws. *)
Definition for_in (groups : gmap string Tally) : Run (gmap string Group) :=
  λ polluted,
    if polluted && bool_decide (groups !! "count" = None)
    then (inl TypeError, polluted)
    else (inr (summarize <$> groups), polluted).

Definition group_by (key : Offer → string) (name : string → Exception + option string)
    (offers : list Offer) : Run (gmap string Group) :=
  let* groups := forEach (count_offer key name) offers ∅ in
  for_in groups.

(** The keys of the four groupings. *)
Definition jobFamily_key (o : Offer) : string := to_key (jobFamily o).
Definition contractType_key (o : Offer) : string := or_default (contractType o) "Non précisé".
Definition department_key (o : Offer) : string := or_default (department o) "Inconnu".
Definition sector_key (o : Offer) : string := or_default (sector o) "Non précisé".

(** [this.data.departments[dept] || dept], evaluated when a department
    group is created: a TypeError without a dataset. *)
Definition department_name (data : option Dataset.t) (dept : string)
    : Exception + option string :=
  match data with
  | Some d => inr (Some (or_default (Dataset.departments d !! dept) dept))
  | None => inl TypeError
  end.

Definition no_name (k : string) : Exception + option string := inr None.

(** [getStats()]: it reads [this.filteredOffers] and, inside the
    department loop, [this.data.departments]. *)
Definition getStats (w : World) : Run DerivedStats :=
  match filteredOffers (this w) with
  | None => throw TypeError
  | Some r =>
      let offers := heap w !!! r in
      let withSalary := filter (λ o, is_Some (salaryGrossAnnual o)) offers in
      let* byJobFamily := group_by jobFamily_key no_name offers in
      let* byContractType := group_by contractType_key no_name offers in
      let* byDepartment := group_by department_key (department_name (data (this w))) offers in
      let* bySector := group_by sector_key no_name offers in
      ret (mkDerivedStats (length offers) (length withSalary)
                          byJobFamily byContractType byDepartment bySector)
  end.

(** The four dimensions of the returned object. *)
Inductive Dimension := JobFamily | ContractType | Department | Sector.

Definition groups (dim : Dimension) (s : DerivedStats) : gmap string Group :=
  match dim with
  | JobFamily => byJobFamily s
  | ContractType => byContractType s
  | Department => byDepartment s
  | Sector => bySector s
  end.

Definition key_of (dim : Dimension) : Offer → string :=
  match dim with
  | JobFamily => jobFamily_key
  | ContractType => contractType_key
  | Department => department_key
  | Sector => sector_key
  end.

(** The sum of the [count] fields of the groups of a dimension. *)
Definition sum_counts (m : gmap string Group) : nat :=
  map_fold (λ _ g n, (count g + n)%nat) 0%nat m.

(** No field of a statistics object is undefined or NaN. *)
Definition no_NaN (s : SalaryUtils.Stats) : Prop :=
  is_Some (SalaryUtils.min s) ∧ is_Some (SalaryUtils.max s) ∧
  is_Some (SalaryUtils.q1 s) ∧ is_Some (SalaryUtils.q3 s) ∧
  (∃ n, SalaryUtils.median s = Some n ∧ n ≠ Double.NaN) ∧
  SalaryUtils.mean s ≠ Double.NaN.

End Stats.

(** ** Strings of the platform

    A string is held as the bytes of its UTF-8 form; an unpaired
    surrogate code unit is held as its three-byte form (ED A0..BF xx),
    so that a string has an unpaired surrogate exactly when its bytes
    are not well-formed UTF-8. *)

Module JSString.

Definition code (c : ascii) : N := Ascii.N_of_ascii c.
Definition char (n : N) : ascii := Ascii.ascii_of_N n.

Definition in_range (lo hi : N) (c : ascii) : bool :=
  N.leb lo (code c) && N.leb (code c) hi.

Definition byte (n : N) (c : ascii) : bool := N.eqb (code c) n.

Fixpoint all (p : ascii → bool) (s : string) : bool :=
  match s with
  | EmptyString => true
  | String c r => p c && all p r
  end.

(** A continuation byte 10xxxxxx. *)
Definition continuation (c : ascii) : bool := in_range 128 191 c.

(** A character of one byte. *)
Definition ascii7 (c : ascii) : bool := in_range 0 127 c.

(** The bytes allowed after the lead byte [c] of a three-byte and of a
    four-byte sequence: no overlong form, no surrogate, nothing above
    U+10FFFF. *)
Definition second_of_3 (c c1 : ascii) : bool :=
  if byte 224 c then in_range 160 191 c1
  else if byte 237 c then in_range 128 159 c1
  else continuation c1.

Definition second_of_4 (c c1 : ascii) : bool :=
  if byte 240 c then in_range 144 191 c1
  else if byte 244 c then in_range 128 143 c1
  else continuation c1.

(** Well-formed text: a sequence of encoded Unicode scalar values. *)
Inductive wellformed : string → Prop :=
| wellformed_empty : wellformed EmptyString
| wellformed_1 c s :
    in_range 0 127 c = true → wellformed s → wellformed (String c s)
| wellformed_2 c c1 s :
    in_range 194 223 c = true → continuation c1 = true →
    wellformed s → wellformed (String c (String c1 s))
| wellformed_3 c c1 c2 s :
    in_range 224 239 c = true → second_of_3 c c1 = true → continuation c2 = true →
    wellformed s → wellformed (String c (String c1 (String c2 s)))
| wellformed_4 c c1 c2 c3 s :
    in_range 240 244 c = true → second_of_4 c c1 = true →
    continuation c2 = true → continuation c3 = true →
    wellformed s → wellformed (String c (String c1 (String c2 (String c3 s)))).

(** ** Hexadecimal escapes *)

Definition hex_digit (n : N) : ascii :=
  char (if N.ltb n 10 then 48 + n else 55 + n)%N.

Definition hex_value (c : ascii) : option N :=
  if in_range 48 57 c then Some (code c - 48)%N
  else if in_range 65 70 c then Some (code c - 55)%N
  else if in_range 97 102 c then Some (code c - 87)%N
  else None.

(** ["%XY"] for the byte [c], upper-case digits. *)
Definition percent (c : ascii) (rest : string) : string :=
  String (char 37) (String (hex_digit (code c / 16)) (String (hex_digit (code c mod 16)) rest)).

(** ** encodeURIComponent *)

(** A-Z a-z 0-9 - _ . ! ~ * ' ( ) *)
Definition uriUnescaped (c : ascii) : bool :=
  in_range 65 90 c || in_range 97 122 c || in_range 48 57 c ||
  byte 45 c || byte 95 c || byte 46 c || byte 33 c || byte 126 c || byte 42 c ||
  byte 39 c || byte 40 c || byte 41 c.

(** [encodeURIComponent(s)]: every code point outside the unescaped
    set becomes the escapes of its UTF-8 bytes; [None] is the URIError
    thrown at an unpaired surrogate. *)
Fixpoint encodeURIComponent (s : string) : option string :=
  match s with
  | EmptyString => Some EmptyString
  | String c r =>
      if uriUnescaped c then String c <$> encodeURIComponent r
      else if in_range 0 127 c then percent c <$> encodeURIComponent r
      else if in_range 194 223 c then
        match r with
        | String c1 r1 =>
            if continuation c1
            then (λ e, percent c (percent c1 e)) <$> encodeURIComponent r1
            else None
        | _ => None
        end
      else if in_range 224 239 c then
        match r with
        | String c1 (String c2 r2) =>
            if second_of_3 c c1 && continuation c2
            then (λ e, percent c (percent c1 (percent c2 e))) <$> encodeURIComponent r2
            else None
        | _ => None
        end
      else if in_range 240 244 c then
        match r with
        | String c1 (String c2 (String c3 r3)) =>
            if second_of_4 c c1 && continuation c2 && continuation c3
            then (λ e, percent c (percent c1 (percent c2 (percent c3 e))))
                   <$> encodeURIComponent r3
            else None
        | _ => None
        end
      else None
  end.

(** The characters of an encoded component. *)
Definition encoded (c : ascii) : bool := uriUnescaped c || byte 37 c.

(** ** decodeURIComponent *)

Inductive Token :=
| literal (c : ascii)
| escaped (c : ascii).

(** The escapes of the input; [None] is the URIError thrown at a ["%"]
    that two hexadecimal digits do not follow. *)
Fixpoint unescape (s : string) : option (list Token) :=
  match s with
  | EmptyString => Some []
  | String c r =>
      if byte 37 c then
        match r with
        | String h (String l r') =>
            match hex_value h, hex_value l with
            | Some a, Some b => cons (escaped (char (16 * a + b))) <$> unescape r'
            | _, _ => None
            end
        | _ => None
        end
      else cons (literal c) <$> unescape r
  end.

(** The escaped bytes must form UTF-8 sequences, each made of escapes
    only; [None] is the URIError thrown otherwise. *)
Fixpoint assemble (ts : list Token) : option string :=
  match ts with
  | [] => Some EmptyString
  | literal c :: r => String c <$> assemble r
  | escaped c :: r =>
      if in_range 0 127 c then String c <$> assemble r
      else if in_range 194 223 c then
        match r with
        | escaped c1 :: r1 =>
            if continuation c1
            then (λ s, String c (String c1 s)) <$> assemble r1
            else None
        | _ => None
        end
      else if in_range 224 239 c then
        match r with
        | escaped c1 :: escaped c2 :: r2 =>
            if second_of_3 c c1 && continuation c2
            then (λ s, String c (String c1 (String c2 s))) <$> assemble r2
            else None
        | _ => None
        end
      else if in_range 240 244 c then
        match r with
        | escaped c1 :: escaped c2 :: escaped c3 :: r3 =>
            if second_of_4 c c1 && continuation c2 && continuation c3
            then (λ s, String c (String c1 (String c2 (String c3 s)))) <$> assemble r3
            else None
        | _ => None
        end
      else None
  end.

Definition decodeURIComponent (s : string) : option string :=
  unescape s ≫= assemble.

(** ** split, join, trim *)

(** [s.split(sep)] for a separator of one character. *)
Fixpoint split (sep : N) (s : string) : list string :=
  match s with
  | EmptyString => [EmptyString]
  | String c r =>
      if byte sep c then EmptyString :: split sep r
      else
        match split sep r with
        | w :: ws => String c w :: ws
        | [] => [String c EmptyString]
        end
  end.

(** [arr.join(sep)] *)
Fixpoint join (sep : N) (arr : list string) : string :=
  match arr with
  | [] => EmptyString
  | [x] => x
  | x :: rest => String.append x (String (char sep) (join sep rest))
  end.

(** White space and line terminators of one, two and three bytes:
    U+0009..U+000D, U+0020; U+00A0; U+1680, U+2000..U+200A, U+2028,
    U+2029, U+202F, U+205F, U+3000, U+FEFF. *)
Definition space1 (c : ascii) : bool := in_range 9 13 c || byte 32 c.

Definition space2 (c c1 : ascii) : bool := byte 194 c && byte 160 c1.

Definition space3 (c c1 c2 : ascii) : bool :=
  (byte 225 c && byte 154 c1 && byte 128 c2) ||
  (byte 226 c && byte 128 c1 &&
     (in_range 128 138 c2 || byte 168 c2 || byte 169 c2 || byte 175 c2)) ||
  (byte 226 c && byte 129 c1 && byte 159 c2) ||
  (byte 227 c && byte 128 c1 && byte 128 c2) ||
  (byte 239 c && byte 187 c1 && byte 191 c2).

Fixpoint trimStart (s : string) : string :=
  match s with
  | EmptyString => EmptyString
  | String c r =>
      if space1 c then trimStart r
      else
        match r with
        | String c1 r1 =>
            if space2 c c1 then trimStart r1
            else
              match r1 with
              | String c2 r2 => if space3 c c1 c2 then trimStart r2 else s
              | EmptyString => s
              end
        | EmptyString => s
        end
  end.

Definition blank (s : string) : bool :=
  match trimStart s with EmptyString => true | _ => false end.

Fixpoint trimEnd (s : string) : string :=
  match s with
  | EmptyString => EmptyString
  | String c r => if blank s then EmptyString else String c (trimEnd r)
  end.

Definition trim (s : string) : string := trimEnd (trimStart s).

End JSString.

(** ** URLSearchParams *)

Module URLSearchParams.
Import JSString.

(** The list of name-value pairs of the object. *)
Abbreviation t := (list (string * string)).

(** A-Z a-z 0-9 * - . _ are kept by the urlencoded serializer. *)
Definition keeps (c : ascii) : bool :=
  in_range 65 90 c || in_range 97 122 c || in_range 48 57 c ||
  byte 42 c || byte 45 c || byte 46 c || byte 95 c.

(** The urlencoded byte serializer: a space becomes ["+"], any other
    byte that is not kept becomes an escape.  (The replacement of
    unpaired surrogates that precedes it is not modelled: it never
    applies to the values [Router] stores.) *)
Fixpoint encode (s : string) : string :=
  match s with
  | EmptyString => EmptyString
  | String c r =>
      if keeps c then String c (encode r)
      else if byte 32 c then String (char 43) (encode r)
      else percent c (encode r)
  end.

(** The characters of a serialized component. *)
Definition serialized (c : ascii) : bool := keeps c || byte 43 c || byte 37 c.

(** [name=value] for one pair. *)
Definition piece (p : string * string) : string :=
  String.append (encode p.1) (String (char 61) (encode p.2)).

(** [params.toString()] *)
Definition toString (params : t) : string := join 38 (piece <$> params).

(** [params.get(name)]: the first value stored under [name]. *)
Fixpoint get (name : string) (params : t) : option string :=
  match params with
  | [] => None
  | (n, v) :: rest => if bool_decide (n = name) then Some v else get name rest
  end.

(** [params.delete(name)] *)
Definition delete (name : string) (params : t) : t :=
  filter (λ p, p.1 ≠ name) params.

(** [params.set(name, value)]: the first pair named [name] takes the
    value and the others are removed; without one, the pair is
    appended. *)
Definition set (name value : string) (params : t) : t :=
  match get name params with
  | None => params ++ [(name, value)]
  | Some _ =>
      (fix go (l : t) : t :=
         match l with
         | [] => []
         | (n, v) :: rest =>
             if bool_decide (n = name) then (name, value) :: delete name rest
             else (n, v) :: go rest
         end) params
  end.

(** Percent-decoding of the URL standard: a ["%"] that two hexadecimal
    digits do not follow stays as it is. *)
Fixpoint percent_decode (s : string) : string :=
  match s with
  | EmptyString => EmptyString
  | String c r =>
      if byte 37 c then
        match r with
        | String h (String l r') =>
            match hex_value h, hex_value l with
            | Some a, Some b => String (char (16 * a + b)) (percent_decode r')
            | _, _ => String c (percent_decode r)
            end
        | _ => String c (percent_decode r)
        end
      else String c (percent_decode r)
  end.

Fixpoint plus_to_space (s : string) : string :=
  match s with
  | EmptyString => EmptyString
  | String c r => String (if byte 43 c then char 32 else c) (plus_to_space r)
  end.

(** U+FFFD *)
Definition replacement (rest : string) : string :=
  String (char 239) (String (char 191) (String (char 189) rest)).

(** "UTF-8 decode without BOM" of the Encoding standard: [seen] holds
    the bytes of the sequence being read, [needed] the number of
    continuation bytes still expected and [lo], [hi] the bounds of the
    next one; a byte that does not fit ends the sequence with U+FFFD
    and is read again as the start of a new one. *)
Fixpoint utf8_decode_from (seen : list ascii) (needed : nat) (lo hi : N) (s : string) : string :=
  match s with
  | EmptyString =>
      match needed with
      | O => EmptyString
      | S _ => replacement EmptyString
      end
  | String b r =>
      let start :=
        if in_range 0 127 b then String b (utf8_decode_from [] 0 128 191 r)
        else if in_range 194 223 b then utf8_decode_from [b] 1 128 191 r
        else if in_range 224 239 b then
          utf8_decode_from [b] 2 (if byte 224 b then 160 else 128)%N
                           (if byte 237 b then 159 else 191)%N r
        else if in_range 240 244 b then
          utf8_decode_from [b] 3 (if byte 240 b then 144 else 128)%N
                           (if byte 244 b then 143 else 191)%N r
        else replacement (utf8_decode_from [] 0 128 191 r) in
      match needed with
      | O => start
      | S k =>
          if in_range lo hi b then
            match k with
            | O => foldr String (utf8_decode_from [] 0 128 191 r) (seen ++ [b])
            | S _ => utf8_decode_from (seen ++ [b]) k 128 191 r
            end
          else replacement start
      end
  end.

Definition utf8_decode (s : string) : string := utf8_decode_from [] 0 128 191 s.

(** [s] up to the first [sep], and what follows it. *)
Fixpoint cut (sep : N) (s : string) : string * string :=
  match s with
  | EmptyString => (EmptyString, EmptyString)
  | String c r =>
      if byte sep c then (EmptyString, r)
      else let '(a, b) := cut sep r in (String c a, b)
  end.

Definition decode (s : string) : string :=
  utf8_decode (percent_decode (plus_to_space s)).

(** [new URLSearchParams(search)] *)
Definition parse (search : string) : t :=
  let input :=
    match search with
    | String c r => if byte 63 c then r else search
    | EmptyString => search
    end in
  (λ piece, let '(n, v) := cut 61 piece in (decode n, decode v))
    <$> filter (λ piece, piece ≠ EmptyString) (split 38 input).

End URLSearchParams.

(** ** Router *)

Module Router.
Import JSString.

(** The [filters] object of a route. *)
Record Filters := mkFilters {
  jobFamilies : list string;
  contractTypes : list string;
  departments : list string
}.

Record Route := mkRoute {
  tab : string;
  filters : Filters
}.

(** [config] *)
Definition defaultTab : string := "overview".

Definition routes : list (string * string) :=
  [("/", "overview"); ("/salaires", "salaries"); ("/carte", "map");
   ("/secteurs", "sectors"); ("/dossier", "dossier")].

Definition tabToPath : list (string * string) :=
  [("overview", "/"); ("salaries", "/salaires"); ("map", "/carte");
   ("sectors", "/secteurs"); ("dossier", "/dossier")].

Definition param_jobFamilies : string := "famille".
Definition param_contractTypes : string := "contrat".
Definition param_departments : string := "dept".

(** [table[key]] on one of the two tables. *)
Fixpoint lookup_table (key : string) (table : list (string * string)) : option string :=
  match table with
  | [] => None
  | (k, v) :: rest => if bool_decide (k = key) then Some v else lookup_table key rest
  end.

(** A filter value that can be published in a URL: not empty, no
    unpaired surrogate. *)
Definition publishable (v : string) : Prop := v ≠ EmptyString ∧ wellformed v.

(** [mapM]: the first exception ends the [map]. *)
Fixpoint map_throwing {A B : Type} (f : A → option B) (l : list A) : option (list B) :=
  match l with
  | [] => Some []
  | x :: rest =>
      match f x with
      | None => None
      | Some y => cons y <$> map_throwing f rest
      end
  end.

(** [parseArrayParam(value)]; [None] is a URIError. *)
Definition parseArrayParam (value : option string) : option (list string) :=
  if truthy_ostring value then
    filter (λ v, truthy_string v = true)
      <$> map_throwing (λ v, decodeURIComponent (trim v)) (split 44 (default EmptyString value))
  else Some [].

(** [encodeArrayParam(arr)]: [Some None] is [null], [None] a
    URIError. *)
Definition encodeArrayParam (arr : list string) : option (option string) :=
  match arr with
  | [] => Some None
  | _ :: _ => (λ l, Some (join 44 l)) <$> map_throwing encodeURIComponent arr
  end.

(** One [if (filters.x?.length) params.set(name, encodeArrayParam(filters.x))]. *)
Definition set_param (name : string) (arr : list string) (params : URLSearchParams.t)
    : option URLSearchParams.t :=
  match arr with
  | [] => Some params
  | _ :: _ =>
      match encodeArrayParam arr with
      | None => None
      | Some None => Some (URLSearchParams.set name "null" params)
      | Some (Some v) => Some (URLSearchParams.set name v params)
      end
  end.

(** [queryString ? '?' + queryString : ''] *)
Definition query_suffix (queryString : string) : string :=
  if truthy_string queryString then String (char 63) queryString else EmptyString.

(** [buildURL(tab, filters)] with [config.basePath] as a parameter;
    [None] is a URIError. *)
Definition buildURL (basePath tab : string) (filters : Filters) : option string :=
  let path := or_default (lookup_table tab tabToPath) "/" in
  let fullPath := String.append basePath path in
  params ← set_param param_jobFamilies (jobFamilies filters) [];
  params ← set_param param_contractTypes (contractTypes filters) params;
  params ← set_param param_departments (departments filters) params;
  Some (String.append fullPath (query_suffix (URLSearchParams.toString params))).

(** [s.startsWith(p)] and [s.slice(p.length)] *)
Fixpoint startsWith (s p : string) : bool :=
  match p, s with
  | EmptyString, _ => true
  | String c p', String d s' => bool_decide (c = d) && startsWith s' p'
  | String _ _, EmptyString => false
  end.

Fixpoint slice (s : string) (n : nat) : string :=
  match n, s with
  | O, _ => s
  | S n', String _ s' => slice s' n'
  | S _, EmptyString => EmptyString
  end.

(** [s.replace(/\/$/, '')] *)
Fixpoint dropTrailingSlash (s : string) : string :=
  match s with
  | EmptyString => EmptyString
  | String c r =>
      match r with
      | EmptyString => if byte 47 c then EmptyString else s
      | String _ _ => String c (dropTrailingSlash r)
      end
  end.

(** [s || d] *)
Definition or_else (s d : string) : string := if truthy_string s then s else d.

(** What [parseCurrentURL] returns, and the URL it hands to
    [history.replaceState] after a redirect from 404.html. *)
Record Parsed := mkParsed {
  route : Route;
  replaced : option string
}.

(** [parseCurrentURL()] for the [pathname] and [search] of the
    location; [None] is a URIError. *)
Definition parseCurrentURL (basePath pathname search : string) : option Parsed :=
  let params := URLSearchParams.parse search in
  let redirectedRoute := URLSearchParams.get "__route" params in
  '(pathname, params, replaced) ←
    (if truthy_ostring redirectedRoute then
       let params := URLSearchParams.delete "__route" params in
       let cleanSearch := URLSearchParams.toString params in
       pathname ← decodeURIComponent (default EmptyString redirectedRoute);
       Some (pathname, params,
             Some (String.append basePath (String.append pathname (query_suffix cleanSearch))))
     else Some (pathname, params, None));
  let routePath :=
    if truthy_string basePath && startsWith pathname basePath
    then or_else (slice pathname (String.length basePath)) "/"
    else pathname in
  let routePath := or_else (dropTrailingSlash routePath) "/" in
  let tab := or_default (lookup_table routePath routes) defaultTab in
  jf ← parseArrayParam (URLSearchParams.get param_jobFamilies params);
  ct ← parseArrayParam (URLSearchParams.get param_contractTypes params);
  dp ← parseArrayParam (URLSearchParams.get param_departments params);
  Some (mkParsed (mkRoute tab (mkFilters jf ct dp)) replaced).

(** The [pathname] and [search] of the location after a navigation to
    a URL made of a path and a query: the path ends at the first ["?"]
    or ["#"], the query at the first ["#"]; an empty query gives an
    empty [search]. *)
Fixpoint url_pathname (url : string) : string :=
  match url with
  | EmptyString => EmptyString
  | String c r => if byte 63 c || byte 35 c then EmptyString else String c (url_pathname r)
  end.

Fixpoint until_hash (s : string) : string :=
  match s with
  | EmptyString => EmptyString
  | String c r => if byte 35 c then EmptyString else String c (until_hash r)
  end.

Fixpoint url_search (url : string) : string :=
  match url with
  | EmptyString => EmptyString
  | String c r =>
      if byte 35 c then EmptyString
      else if byte 63 c then
        match until_hash r with
        | EmptyString => EmptyString
        | q => String c q
        end
      else url_search r
  end.

(** A character that ends neither the path nor the query of a URL. *)
Definition in_path (c : ascii) : bool := negb (byte 63 c || byte 35 c).

End Router.

(** ** OffersModal: the client-side sort *)

Module OffersModal.

(** The sortable columns ([data-sort] of the table headers). *)
Inductive Column := Title | Company | Department | ContractType | SalaryNetMonthly.

#[global] Instance Column_eq_dec : EqDecision Column.
Proof. solve_decision. Defined.

Inductive Direction := asc | desc.

Record State := mkState {
  currentOffers : list Offer;
  currentPage : nat;
  sortColumn : option Column;
  sortDirection : Direction
}.



(** The first three tests of the comparator, then [compare] on two
    values that are not null. *)
Definition nulls_last {V : Type} (compare : V → V → Q) (valA valB : option V) : Q :=
  match valA, valB with
  | None, None => inject_Z 0
  | None, Some _ => inject_Z 1
  | Some _, None => inject_Z (-1)
  | Some x, Some y => compare x y
  end.

Section Collation.

(** [String.prototype.toLowerCase] and [localeCompare(_, 'fr')] belong
    to the platform. *)
Variable toLowerCase : string → string.
Variable localeCompare : string → string → Z.

Definition by_number (dir : Q) (valA valB : Q) : Q := Qmult (Qminus valA valB) dir.

Definition by_text (dir : Q) (valA valB : string) : Q :=
  Qmult (inject_Z (localeCompare (toLowerCase valA) (toLowerCase valB))) dir.

(** The callback passed to [currentOffers.sort]. *)
Definition compareFn (col : Column) (dir : Q) (a b : Offer) : Q :=
  match col with
  | Title => nulls_last (by_text dir) (title a) (title b)
  | Company => nulls_last (by_text dir) (company a) (company b)
  | Department => nulls_last (by_text dir) (department a) (department b)
  | ContractType => nulls_last (by_text dir) (contractType a) (contractType b)
  | SalaryNetMonthly => nulls_last (by_number dir) (salaryNetMonthly a) (salaryNetMonthly b)
  end.

Definition dir_of (d : Direction) : Q :=
  match d with asc => inject_Z 1 | desc => inject_Z (-1) end.

Definition sortOffers (st : State) : State :=
  match sortColumn st with
  | None => st
  | Some col =>
      mkState (Array_sort (compareFn col (dir_of (sortDirection st))) (currentOffers st))
              (currentPage st) (sortColumn st) (sortDirection st)
  end.

(** [toggleSort(column)], without the rendering. *)
Definition toggleSort (column : Column) (st : State) : State :=
  let st1 :=
    match sortColumn st with
    | Some c =>
        if bool_decide (c = column)
        then mkState (currentOffers st) (currentPage st) (sortColumn st)
               (match sortDirection st with asc => desc | desc => asc end)
        else mkState (currentOffers st) (currentPage st) (Some column) asc
    | None => mkState (currentOffers st) (currentPage st) (Some column) asc
    end in
  let st2 := sortOffers st1 in
  mkState (currentOffers st2) 1 (sortColumn st2) (sortDirection st2).

End Collation.

(** A comparator is consistent when its signs describe one total
    preorder; the sort of the language is specified for such
    comparators. *)
Definition consistent {A : Type} (compareFn : A → A → Q) : Prop :=
  (∀ a b, Qlt 0 (compareFn a b) ↔ Qlt (compareFn b a) 0) ∧
  (∀ a b c, Qle (compareFn a b) 0 → Qle (compareFn b c) 0 → Qle (compareFn a c) 0).

(** The same for a collation, whose results are integers. *)
Definition collation (localeCompare : string → string → Z) : Prop :=
  (∀ a b, (0 < localeCompare a b)%Z ↔ (localeCompare b a < 0)%Z) ∧
  (∀ a b c, (localeCompare a b ≤ 0)%Z → (localeCompare b c ≤ 0)%Z →
            (localeCompare a c ≤ 0)%Z).

(** A stand-in collation for examples: shorter strings first. *)
Definition by_length (a b : string) : Z :=
  (Z.of_nat (String.length a) - Z.of_nat (String.length b))%Z.

End OffersModal.

(** ** Invariants and sample data *)

Module Invariants.
Import DataProcessor.

(** References held by the object point into the store, and nothing is
    filtered before a dataset is there. *)
Definition well_formed (w : World) : Prop :=
  (∀ d, data (this w) = Some d → Dataset.offers d ∈ dom (heap w)) ∧
  (∀ r, filteredOffers (this w) = Some r → r ∈ dom (heap w)) ∧
  (data (this w) = None → filteredOffers (this w) = None).

(** The state of every session. *)
Definition session_invariant (w : World) : Prop :=
  well_formed w ∧
  filtered w `sublist_of` all_offers w ∧
  (all_empty (filters (this w)) → filtered w = all_offers w).

(** The state after a committed filter change: the view is the
    dataset filtered by the committed state. *)
Definition committed (w : World) : Prop :=
  loaded w ∧
  (∀ r, filteredOffers (this w) = Some r → r ∈ dom (heap w)) ∧
  filtered w = filter (keep (filters (this w))) (all_offers w).

End Invariants.

(** What the specification calls a failure of the network fetch and of
    the cache fallback, in terms of what the browser answers. *)
Module LoadSpec.
Import DataProcessor.

(** The client is offline or the network fetch fails: [fetch] rejects,
    the status is not ok, the body cannot be parsed, or the document
    is [null]. *)
Definition network_fails (env : Env) : Prop :=
  onLine env = false ∨
  (∃ reason, fetch env = Rejected reason) ∨
  (∃ response, fetch env = Fulfilled response ∧
     (ok response = false ∨ (∃ reason, json response = Rejected reason) ∨
      json response = Fulfilled None)).

(** The local database gives no copy: it holds no offer, or one of its
    reads fails. *)
Definition cache_fails (env : Env) : Prop :=
  (∃ reason, getOffers env = Rejected reason) ∨
  getOffers env = Fulfilled [] ∨
  (∃ reason, getAllMeta env = Rejected reason) ∨
  (∃ reason, getDates env = Rejected reason) ∨
  (∃ reason, getDepartments env = Rejected reason) ∨
  (∃ reason, getSummaries env = Rejected reason).

End LoadSpec.

Module StatsSpec.
Import Stats.

(** The offers of a group, and the salaries [getStats] keeps for it. *)
Definition offers_of (key : Offer → string) (k : string) (offers : list Offer) : list Offer :=
  filter (λ o, key o = k) offers.

Definition usable_salary (o : Offer) : option Q :=
  match salaryGrossAnnual o with
  | Some s => if truthy_num (Some s) then Some s else None
  | None => None
  end.

(** What one step of the counting loop stores under the key of the
    offer when that key is not a name of [Object.prototype]. *)
Definition counted (name : string → option string) (k : string)
    (old : option Tally) (o : Offer) : Tally :=
  let g := default (mkTally (name k) 0 []) old in
  mkTally (tally_name g) (S (tally_count g))
          (salaries g ++ option_list (usable_salary o)).

Definition file (key : Offer → string) (name : string → option string)
    (m : gmap string Tally) (o : Offer) : gmap string Tally :=
  <[key o := counted name (key o) (m !! key o) o]> m.

(** The groups of offers none of whose keys is inherited. *)
Definition grouped (key : Offer → string) (name : string → option string)
    (offers : list Offer) : gmap string Group :=
  summarize <$> foldl (file key name) ∅ offers.

Definition tally_sum (m : gmap string Tally) : nat :=
  map_fold (λ _ g n, (tally_count g + n)%nat) 0%nat m.

(** The exact sum of a list of numbers, the sum of their magnitudes,
    and what it is for a number to be an integer. *)
Definition exact_sum (l : list Q) : Q := foldr Qplus 0%Q l.

Definition magnitude (l : list Q) : Q := foldr (λ v s, (Qabs v + s)%Q) 0%Q l.

Definition integer (v : Q) : Prop := ∃ n : Z, Qeq v (inject_Z n).

(** The names of the groups of a dimension; departments carry the name
    the dataset gives them, or their code. *)
Definition name_of (d : Dataset.t) (dim : Dimension) (k : string) : option string :=
  match dim with
  | Department => Some (or_default (Dataset.departments d !! k) k)
  | _ => None
  end.

(** No offer of the view is grouped under a name of
    [Object.prototype]. *)
Definition plain_keys (offers : list Offer) : Prop :=
  ∀ o dim, o ∈ offers → key_of dim o ∉ Object_prototype.

End StatsSpec.

Module Scenario.
Import DataProcessor.

Definition offer (id family dept : string) : Offer :=
  mkOffer id None None (Some dept) (Some family) None None None None None.

Definition offer1 : Offer := offer "1" "Archiviste" "75".
Definition offer2 : Offer := offer "2" "Documentaliste" "75".
Definition offer3 : Offer := offer "3" "Archiviste" "13".

(** An offer of job family [family] paid [gross] a year. *)
Definition paid (id family : string) (gross : Q) : Offer :=
  mkOffer id None None None (Some family) (Some "CDI") None None (Some gross) None.

Definition dated (stamp : string) (l : list Offer) : DatasetJson :=
  mkDatasetJson l ∅ [] (Some (mkMeta (Some stamp) None None None)).

Definition three_offers : DatasetJson := dated "2025-01-10T06:00:00" [offer1; offer2; offer3].

(** A later publication of the dataset. *)
Definition refreshed_offers : DatasetJson := dated "2025-01-11T06:00:00" [offer1; offer2].

(** The network answers with [j]; the local database is empty. *)
Definition serving (j : DatasetJson) : Env :=
  mkEnv true (Fulfilled (mkResponse true (Fulfilled (Some j))))
        (Fulfilled []) (Rejected "") (Rejected "") (Rejected "") (Rejected "").

(** No connectivity; the local database holds [j], saved with
    metadata [m]. *)
Definition offline_with (j : DatasetJson) (m : Meta) : Env :=
  mkEnv false (Rejected "Failed to fetch")
        (Fulfilled (json_offers j)) (Fulfilled m) (Fulfilled (json_dates j))
        (Fulfilled (json_departments j)) (Fulfilled ()).

Definition stamp (s : string) : Meta := mkMeta (Some s) None None None.

(** No connectivity and a database that fails. *)
Definition nothing : Env :=
  mkEnv false (Rejected "Failed to fetch")
        (Rejected "InvalidStateError") (Rejected "") (Rejected "") (Rejected "") (Rejected "").

Definition byJobFamilies (l : list string) : PartialFilters :=
  mkPartial (Some l) None None None.

Definition byDepartments (l : list string) : PartialFilters :=
  mkPartial None None (Some l) None.

Definition noRestriction : PartialFilters :=
  mkPartial (Some []) (Some []) (Some []) None.

(** A session: the dashboard starts offline from the local copy, the
    user restricts the view to one job family, connectivity comes back
    and a newer dataset is fetched. *)
Definition from_cache : World :=
  final (loadData (offline_with three_offers (stamp "2025-01-10T06:00:00")) (initial true)).

Definition archivists : World :=
  final (applyFilters (byJobFamilies ["Archiviste"]) from_cache).

Definition after_refresh : World :=
  final (refreshIfNeeded (serving refreshed_offers) archivists).

(** The same start with the network available. *)
Definition from_network : World :=
  final (loadData (serving three_offers) (initial false)).

(** Offers shown in the modal, some without a title. *)
Definition untitled (id : string) : Offer :=
  mkOffer id None None None None None None None None None.

Definition titled (id t : string) : Offer :=
  mkOffer id (Some t) None None None None None None None None.

Definition modal : OffersModal.State :=
  OffersModal.mkState
    [untitled "1"; titled "2" "Documentaliste"; untitled "3"; titled "4" "Veilleur"]
    1 (Some OffersModal.Title) OffersModal.desc.

(** A filtered view with two paid archivists and an unpaid one. *)
Definition with_salaries : World :=
  final (loadData (serving (dated "2025-01-10T06:00:00"
      [paid "1" "Archiviste" (inject_Z 30000); offer3; paid "2" "Archiviste" (inject_Z 24000);
       offer2])) (initial false)).

(** A view with an offer whose job family is named like a property of
    [Object.prototype], first without a salary, then with one. *)
Definition with_constructor : World :=
  final (loadData (serving (dated "2025-01-10T06:00:00"
      [offer1; offer "4" "constructor" "75"])) (initial false)).

Definition with_paid_constructor : World :=
  final (loadData (serving (dated "2025-01-10T06:00:00"
      [offer1; paid "5" "constructor" (inject_Z 30000)])) (initial false)).

(** A view with an unpaid offer whose job family is "__proto__". *)
Definition with_proto : World :=
  final (loadData (serving (dated "2025-01-10T06:00:00"
      [offer1; offer "6" "__proto__" "75"])) (initial false)).

(** The code unit U+D800 alone, in its three-byte form. *)
Definition unpaired_surrogate : string :=
  String (JSString.char 237) (String (JSString.char 160) (String (JSString.char 128) EmptyString)).

Definition shared_filters : Router.Filters :=
  Router.mkFilters ["Archiviste"; "Knowledge Manager"] ["CDI"] ["75"; "2A"].

End Scenario.

(** ** More of DataProcessor *)

Module DataProcessorMore.
Import DataProcessor.

(** [{ ...a, ...b }] for two arguments of [applyFilters]. *)
Definition both (a b : PartialFilters) : PartialFilters :=
  mkPartial
    (match new_jobFamilies b with Some l => Some l | None => new_jobFamilies a end)
    (match new_contractTypes b with Some l => Some l | None => new_contractTypes a end)
    (match new_departments b with Some l => Some l | None => new_departments a end)
    (match new_dateRange b with Some l => Some l | None => new_dateRange a end).

(** [getOffers(filtered)]: a reference, not a copy; [None] is the
    TypeError of [this.data.offers] without a dataset. *)
Definition getOffers (filtered : bool) (w : World) : option (option loc) :=
  if filtered then Some (filteredOffers (this w))
  else match data (this w) with
       | Some d => Some (Some (Dataset.offers d))
       | None => None
       end.

(** The names that an object created by [{}] inherits from
    [Object.prototype]: reading one of them on a dictionary that has
    no own key of that name gives a function (or, for [__proto__], the
    prototype), never [undefined]. *)
Definition inherited : list string :=
  ["constructor"; "__proto__"; "hasOwnProperty"; "isPrototypeOf";
   "propertyIsEnumerable"; "toLocaleString"; "toString"; "valueOf";
   "__defineGetter__"; "__defineSetter__"; "__lookupGetter__"; "__lookupSetter__"].

(** [forEach] with a body that can throw: the first exception ends
    the loop. *)
Fixpoint forEach_throwing {A B : Type} (body : B → A → option B) (acc : B) (l : list A)
    : option B :=
  match l with
  | [] => Some acc
  | x :: rest =>
      match body acc x with
      | None => None
      | Some acc' => forEach_throwing body acc' rest
      end
  end.

(** The body of the [forEach] of [getOffersByDate]: a key that is
    read through the prototype is truthy, so no array is created and
    [push] is not a function ([None]). *)
Definition file_by_date (byDate : gmap string (list Offer)) (offer : Offer)
    : option (gmap string (list Offer)) :=
  let k := to_key (date offer) in
  match byDate !! k with
  | Some bucket => Some (<[k := bucket ++ [offer]]> byDate)
  | None =>
      if bool_decide (k ∈ inherited) then None
      else Some (<[k := [offer]]> byDate)
  end.

(** [getOffersByDate()] *)
Definition getOffersByDate (w : World) : Exception + gmap string (list Offer) :=
  match filteredOffers (this w) with
  | None => inl TypeError
  | Some r =>
      match forEach_throwing file_by_date ∅ (heap w !!! r) with
      | Some byDate => inr byDate
      | None => inl TypeError
      end
  end.

(** The offers of a list whose [date] is the string [k]. *)
Definition on_date (k : string) (offers : list Offer) : list Offer :=
  filter (λ o, date o = Some k) offers.

(** A count held by the dictionary of [getTopEmployers]: a number, or
    the string that [+ 1] makes of a function inherited from
    [Object.prototype] (the text of the function followed by "1"s). *)
Inductive Count :=
| Number (n : nat)
| Text.

(** A dictionary whose key order is observed: the own keys with
    their values, in creation order. *)
Abbreviation Counts := (list (string * Count)).

(** [employers[c] = (employers[c] || 0) + 1].  For a name of
    [Object.prototype] that is no own key yet, [employers[c]] is a
    function, which is truthy, and the sum is a string, stored under
    an own key; the assignment of that string to [__proto__] is
    ignored by the setter of the prototype. *)
Fixpoint bump (c : string) (employers : Counts) : Counts :=
  match employers with
  | [] =>
      if bool_decide (c = "__proto__") then []
      else if bool_decide (c ∈ inherited) then [(c, Text)]
      else [(c, Number 1)]
  | (k, n) :: rest =>
      if bool_decide (k = c)
      then (k, match n with Number n => Number (S n) | Text => Text end) :: rest
      else (k, n) :: bump c rest
  end.

(** The body of the [forEach] of [getTopEmployers]. *)
Definition tally_employer (employers : Counts) (o : Offer) : Counts :=
  match company o with
  | Some c => if truthy_string c then bump c employers else employers
  | None => employers
  end.

(** The value of a decimal numeral. *)
Fixpoint decimal_from (n : N) (s : string) : N :=
  match s with
  | EmptyString => n
  | String c rest => decimal_from (10 * n + (JSString.code c - 48))%N rest
  end.

Definition decimal (s : string) : N := decimal_from 0%N s.

(** A key is an array index when it is the canonical numeral of an
    integer below 2^32 - 1. *)
Definition array_index (key : string) : option N :=
  match key with
  | EmptyString => None
  | String c rest =>
      if JSString.byte 48 c
      then match rest with EmptyString => Some 0%N | String _ _ => None end
      else if JSString.all (JSString.in_range 48 57) key && (decimal key <? 4294967295)%N
           then Some (decimal key)
           else None
  end.

(** [Object.entries(obj)]: the array indices in increasing order, then
    the other keys in creation order. *)
Definition Object_entries {V : Type} (obj : list (string * V)) : list (string * V) :=
  (snd <$> Array_sort (λ a b, Qminus (inject_Z (Z.of_N a.1)) (inject_Z (Z.of_N b.1)))
             (omap (λ e, (λ i, (i, e)) <$> array_index e.1) obj))
  ++ filter (λ e, array_index e.1 = None) obj.

(** [(a, b) => b[1] - a[1]]; the difference is NaN when one of the
    counts is a string, and [sort] takes a NaN for 0. *)
Definition by_count_descending (a b : string * Count) : Q :=
  match b.2, a.2 with
  | Number y, Number x => Qminus (inject_Z (Z.of_nat y)) (inject_Z (Z.of_nat x))
  | _, _ => inject_Z 0
  end.

(** [getTopEmployers(limit)].  When a count is a string the comparator
    is not consistent and the language leaves the order of [sort] to
    the implementation; [Array_sort] then gives one of the possible
    orders. *)
Definition getTopEmployers (limit : nat) (w : World) : Exception + Counts :=
  match filteredOffers (this w) with
  | None => inl TypeError
  | Some r =>
      let employers := foldl tally_employer [] (heap w !!! r) in
      inr (take limit (Array_sort by_count_descending (Object_entries employers)))
  end.

(** The number of offers of a list published by [employer]. *)
Definition employed (employer : string) (offers : list Offer) : nat :=
  length (filter (λ o, company o = Some employer) offers).

End DataProcessorMore.

(** The counting of [getTopEmployers] for companies that are not named
    like a property of [Object.prototype]: every count is a number. *)
Module EmployersSpec.

Abbreviation Counts := (list (string * nat)).

Fixpoint bump (c : string) (employers : Counts) : Counts :=
  match employers with
  | [] => [(c, 1%nat)]
  | (k, n) :: rest =>
      if bool_decide (k = c) then (k, S n) :: rest else (k, n) :: bump c rest
  end.

Definition tally_employer (employers : Counts) (o : Offer) : Counts :=
  match company o with
  | Some c => if truthy_string c then bump c employers else employers
  | None => employers
  end.

Definition by_count_descending (a b : string * nat) : Q :=
  Qminus (inject_Z (Z.of_nat b.2)) (inject_Z (Z.of_nat a.2)).

(** What a dictionary of counts holds for a key, 0 without the key. *)
Fixpoint tallied (c : string) (employers : Counts) : nat :=
  match employers with
  | [] => 0%nat
  | (k, n) :: rest => if bool_decide (k = c) then n else tallied c rest
  end.

(** An entry with a numeric count, as [getTopEmployers] holds it. *)
Definition number (e : string * nat) : string * DataProcessorMore.Count :=
  (e.1, DataProcessorMore.Number e.2).

End EmployersSpec.

(** ** More of getStats *)

Module StatsMore.
Import DataProcessor Stats.

(** The sum of [salaryStats.count] over the groups of a dimension; a
    group whose [salaryStats] is [null] brings nothing. *)
Definition sum_salary_counts (m : gmap string Group) : nat :=
  map_fold (λ _ g n, (from_option SalaryUtils.count 0 (salaryStats g) + n)%nat) 0%nat m.

(** The same sum while the offers are being counted. *)
Definition sum_salaries (m : gmap string Tally) : nat :=
  map_fold (λ _ g n, (from_option SalaryUtils.count 0 (salaryStats (summarize g)) + n)%nat)
           0%nat m.

(** [o.salaryGrossAnnual] is truthy. *)
Definition has_salary (o : Offer) : bool := truthy_num (salaryGrossAnnual o).

End StatsMore.

(** ** More of the offers modal *)

Module OffersModalMore.
Import OffersModal.

(** The direction that [toggleSort(column)] leaves in
    [sortDirection]. *)
Definition next_direction (column : Column) (st : State) : Direction :=
  match sortColumn st with
  | Some c =>
      if bool_decide (c = column)
      then match sortDirection st with asc => desc | desc => asc end
      else asc
  | None => asc
  end.

(** [arr.slice(start, end)] *)
Definition Array_slice {A : Type} (start final : Z) (arr : list A) : list A :=
  let len := Z.of_nat (length arr) in
  let k := if (start <? 0)%Z then Z.max (len + start) 0 else Z.min start len in
  let final := if (final <? 0)%Z then Z.max (len + final) 0 else Z.min final len in
  take (Z.to_nat (final - k)) (drop (Z.to_nat k) arr).

Definition perPage : Z := 20.

(** The offers whose rows [renderTable()] puts in the table on a
    desktop; without any, the table says that no offer matches. *)
Definition renderTable (st : State) : list Offer :=
  let start := ((Z.of_nat (currentPage st) - 1) * perPage)%Z in
  let final := (start + perPage)%Z in
  Array_slice start final (currentOffers st).

(** [Math.ceil(this.currentOffers.length / this.perPage)] *)
Definition totalPages (st : State) : Z :=
  let len := Z.of_nat (length (currentOffers st)) in
  if (len mod perPage =? 0)%Z then (len / perPage)%Z else (len / perPage + 1)%Z.

(** What [renderPagination()] writes: buttons with their [data-page],
    and ellipses. *)
Inductive Control :=
| Prev (disabled : bool) (page : Z)
| Page (active : bool) (page : Z)
| Ellipsis
| Next (disabled : bool) (page : Z).

Definition renderPagination (mobile : bool) (st : State) : list Control :=
  if mobile then []
  else
    let totalPages := totalPages st in
    if (totalPages <=? 1)%Z then []
    else
      let currentPage := Z.of_nat (currentPage st) in
      let maxVisible := 5%Z in
      let startPage := Z.max 1 (currentPage - maxVisible / 2) in
      let endPage := Z.min totalPages (startPage + maxVisible - 1) in
      let startPage :=
        if (endPage - startPage <? maxVisible - 1)%Z
        then Z.max 1 (endPage - maxVisible + 1)
        else startPage in
      [Prev (currentPage =? 1)%Z (currentPage - 1)]
      ++ (if (1 <? startPage)%Z
          then Page false 1 :: (if (2 <? startPage)%Z then [Ellipsis] else [])
          else [])
      ++ ((λ i, Page (i =? currentPage)%Z i) <$> seqZ startPage (endPage - startPage + 1))
      ++ (if (endPage <? totalPages)%Z
          then (if (endPage <? totalPages - 1)%Z then [Ellipsis] else [])
               ++ [Page false totalPages]
          else [])
      ++ [Next (currentPage =? totalPages)%Z (currentPage + 1)].

Definition goto (page : nat) (st : State) : State :=
  mkState (currentOffers st) page (sortColumn st) (sortDirection st).

(** The click handler of a pagination button whose [data-page] is
    [page], installed when the table had [totalPages] pages. *)
Definition on_click (totalPages page : Z) (st : State) : State :=
  if negb (page =? 0)%Z && negb (page =? Z.of_nat (currentPage st))%Z
     && (1 <=? page)%Z && (page <=? totalPages)%Z
  then goto (Z.to_nat page) st
  else st.

(** A click of the user on a control: a disabled button and an
    ellipsis do not react. *)
Definition press (c : Control) (st : State) : State :=
  match c with
  | Prev false page | Next false page | Page _ page => on_click (totalPages st) page st
  | Prev true _ | Next true _ | Ellipsis => st
  end.

(** [show(offers)], as far as the table is concerned. *)
Definition show (offers : list Offer) : State := mkState offers 1 None asc.

(** The numbered buttons between two arrows are well spaced after
    page [before]: consecutive numbers follow each other, an ellipsis
    stands for at least one missing number. *)
Fixpoint spaced (before : Z) (controls : list Control) : Prop :=
  match controls with
  | [] => True
  | Page _ p :: rest => p = (before + 1)%Z ∧ spaced p rest
  | Ellipsis :: Page a p :: rest => (before + 1 < p)%Z ∧ spaced p rest
  | _ => False
  end.

(** The numbers of the numbered buttons. *)
Definition numbers (controls : list Control) : list Z :=
  omap (λ c, match c with Page _ p => Some p | _ => None end) controls.

Section Session.
Variable toLowerCase : string → string.
Variable localeCompare : string → string → Z.

(** The states of the modal on a desktop after [show(offers)]: the
    user clicks on column headers and on the controls that the
    pagination bar shows. *)
Inductive shown (offers : list Offer) : State → Prop :=
| shown_show : shown offers (show offers)
| shown_header st column :
    shown offers st → shown offers (toggleSort toLowerCase localeCompare column st)
| shown_control st c :
    shown offers st → c ∈ renderPagination false st → shown offers (press c st).

End Session.

End OffersModalMore.

(** ** The offers modal on a narrow window *)

Module InfiniteScroll.
Import OffersModal OffersModalMore.

(** The modal while [isMobile()] holds: its state, the offers whose
    rows are in the table, and the callbacks of [setTimeout] that have
    not run yet. *)
Record Mobile := mkMobile {
  modal : State;
  loadedCount : nat;
  isLoading : bool;
  rows : list Offer;
  timers : nat
}.

Definition loadItemsPerScroll : Z := 20.

(** [renderTable()] on a narrow window: the first batch. *)
Definition renderTable (st : State) (m : Mobile) : Mobile :=
  let final := Z.min loadItemsPerScroll (Z.of_nat (length (currentOffers st))) in
  mkMobile st (Z.to_nat final) (isLoading m) (Array_slice 0 final (currentOffers st)) (timers m).

Section Events.
Variable toLowerCase : string → string.
Variable localeCompare : string → string → Z.

Inductive Event :=
| Show (offers : list Offer)
| Header (column : Column)
| Scroll (nearBottom : bool)
| Timeout.

(** [loadMoreItems()] *)
Definition loadMoreItems (m : Mobile) : Mobile :=
  if bool_decide (length (currentOffers (modal m)) ≤ loadedCount m)%nat then m
  else mkMobile (modal m) (loadedCount m) true (rows m) (S (timers m)).

(** The callback that [loadMoreItems] gives to [setTimeout]. *)
Definition loaded_more (m : Mobile) : Mobile :=
  let start := Z.of_nat (loadedCount m) in
  let final := Z.min (start + loadItemsPerScroll)
                     (Z.of_nat (length (currentOffers (modal m)))) in
  let newOffers := Array_slice start final (currentOffers (modal m)) in
  mkMobile (modal m) (Z.to_nat final) false (rows m ++ newOffers) (timers m).

Definition handle (m : Mobile) (e : Event) : Mobile :=
  match e with
  | Show offers =>
      renderTable (show offers)
        (mkMobile (show offers) 0 false (rows m) (timers m))
  | Header column =>
      renderTable (toggleSort toLowerCase localeCompare column (modal m)) m
  | Scroll nearBottom =>
      if isLoading m then m
      else if bool_decide (length (currentOffers (modal m)) ≤ loadedCount m)%nat then m
      else if nearBottom then loadMoreItems m else m
  | Timeout =>
      match timers m with
      | O => m
      | S n => loaded_more (mkMobile (modal m) (loadedCount m) (isLoading m) (rows m) n)
      end
  end.

End Events.

End InfiniteScroll.

(** ** The offers button and the modal *)

Module OffersCTA.
Import DataProcessor DataProcessorMore.

(** The click handler of a [.btn-cta] button ([App.initOffersCTA]) as
    far as arrays are concerned: [getOffers(true)], the [filter] of the
    "with-salary" context, and the copy that [OffersModal.show] makes;
    it returns the array of the modal.  [None] is the TypeError of a
    missing [filteredOffers]. *)
Definition open_modal (with_salary : bool) (w : World) : option (loc * World) :=
  match getOffers true w with
  | Some (Some offers) =>
      let '(offers, h) :=
        if with_salary
        then alloc (heap w) (filter (λ o, truthy_num (salaryNetMonthly o) = true)
                                    (heap w !!! offers))
        else (offers, heap w) in
      let '(currentOffers, h) := alloc h (h !!! offers) in
      Some (currentOffers, set_heap h w)
  | _ => None
  end.

(** [this.currentOffers.sort(compareFn)]: the array is sorted in
    place. *)
Definition sort_in_place (currentOffers : loc) (w : World) (compareFn : Offer → Offer → Q)
    : World :=
  set_heap (<[currentOffers := Array_sort compareFn (heap w !!! currentOffers)]> (heap w)) w.

End OffersCTA.

(** ** The router and the filters *)

Module Navigation.
Import DataProcessor.

(** A call of [history.pushState] or [history.replaceState] with the
    state object [{ tab, filters }] and a URL. *)
Record HistoryCall := mkCall {
  replace : bool;
  state_tab : string;
  state_filters : Filters;
  url : string
}.

(** The variables of the [Router] closure that change, and the calls
    it made to [history], oldest first. *)
Record RouterState := mkRouter {
  isNavigating : bool;
  calls : list HistoryCall
}.

Inductive Result :=
| Done (r : RouterState)
| URIError (r : RouterState).

(** The three arrays that [buildURL] reads in a filters object. *)
Definition arrays (fs : Filters) : Router.Filters :=
  Router.mkFilters (jobFamilies fs) (contractTypes fs) (departments fs).

(** [navigate(tab, filters, replace)]; [processor] is the
    [DataProcessor] whose [filters] stand in for a missing argument.
    The browser is taken to accept the calls to [history]. *)
Definition navigate (basePath : string) (processor : World)
    (tab : string) (filters : option Filters) (replace : bool) (r : RouterState) : Result :=
  if isNavigating r then Done r
  else
    let filters := default (DataProcessor.filters (this processor)) filters in
    match Router.buildURL basePath tab (arrays filters) with
    | None => URIError (mkRouter true (calls r))
    | Some url => Done (mkRouter false (calls r ++ [mkCall replace tab filters url]))
    end.

(** [handleTabChange(event)] for the [detail.tab] of the event. *)
Definition handleTabChange (basePath : string) (processor : World)
    (tab : option string) (r : RouterState) : Result :=
  if isNavigating r then Done r
  else
    match tab with
    | Some t => if truthy_string t then navigate basePath processor t None false r else Done r
    | None => Done r
    end.

(** [window.App?.currentTab]: main.js declares [const App = {...}] at
    the top of a script, which does not make [App] a property of
    [window], and nothing assigns [window.App]; the expression is
    undefined whatever [App.currentTab] holds. *)
Definition window_App_currentTab : option string := None.

(** [handleFilterChange(event)] for the [detail.filters] of the
    event. *)
Definition handleFilterChange (basePath : string) (processor : World)
    (filters : option Filters) (r : RouterState) : Result :=
  if isNavigating r then Done r
  else
    let currentTab := or_default window_App_currentTab "overview" in
    match filters with
    | Some fs => navigate basePath processor currentTab (Some fs) true r
    | None => Done r
    end.

(** An exception of a listener does not reach the code that
    dispatched the event. *)
Definition listener (res : Result) : RouterState :=
  match res with Done r | URIError r => r end.

(** The router hears an event of [DataProcessor]; it listens to
    [dataFiltered] only. *)
Definition hear (basePath : string) (processor : World)
    (e : Event) (r : RouterState) : RouterState :=
  match e with
  | dataFiltered _ fs => listener (handleFilterChange basePath processor (Some fs) r)
  | dataRefreshed _ => r
  end.

(** The dashboard as far as the router is concerned. *)
Record Session := mkSession {
  processor : World;
  router : RouterState;
  (** [App.currentTab] *)
  currentTab : string
}.

(** What the user does that the router hears about. *)
Inductive Action :=
| tab_clicked (tab : string)
| filters_changed (op : FilterOp).

(** One action.  A click on a tab button sets [App.currentTab] and
    dispatches [tabChanged]; a change of the filters runs in
    [DataProcessor], whose [dataFiltered] event, the last statement of
    [applyFilters] and of [resetFilters], is heard before they
    return. *)
Definition act (basePath : string) (s : Session) (a : Action) : Session :=
  match a with
  | tab_clicked tab =>
      mkSession (processor s)
                (listener (handleTabChange basePath (processor s) (Some tab) (router s)))
                tab
  | filters_changed op =>
      match run_op op (processor s) with
      | Returned w' =>
          match list.last (dispatched w') with
          | Some e => mkSession w' (hear basePath w' e (router s)) (currentTab s)
          | None => mkSession w' (router s) (currentTab s)
          end
      | Threw _ w' => mkSession w' (router s) (currentTab s)
      end
  end.

Definition run (basePath : string) (actions : list Action) (s : Session) : Session :=
  foldl (act basePath) s actions.

(** Filter values that have a URL. *)
Definition publishable_filters (fs : Filters) : Prop :=
  Forall Router.publishable (jobFamilies fs) ∧
  Forall Router.publishable (contractTypes fs) ∧
  Forall Router.publishable (departments fs).

(** A click on one of the tabs of [config.tabToPath], or a change of
    the filters to values that have a URL. *)
Definition publishable_action (a : Action) : Prop :=
  match a with
  | tab_clicked tab => tab ∈ Router.tabToPath.*1
  | filters_changed Reset => True
  | filters_changed (Apply nf) =>
      from_option (Forall Router.publishable) True (new_jobFamilies nf) ∧
      from_option (Forall Router.publishable) True (new_contractTypes nf) ∧
      from_option (Forall Router.publishable) True (new_departments nf)
  end.

(** [getShareableURL()]; [origin] is [window.location.origin], [None]
    a URIError.  [window.DataProcessor] is assigned where
    [DataProcessor] is declared, so its filters are read. *)
Definition getShareableURL (origin basePath : string) (s : Session) : option string :=
  let currentTab := or_default window_App_currentTab "overview" in
  let filters := filters (this (processor s)) in
  String.append origin <$> Router.buildURL basePath currentTab (arrays filters).

End Navigation.

(** ** More of the router *)

Module RouterMore.
Import JSString Router.

(** A character that the URL parser leaves as it is in a path. *)
Definition unreserved (c : ascii) : bool :=
  in_range 97 122 c || in_range 65 90 c || in_range 48 57 c
  || byte 45 c || byte 46 c || byte 95 c || byte 126 c.

(** A base path as [detectBasePath] finds it for a project site:
    empty, or a slash and one segment that the URL parser keeps. *)
Definition project_base (basePath : string) : Prop :=
  basePath = EmptyString ∨
  ∃ c segment, basePath = String (char 47) (String c segment) ∧
    unreserved c = true ∧ byte 46 c = false ∧ all unreserved segment = true.

End RouterMore.

(** ** App.handleRoute *)

Module App.
Import JSString.

(** [path.replace('/', '')]: the first slash goes. *)
Fixpoint without_first_slash (path : string) : string :=
  match path with
  | EmptyString => EmptyString
  | String c rest => if byte 47 c then rest else String c (without_first_slash rest)
  end.

(** The [targetTab] of [handleRoute(path)]. *)
Definition targetTab (path : string) : string :=
  let route := without_first_slash path in
  if bool_decide (route = "map") || bool_decide (route = "carte") then "map"
  else if bool_decide (route = "salaries") || bool_decide (route = "salaires") then "salaries"
  else if bool_decide (route = "sectors") || bool_decide (route = "secteurs") then "sectors"
  else if bool_decide (route = "dossier") then "dossier"
  else "overview".

End App.

(** ** JobClassifier *)

Module JobClassifier.

Record Family := mkFamily {
  name : string;
  icon : string;
  color : string;
  description : string
}.

Definition families : list Family :=
  [ mkFamily "Professeur Documentaliste" "🎓" "#8b5cf6"
            "Enseignement et formation en documentation";
   mkFamily "Archiviste" "📚" "#06b6d4"
            "Gestion et conservation des archives";
   mkFamily "Record Manager" "🗃️" "#84cc16"
            "Gestion des documents d'activité";
   mkFamily "Knowledge Manager" "💡" "#f59e0b"
            "Gestion des connaissances en entreprise";
   mkFamily "Document Controller" "✅" "#10b981"
            "Contrôle et suivi documentaire projet";
   mkFamily "Veille" "🔍" "#ec4899"
            "Veille stratégique et intelligence économique";
   mkFamily "Médiathécaire/Bibliothécaire" "📖" "#6366f1"
            "Animation de médiathèques et bibliothèques";
   mkFamily "Directeur/Directrice" "👔" "#1e40af"
            "Direction de services documentaires";
   mkFamily "Responsable" "📋" "#0891b2"
            "Responsabilité d'équipe ou de projet";
   mkFamily "Gestionnaire" "🗄️" "#65a30d"
            "Gestion de bases de données et fonds documentaires";
   mkFamily "Assistant(e)" "🤝" "#f97316"
            "Assistance documentaire et administrative";
   mkFamily "Documentaliste" "📄" "#2563eb"
            "Documentation généraliste"].

(** [this.families.find(f => f.name === name)] *)
Definition find_family (n : string) : option Family :=
  snd <$> list_find (λ f, name f = n) families.

(** [getFamily(name)]: [None] is [undefined], what [families[length - 1]]
    is for an empty table. *)
Definition getFamily (n : string) : option Family :=
  match find_family n with
  | Some f => Some f
  | None => families !! (length families - 1)%nat
  end.

Definition getAllFamilyNames : list string := name <$> families.

Definition getColor (n : string) : string :=
  match getFamily n with
  | Some family => color family
  | None => "#64748b"
  end.

Definition getIcon (n : string) : string :=
  match getFamily n with
  | Some family => icon family
  | None => "📄"
  end.

Definition getColorPalette : list string := color <$> families.

End JobClassifier.

(** A published dataset with dates, employers and salaries. *)
Module Published.
Import DataProcessor.

Definition advert (id day employer : string) (gross : option Q) : Offer :=
  mkOffer id (Some "Archiviste") (Some employer) (Some "75") (Some "Archiviste")
          (Some "CDI") None (Some day) gross None.

Definition adverts : list Offer :=
  [advert "1" "2025-01-02" "Ville de Paris" (Some (inject_Z 30000));
   advert "2" "2025-01-03" "INA" None;
   advert "3" "2025-01-02" "INA" (Some (inject_Z 0));
   advert "4" "2025-01-02" "Ville de Paris" (Some (inject_Z 24000))].

Definition dashboard : World :=
  final (loadData (Scenario.serving (Scenario.dated "2025-01-10T06:00:00" adverts))
                  (initial false)).

End Published.
(** * Properties *)

(** ** The store *)

Lemma alloc_fresh (h : Heap) (l : list Offer) : (alloc h l).1 ∉ dom h.
Proof. apply is_fresh. Qed.

Lemma alloc_new (h : Heap) (l : list Offer) : (alloc h l).2 !!! (alloc h l).1 = l.
Proof. unfold alloc; simpl. by rewrite lookup_total_insert_eq. Qed.

Lemma alloc_old (h : Heap) (l : list Offer) (r : loc) :
  r ∈ dom h → (alloc h l).2 !! r = h !! r.
Proof.
  intros Hr. unfold alloc; simpl. apply lookup_insert_ne.
  intros Heq. subst r. exact (is_fresh (dom h) Hr).
Qed.

Lemma alloc_old_total (h : Heap) (l : list Offer) (r : loc) :
  r ∈ dom h → (alloc h l).2 !!! r = h !!! r.
Proof. intros Hr. by rewrite !lookup_total_alt, alloc_old. Qed.

Lemma alloc_dom (h : Heap) (l : list Offer) :
  dom (alloc h l).2 = {[ (alloc h l).1 ]} ∪ dom h.
Proof. unfold alloc; simpl. apply dom_insert_L. Qed.

(** ** DataProcessor *)

Module DataProcessorFacts.
Import DataProcessor.

Lemma includes_spec (arr : list string) (v : option string) :
  includes arr v = true ↔ ∃ s, v = Some s ∧ s ∈ arr.
Proof.
  destruct v as [s|]; simpl.
  - rewrite bool_decide_eq_true. split.
    + intros Hs. by exists s.
    + intros (s' & Heq & Hs). by injection Heq as ->.
  - split; [done|]. by intros (s & Heq & _).
Qed.

Lemma dimension_spec (set : list string) (v : option string) :
  bool_decide (0 < length set)%nat && negb (includes set v) = false ↔ admits set v.
Proof.
  unfold admits. rewrite andb_false_iff, bool_decide_eq_false, negb_false_iff, includes_spec.
  destruct set as [|x set]; simpl.
  - split; intros _; left; [done | lia].
  - split; (intros [H|H]; [|by right]).
    + lia.
    + done.
Qed.

Lemma keep_spec (fs : Filters) (o : Offer) :
  keep fs o = true ↔
  admits (jobFamilies fs) (jobFamily o) ∧
  admits (contractTypes fs) (contractType o) ∧
  admits (departments fs) (department o).
Proof.
  rewrite <- !dimension_spec. unfold keep.
  destruct (_ && negb (includes (jobFamilies fs) _)); [intuition congruence|].
  destruct (_ && negb (includes (contractTypes fs) _)); [intuition congruence|].
  destruct (_ && negb (includes (departments fs) _)); intuition congruence.
Qed.

Lemma keep_all_empty (fs : Filters) (o : Offer) : all_empty fs → keep fs o = true.
Proof.
  intros (H1 & H2 & H3). apply keep_spec. unfold admits. rewrite H1, H2, H3. auto.
Qed.

Lemma filter_keep_all_empty (fs : Filters) (l : list Offer) :
  all_empty fs → filter (keep fs) l = l.
Proof.
  intros He. induction l as [|o l IH]; [done|].
  rewrite filter_cons_True; [by rewrite IH|].
  rewrite (keep_all_empty fs o He). done.
Qed.

(** What [applyFilters] does on a loaded state. *)
Lemma applyFilters_loaded (nf : PartialFilters) (w : World) (d : Dataset.t) :
  data (this w) = Some d →
  ∃ r, (r ∉ dom (heap w)) ∧
    applyFilters nf w =
    Returned (mkWorld
      (<[r := filter (keep (merge (filters (this w)) nf)) (heap w !!! Dataset.offers d)]> (heap w))
      (mkState (Some d) (Some r) (isOffline (this w)) (dataSource (this w))
               (merge (filters (this w)) nf))
      (dispatched w ++ [dataFiltered r (merge (filters (this w)) nf)])
      (saved w)).
Proof.
  intros Hd. exists (fresh (dom (heap w))). split; [apply is_fresh|].
  unfold applyFilters. rewrite Hd. reflexivity.
Qed.

Lemma resetFilters_loaded (w : World) (d : Dataset.t) :
  data (this w) = Some d →
  ∃ r, (r ∉ dom (heap w)) ∧
    resetFilters w =
    Returned (mkWorld
      (<[r := heap w !!! Dataset.offers d]> (heap w))
      (mkState (Some d) (Some r) (isOffline (this w)) (dataSource (this w)) emptyFilters)
      (dispatched w ++ [dataFiltered r emptyFilters])
      (saved w)).
Proof.
  intros Hd. exists (fresh (dom (heap w))). split; [apply is_fresh|].
  unfold resetFilters. rewrite Hd. reflexivity.
Qed.


Import Invariants.

Lemma filtered_after (h : Heap) (r : loc) (l : list Offer) (s : State)
    (ev : list Event) (sv : list Dataset.t) :
  filteredOffers s = Some r →
  filtered (mkWorld (<[r := l]> h) s ev sv) = l.
Proof. intros Hr. unfold filtered; simpl. rewrite Hr. apply lookup_total_insert_eq. Qed.

Lemma all_offers_after (h : Heap) (r : loc) (l : list Offer) (s : State)
    (ev : list Event) (sv : list Dataset.t) (d : Dataset.t) :
  data s = Some d → Dataset.offers d ∈ dom h → r ∉ dom h →
  all_offers (mkWorld (<[r := l]> h) s ev sv) = h !!! Dataset.offers d.
Proof.
  intros Hd Hin Hr. unfold all_offers; simpl. rewrite Hd.
  apply lookup_total_insert_ne. intros ->. done.
Qed.

Lemma all_offers_loaded (w : World) (d : Dataset.t) :
  data (this w) = Some d → all_offers w = heap w !!! Dataset.offers d.
Proof. intros Hd. unfold all_offers. by rewrite Hd. Qed.

(** A committed filter change leaves a committed state. *)
Lemma run_op_committed (op : FilterOp) (w : World) :
  loaded w → ∃ w', run_op op w = Returned w' ∧ committed w' ∧
    data (this w') = data (this w) ∧ all_offers w' = all_offers w.
Proof.
  intros (d & Hd & Hin). destruct op as [nf|]; simpl.
  - destruct (applyFilters_loaded nf w d Hd) as (r & Hr & ->).
    eexists; split; [reflexivity|].
    assert (Hall : all_offers (dispatchEvent (dataFiltered r (merge (filters (this w)) nf))
      (mkWorld (<[r := filter (keep (merge (filters (this w)) nf)) (heap w !!! Dataset.offers d)]> (heap w))
         (mkState (Some d) (Some r) (isOffline (this w)) (dataSource (this w)) (merge (filters (this w)) nf))
         (dispatched w) (saved w))) = all_offers w).
    { rewrite (all_offers_loaded w d Hd). unfold dispatchEvent; simpl.
      by apply all_offers_after. }
    unfold dispatchEvent in *; simpl in *.
    repeat split.
    + exists d. simpl. split; [done|]. rewrite dom_insert_L. set_solver.
    + simpl. intros r' [= <-]. rewrite dom_insert_L. set_solver.
    + rewrite Hall. rewrite (all_offers_loaded w d Hd). by apply filtered_after.
    + done.
    + done.
  - destruct (resetFilters_loaded w d Hd) as (r & Hr & ->).
    eexists; split; [reflexivity|].
    assert (Hall : all_offers (dispatchEvent (dataFiltered r emptyFilters)
      (mkWorld (<[r := heap w !!! Dataset.offers d]> (heap w))
         (mkState (Some d) (Some r) (isOffline (this w)) (dataSource (this w)) emptyFilters)
         (dispatched w) (saved w))) = all_offers w).
    { rewrite (all_offers_loaded w d Hd). unfold dispatchEvent; simpl.
      by apply all_offers_after. }
    unfold dispatchEvent in *; simpl in *.
    repeat split.
    + exists d. simpl. split; [done|]. rewrite dom_insert_L. set_solver.
    + simpl. intros r' [= <-]. rewrite dom_insert_L. set_solver.
    + rewrite Hall. rewrite (all_offers_loaded w d Hd).
      rewrite filter_keep_all_empty by done.
      by apply filtered_after.
    + done.
    + done.
Qed.


Lemma run_op_frame (op : FilterOp) (w : World) :
  loaded w → ∃ w' r, run_op op w = Returned w' ∧
    filteredOffers (this w') = Some r ∧ (r ∉ dom (heap w)) ∧
    heap w' = <[r := filtered w']> (heap w) ∧
    dispatched w' = dispatched w ++ [dataFiltered r (filters (this w'))] ∧
    saved w' = saved w ∧ dataSource (this w') = dataSource (this w).
Proof.
  intros (d & Hd & Hin). destruct op as [nf|]; simpl.
  - destruct (applyFilters_loaded nf w d Hd) as (r & Hr & ->).
    eexists _, r. split; [reflexivity|]. simpl.
    unfold filtered; simpl. by rewrite lookup_total_insert_eq.
  - destruct (resetFilters_loaded w d Hd) as (r & Hr & ->).
    eexists _, r. split; [reflexivity|]. simpl.
    unfold filtered; simpl. by rewrite lookup_total_insert_eq.
Qed.

Lemma committed_loaded (w : World) : committed w → loaded w.
Proof. by intros (H & _). Qed.

Lemma run_ops_committed (ops : list FilterOp) (w : World) :
  loaded w → (ops ≠ [] ∨ committed w) →
  ∃ w', run_ops ops w = Returned w' ∧ committed w' ∧
    data (this w') = data (this w) ∧ all_offers w' = all_offers w.
Proof.
  revert w. induction ops as [|op ops IH]; intros w Hl Hc; simpl.
  - destruct Hc as [Hc|Hc]; [done|]. by exists w.
  - destruct (run_op_committed op w Hl) as (w1 & -> & Hc1 & Hd1 & Ha1).
    destruct (IH w1 (committed_loaded _ Hc1) (or_intror Hc1)) as (w2 & Hr & Hc2 & Hd2 & Ha2).
    exists w2. rewrite Hr. split; [done|]. split; [done|]. split; congruence.
Qed.

Lemma run_ops_frame (ops : list FilterOp) (w : World) :
  loaded w →
  ∃ w', run_ops ops w = Returned w' ∧
    (∀ r, r ∈ dom (heap w) → heap w' !! r = heap w !! r) ∧
    dom (heap w) ⊆ dom (heap w') ∧
    (saved w' = saved w ∧ dataSource (this w') = dataSource (this w)) ∧
    (ops ≠ [] → ∃ r, filteredOffers (this w') = Some r ∧ r ∉ dom (heap w)).
Proof.
  revert w. induction ops as [|op ops IH]; intros w Hl; simpl.
  - exists w. repeat split; try done.
  - destruct (run_op_committed op w Hl) as (w1 & Hrun & Hc1 & _).
    destruct (run_op_frame op w Hl) as (w1' & r & Hrun' & Hf & Hr & Hh & _ & Hs & Hsrc).
    rewrite Hrun in Hrun'. injection Hrun' as <-. rewrite Hrun.
    destruct (IH w1 (committed_loaded _ Hc1)) as (w2 & Hrun2 & Hold & Hdom & (Hs2 & Hsrc2) & Hnew).
    assert (Hsub : dom (heap w) ⊆ dom (heap w1)).
    { rewrite Hh, dom_insert_L. set_solver. }
    exists w2. split; [done|]. repeat split.
    + intros r' Hr'. rewrite Hold by set_solver.
      rewrite Hh. apply lookup_insert_ne. intros ->. done.
    + set_solver.
    + congruence.
    + congruence.
    + intros _. destruct ops as [|op' ops].
      * simpl in Hrun2. injection Hrun2 as <-. by exists r.
      * destruct Hnew as (r2 & Hf2 & Hr2); [done|].
        exists r2. split; [done|]. set_solver.
Qed.

(** Loading from the initial state leaves a committed state. *)
Lemma install_spec (d : Dataset.t) (src : Source) (w : World) :
  ∃ r, (r ∉ dom (heap w)) ∧
    install d src w =
    (r, mkWorld (<[r := heap w !!! Dataset.offers d]> (heap w))
          (mkState (Some d) (Some r) (isOffline (this w)) src (filters (this w)))
          (dispatched w) (saved w)).
Proof. exists (fresh (dom (heap w))). split; [apply is_fresh|reflexivity]. Qed.

Lemma materialize_spec (j : DatasetJson) (h : Heap) :
  ∃ r, (r ∉ dom h) ∧
    materialize j h =
    (Dataset.mk r (json_departments j) (json_dates j) (json_meta j), <[r := json_offers j]> h).
Proof. exists (fresh (dom h)). split; [apply is_fresh|reflexivity]. Qed.

Lemma loadData_with_cases (env : Env) (storage : Settled (option DatasetJson)) (w : World) :
  loadData_with env storage w =
  match network_data env with
  | Some j =>
      let '(d, h) := materialize j (heap w) in
      Returned (saveToStorage d (install d network (set_heap h w)).2)
  | None =>
      match loadFromStorage storage with
      | Some j =>
          let '(d, h) := materialize j (heap w) in
          Returned (install d cache (set_heap h w)).2
      | None => Threw (Error "No data available. Please connect to the internet.") w
      end
  end.
Proof.
  unfold loadData_with, network_data.
  destruct (onLine env); [|done].
  destruct (fetchFromNetwork env) as [[j|]|]; done.
Qed.

(** The state reached by adopting a document. *)
Lemma adopt_state (j : DatasetJson) (src : Source) (w : World) :
  ∃ d h w', materialize j (heap w) = (d, h) ∧
    (install d src (set_heap h w)).2 = w' ∧
    data (this w') = Some d ∧ Dataset.meta d = json_meta j ∧
    Dataset.departments d = json_departments j ∧
    dataSource (this w') = src ∧ filters (this w') = filters (this w) ∧
    isOffline (this w') = isOffline (this w) ∧
    all_offers w' = json_offers j ∧ filtered w' = json_offers j ∧
    well_formed w' ∧ loaded w' ∧
    (∀ r, r ∈ dom (heap w) → heap w' !! r = heap w !! r) ∧
    dom (heap w) ⊆ dom (heap w') ∧
    (∃ r, filteredOffers (this w') = Some r ∧ (r ∉ dom (heap w)) ∧ r ≠ Dataset.offers d) ∧
    (Dataset.offers d ∉ dom (heap w)) ∧
    dispatched w' = dispatched w ∧ saved w' = saved w.
Proof.
  destruct (materialize_spec j (heap w)) as (ro & Hro & Hm).
  destruct (install_spec (Dataset.mk ro (json_departments j) (json_dates j) (json_meta j))
              src (set_heap (<[ro := json_offers j]> (heap w)) w)) as (rf & Hrf & Hi).
  simpl in Hrf, Hi. rewrite lookup_total_insert_eq in Hi. rewrite dom_insert_L in Hrf.
  assert (Hrf' : rf ∉ dom (heap w)) by set_solver.
  assert (Hne : ro ≠ rf) by set_solver.
  eexists _, _, _. split; [exact Hm|]. split; [by rewrite Hi|]. simpl.
  assert (Hall : (<[rf:=json_offers j]> (<[ro:=json_offers j]> (heap w)) : Heap) !!! ro = json_offers j).
  { rewrite lookup_total_insert_ne by done. apply lookup_total_insert_eq. }
  repeat split; try done.
  - unfold filtered; simpl. apply lookup_total_insert_eq.
  - simpl. intros d [= <-]. simpl. rewrite !dom_insert_L. set_solver.
  - simpl. intros r [= <-]. rewrite !dom_insert_L. set_solver.
  - eexists. simpl. split; [reflexivity|]. simpl. rewrite !dom_insert_L. set_solver.
  - intros r Hr. rewrite !lookup_insert_ne; [done| |]; intros ->; done.
  - rewrite !dom_insert_L. set_solver.
  - exists rf. repeat split; [done|congruence].
Qed.

Lemma heap_extension (w : World) (h : Heap) :
  (∀ r, r ∈ dom (heap w) → h !! r = heap w !! r) →
  dom (heap w) ⊆ dom h →
  session_invariant w → session_invariant (set_heap h w).
Proof.
  intros Hold Hdom ((Hd & Hf & Hn) & Hsub & Hall).
  assert (Hf' : filtered (set_heap h w) = filtered w).
  { unfold filtered; simpl. destruct (filteredOffers (this w)) as [r|] eqn:E; [|done].
    rewrite !lookup_total_alt, Hold; [done|]. by apply Hf. }
  assert (Ha' : all_offers (set_heap h w) = all_offers w).
  { unfold all_offers; simpl. destruct (data (this w)) as [d|] eqn:E; [|done].
    rewrite !lookup_total_alt, Hold; [done|]. by apply Hd. }
  split; [|split].
  - repeat split; simpl.
    + intros d E. apply Hdom. by apply Hd.
    + intros r E. apply Hdom. by apply Hf.
    + done.
  - by rewrite Hf', Ha'.
  - simpl. rewrite Hf', Ha'. done.
Qed.

Lemma committed_session (w : World) : committed w → session_invariant w.
Proof.
  intros ((d & Hd & Hin) & Hf & Heq). split; [|split].
  - repeat split.
    + intros d' E. congruence.
    + done.
    + congruence.
  - rewrite Heq. apply sublist_filter.
  - intros He. rewrite Heq. by apply filter_keep_all_empty.
Qed.

Lemma adopted_session (w : World) :
  well_formed w → filtered w = all_offers w → session_invariant w.
Proof. intros Hw Heq. split; [done|]. rewrite Heq. done. Qed.

Lemma session_invariant_events (w : World) (ev : list Event) (sv : list Dataset.t) :
  session_invariant w → session_invariant (mkWorld (heap w) (this w) ev sv).
Proof. done. Qed.

Lemma session_loaded (w : World) (d : Dataset.t) :
  session_invariant w → data (this w) = Some d → loaded w.
Proof. intros ((H1 & _) & _) Hd. exists d. split; [done|]. by apply H1. Qed.

Lemma exec_session (op : Op) (w : World) :
  session_invariant w → session_invariant (final (exec op w)).
Proof.
  intros Hinv. destruct op as [env storage|env|nf|]; simpl.
  - rewrite loadData_with_cases.
    destruct (network_data env) as [j|].
    + destruct (adopt_state j network w) as (d & h & w' & -> & Hi & H).
      cbv beta iota zeta. rewrite Hi.
      apply (session_invariant_events _ _ _).
      apply adopted_session; [tauto|]. destruct H as (_&_&_&_&_&_&->&->&_). done.
    + destruct (loadFromStorage storage) as [j|]; [|done].
      destruct (adopt_state j cache w) as (d & h & w' & -> & Hi & H).
      cbv beta iota zeta. rewrite Hi. simpl.
      apply adopted_session; [tauto|]. destruct H as (_&_&_&_&_&_&->&->&_). done.
  - unfold refreshIfNeeded.
    destruct (dataSource (this w)); try done.
    destruct (fetchFromNetwork env) as [[j|]|]; try done.
    destruct (materialize_spec j (heap w)) as (ro & Hro & ->).
    assert (H1 : session_invariant (set_heap (<[ro:=json_offers j]> (heap w)) w)).
    { apply heap_extension; [| |done].
      - intros r Hr. apply lookup_insert_ne. intros ->. done.
      - rewrite dom_insert_L. set_solver. }
    simpl. destruct (data (this w)) as [cached|] eqn:Hc; [|done].
    destruct (isNewer _ _); [|done].
    pose proof (is_fresh (dom (<[ro:=json_offers j]> (heap w)))) as Hrf.
    set (rf := fresh (dom (<[ro:=json_offers j]> (heap w)))) in *.
    simpl. apply adopted_session.
    + rewrite dom_insert_L in Hrf. repeat split; simpl.
      * intros d [= <-]. simpl. rewrite !dom_insert_L. set_solver.
      * intros r [= <-]. rewrite !dom_insert_L. set_solver.
      * done.
    + unfold filtered, all_offers; simpl.
      rewrite lookup_total_insert_eq.
      symmetry. apply lookup_total_insert_ne.
      clearbody rf. rewrite dom_insert_L in Hrf. set_solver.
  - destruct (data (this w)) as [d|] eqn:Hd.
    + assert (Hl : loaded w) by (by apply (session_loaded w d)).
      destruct (run_op_committed (Apply nf) w Hl) as (w' & Hrun & Hc & _).
      simpl in Hrun. rewrite Hrun. simpl. by apply committed_session.
    + unfold applyFilters. rewrite Hd. simpl.
      destruct Hinv as ((H1 & H2 & H3) & _).
      specialize (H3 Hd). split; [|split].
      * repeat split; simpl; [congruence | congruence | done].
      * unfold filtered, all_offers; simpl. by rewrite H3.
      * unfold filtered, all_offers; simpl. by rewrite H3.
  - destruct (data (this w)) as [d|] eqn:Hd.
    + assert (Hl : loaded w) by (by apply (session_loaded w d)).
      destruct (run_op_committed Reset w Hl) as (w' & Hrun & Hc & _).
      simpl in Hrun. rewrite Hrun. simpl. by apply committed_session.
    + unfold resetFilters. rewrite Hd. simpl.
      destruct Hinv as ((H1 & H2 & H3) & _).
      specialize (H3 Hd). split; [|split].
      * repeat split; simpl; [congruence | congruence | done].
      * unfold filtered, all_offers; simpl. by rewrite H3.
      * unfold filtered, all_offers; simpl. by rewrite H3.
Qed.

Lemma reachable_session (w : World) : reachable w → session_invariant w.
Proof.
  induction 1 as [offline|op w Hr IH].
  - split; [|split]; try done.
  - by apply exec_session.
Qed.


Lemma adopted_committed (j : DatasetJson) (src : Source) (w w' : World) (d : Dataset.t) (h : Heap) :
  all_empty (filters (this w)) →
  materialize j (heap w) = (d, h) → (install d src (set_heap h w)).2 = w' →
  committed w'.
Proof.
  intros He Hm Hi.
  destruct (adopt_state j src w) as (d1 & h1 & w1 & Hm1 & Hi1 & H).
  rewrite Hm in Hm1. injection Hm1 as <- <-. rewrite Hi in Hi1. subst w1.
  destruct H as (_&_&_&_&Hfs&_&Hall&Hf&(_&Hw&_)&Hl&_).
  split; [done|]. split; [done|].
  rewrite Hf, Hall. symmetry. apply filter_keep_all_empty. by rewrite Hfs.
Qed.

Lemma loadData_initial_committed (env : Env) (offline : bool) (w : World) :
  loadData env (initial offline) = Returned w → committed w.
Proof.
  unfold loadData. rewrite loadData_with_cases. intros Hrun.
  destruct (network_data env) as [j|].
  - destruct (materialize j (heap (initial offline))) as [d h] eqn:Hm.
    injection Hrun as <-.
    exact (adopted_committed j network (initial offline) _ d h
             (conj eq_refl (conj eq_refl eq_refl)) Hm eq_refl).
  - destruct (loadFromStorage _) as [j|]; [|done].
    destruct (materialize j (heap (initial offline))) as [d h] eqn:Hm.
    injection Hrun as <-.
    apply (adopted_committed j cache (initial offline) _ d h); done.
Qed.

(** X28: after at least one applyFilters or resetFilters on a loaded
    state, and right after loadData on the initial state, an offer is
    in filteredOffers exactly when it is an offer of the dataset and,
    for each of jobFamilies, contractTypes and departments, the
    committed set is empty or contains the offer's value; a non-empty
    set therefore restricts every filtered offer to its members; and
    on the three offers of the scenario, jobFamilies=["Archiviste"]
    keeps offers 1 and 3 and adding departments=["75"] keeps
    offer 1. *)
Theorem filteredOffers_membership (w : World) (ops : list FilterOp) :
  loaded w →
  ops ≠ [] ∨ (∃ env offline, loadData env (initial offline) = Returned w) →
  ∃ w', run_ops ops w = Returned w' ∧
    (∀ o, o ∈ filtered w' ↔
       o ∈ all_offers w' ∧
       admits (jobFamilies (filters (this w'))) (jobFamily o) ∧
       admits (contractTypes (filters (this w'))) (contractType o) ∧
       admits (departments (filters (this w'))) (department o)) ∧
    (jobFamilies (filters (this w')) ≠ [] → ∀ o, o ∈ filtered w' →
       ∃ s, jobFamily o = Some s ∧ s ∈ jobFamilies (filters (this w'))) ∧
    (contractTypes (filters (this w')) ≠ [] → ∀ o, o ∈ filtered w' →
       ∃ s, contractType o = Some s ∧ s ∈ contractTypes (filters (this w'))) ∧
    (departments (filters (this w')) ≠ [] → ∀ o, o ∈ filtered w' →
       ∃ s, department o = Some s ∧ s ∈ departments (filters (this w'))) ∧
    (let w1 := final (loadData (Scenario.serving Scenario.three_offers) (initial false)) in
     let w2 := final (applyFilters (Scenario.byJobFamilies ["Archiviste"]) w1) in
     let w3 := final (applyFilters (Scenario.byDepartments ["75"]) w2) in
     all_offers w1 = [Scenario.offer1; Scenario.offer2; Scenario.offer3] ∧
     filtered w2 = [Scenario.offer1; Scenario.offer3] ∧
     jobFamilies (filters (this w3)) = ["Archiviste"] ∧
     departments (filters (this w3)) = ["75"] ∧
     filtered w3 = [Scenario.offer1]).
Proof.
  intros Hl Hc.
  assert (Hc' : ops ≠ [] ∨ committed w).
  { destruct Hc as [Hc|(env & offline & Hc)]; [by left|right].
    by apply (loadData_initial_committed env offline). }
  destruct (run_ops_committed ops w Hl Hc') as (w' & Hrun & (_ & _ & Heq) & _).
  exists w'. split; [done|].
  assert (Hiff : ∀ o, o ∈ filtered w' ↔
       o ∈ all_offers w' ∧
       admits (jobFamilies (filters (this w'))) (jobFamily o) ∧
       admits (contractTypes (filters (this w'))) (contractType o) ∧
       admits (departments (filters (this w'))) (department o)).
  { intros o. rewrite Heq, list_elem_of_filter, Is_true_true, keep_spec. tauto. }
  split; [done|].
  split; [|split; [|split]].
  - intros Hne o Ho. apply Hiff in Ho as (_ & [He|Hm] & _); done.
  - intros Hne o Ho. apply Hiff in Ho as (_ & _ & [He|Hm] & _); done.
  - intros Hne o Ho. apply Hiff in Ho as (_ & _ & _ & [He|Hm]); done.
  - vm_compute. done.
Qed.

Lemma from_network_loaded : loaded Scenario.from_network.
Proof.
  eexists. split; [vm_compute; reflexivity|].
  apply elem_of_dom. vm_compute. eauto.
Qed.

Lemma filteredOffers_membership_witness :
  ∃ w', run_ops [Apply (Scenario.byJobFamilies ["Archiviste"])] Scenario.from_network = Returned w' ∧
    ∀ o, o ∈ filtered w' ↔
       o ∈ all_offers w' ∧
       admits (jobFamilies (filters (this w'))) (jobFamily o) ∧
       admits (contractTypes (filters (this w'))) (contractType o) ∧
       admits (departments (filters (this w'))) (department o).
Proof.
  assert (Hne : [Apply (Scenario.byJobFamilies ["Archiviste"])] ≠ []) by discriminate.
  pose proof (filteredOffers_membership Scenario.from_network
                [Apply (Scenario.byJobFamilies ["Archiviste"])]
                from_network_loaded (or_introl Hne))
    as (w' & Hrun & Hiff & _).
  exists w'. split; [exact Hrun | exact Hiff].
Defined.


(** C3: in every state a session reaches with a dataset loaded, a
    filter state whose three dimensions are empty shows the full
    data.offers collection; resetFilters() commits such a state, and so
    does applyFilters whenever the merged sets are empty. *)
Theorem empty_filters_show_all_offers (w : World) :
  reachable w → loaded w →
  (all_empty (filters (this w)) → filtered w = all_offers w) ∧
  (∃ w', resetFilters w = Returned w' ∧ all_empty (filters (this w')) ∧
     filtered w' = all_offers w' ∧ all_offers w' = all_offers w) ∧
  (∀ nf, all_empty (merge (filters (this w)) nf) →
     ∃ w', applyFilters nf w = Returned w' ∧ all_empty (filters (this w')) ∧
       filtered w' = all_offers w' ∧ all_offers w' = all_offers w).
Proof.
  intros Hr Hl. split; [|split].
  - by apply (reachable_session w Hr).
  - destruct (run_op_committed Reset w Hl) as (w' & Hrun & Hc & _ & Hall).
    simpl in Hrun. exists w'. split; [done|].
    assert (He : all_empty (filters (this w'))).
    { destruct Hl as (d & Hd & _).
      destruct (resetFilters_loaded w d Hd) as (r & _ & Heq).
      rewrite Heq in Hrun. injection Hrun as <-. done. }
    split; [done|]. split; [|done].
    by apply (committed_session w' Hc).
  - intros nf He.
    destruct (run_op_committed (Apply nf) w Hl) as (w' & Hrun & Hc & _ & Hall).
    simpl in Hrun. exists w'. split; [done|].
    assert (He' : all_empty (filters (this w'))).
    { destruct Hl as (d & Hd & _).
      destruct (applyFilters_loaded nf w d Hd) as (r & _ & Heq).
      rewrite Heq in Hrun. injection Hrun as <-. done. }
    split; [done|]. split; [|done].
    by apply (committed_session w' Hc).
Qed.

Lemma archivists_reachable : reachable Scenario.archivists.
Proof.
  apply (reachable_step (opApplyFilters (Scenario.byJobFamilies ["Archiviste"]))).
  apply (reachable_step (opLoadData _ _)).
  apply reachable_initial.
Qed.

Lemma archivists_loaded : loaded Scenario.archivists.
Proof.
  eexists. split; [vm_compute; reflexivity|].
  apply elem_of_dom. vm_compute. eauto.
Qed.

Lemma empty_filters_show_all_offers_witness :
  ∃ w', resetFilters Scenario.archivists = Returned w' ∧
    all_empty (filters (this w')) ∧
    filtered w' = all_offers w' ∧ all_offers w' = all_offers Scenario.archivists.
Proof.
  exact (proj1 (proj2 (empty_filters_show_all_offers Scenario.archivists
                         archivists_reachable archivists_loaded))).
Defined.

(** C9: a run of applyFilters and resetFilters on a loaded state
    returns, keeps [data] and every array that existed before
    (data.offers and each offer in it included) as they were, requests
    no write to storage, and, when it made at least one step, leaves
    filteredOffers on a new array that holds the offers of data.offers
    selected by the committed filters. *)
Theorem filtering_preserves_data (w : World) (ops : list FilterOp) :
  loaded w →
  ∃ w', run_ops ops w = Returned w' ∧
    data (this w') = data (this w) ∧
    all_offers w' = all_offers w ∧
    (∀ r, r ∈ dom (heap w) → heap w' !! r = heap w !! r) ∧
    saved w' = saved w ∧
    dataSource (this w') = dataSource (this w) ∧
    (ops ≠ [] → ∃ r, filteredOffers (this w') = Some r ∧ (r ∉ dom (heap w)) ∧
       heap w' !!! r = filter (keep (filters (this w'))) (all_offers w)).
Proof.
  intros Hl.
  destruct (run_ops_frame ops w Hl) as (w' & Hrun & Hold & _ & (Hs & Hsrc) & Hnew).
  exists w'. split; [done|].
  destruct ops as [|op ops].
  - simpl in Hrun. injection Hrun as <-. repeat split; done.
  - assert (Hne : op :: ops ≠ []) by discriminate.
    destruct (run_ops_committed (op :: ops) w Hl (or_introl Hne))
      as (w2 & Hrun2 & (_ & _ & Hc) & Hd & Ha).
    rewrite Hrun in Hrun2. injection Hrun2 as <-.
    repeat split; try done.
    intros _. destruct Hnew as (r & Hf & Hr); [done|].
    exists r. repeat split; [done|done|].
    rewrite <- Ha, <- Hc. unfold filtered. by rewrite Hf.
Qed.

Lemma filtering_preserves_data_witness :
  ∃ w', run_ops [Apply (Scenario.byDepartments ["75"]); Reset] Scenario.archivists = Returned w' ∧
    data (this w') = data (this Scenario.archivists) ∧
    all_offers w' = all_offers Scenario.archivists.
Proof.
  destruct (filtering_preserves_data Scenario.archivists
              [Apply (Scenario.byDepartments ["75"]); Reset] archivists_loaded)
    as (w' & Hrun & Hd & Ha & _).
  exists w'. repeat split; assumption.
Defined.

(** C10: in every state reached through loadData, refreshIfNeeded,
    applyFilters and resetFilters, filteredOffers is a subsequence of
    data.offers: same relative order, every element taken from
    data.offers, none more often than it occurs there. *)
Theorem filteredOffers_subsequence (w : World) :
  reachable w →
  filtered w `sublist_of` all_offers w ∧
  (∀ o, o ∈ filtered w → o ∈ all_offers w) ∧
  filtered w ⊆+ all_offers w.
Proof.
  intros Hr. destruct (reachable_session w Hr) as (_ & Hsub & _).
  split; [done|]. split.
  - intros o Ho. by eapply elem_of_sublist.
  - by apply sublist_submseteq.
Qed.

Lemma filteredOffers_subsequence_witness :
  filtered Scenario.archivists `sublist_of` all_offers Scenario.archivists.
Proof.
  exact (proj1 (filteredOffers_subsequence Scenario.archivists archivists_reachable)).
Defined.


Import LoadSpec.

Lemma network_data_Some (env : Env) (j : DatasetJson) :
  network_data env = Some j ↔
  onLine env = true ∧
  ∃ response, fetch env = Fulfilled response ∧ ok response = true ∧
    json response = Fulfilled (Some j).
Proof.
  unfold network_data, fetchFromNetwork. split.
  - destruct (onLine env); [|done].
    destruct (fetch env) as [response|]; [|done].
    destruct (ok response) eqn:Hok; [|done]. simpl.
    destruct (json response) as [[j'|]|] eqn:Hj; [|done..].
    intros [= ->]. eauto.
  - intros (-> & response & -> & -> & ->). done.
Qed.

Lemma network_data_None (env : Env) : network_data env = None ↔ network_fails env.
Proof.
  unfold network_data, fetchFromNetwork, network_fails. split.
  - destruct (onLine env); [|by left]. right.
    destruct (fetch env) as [response|reason]; [|left; eauto].
    right. exists response. split; [done|].
    destruct (ok response); [|by left]. right. simpl in *.
    destruct (json response) as [[j|]|reason]; [done|by right|left; eauto].
  - intros [->|[(reason & ->)|(response & -> & [->|[(reason & ->)| ->]])]];
      try done; destruct (onLine env); try done; by destruct (ok response).
Qed.

Lemma stored_copy_Some (env : Env) (j : DatasetJson) :
  loadFromStorage (Storage_loadAggregatedData env) = Some j ↔
  ∃ m, json_offers j ≠ [] ∧
    getOffers env = Fulfilled (json_offers j) ∧ getAllMeta env = Fulfilled m ∧
    getDates env = Fulfilled (json_dates j) ∧
    getDepartments env = Fulfilled (json_departments j) ∧
    getSummaries env = Fulfilled () ∧ json_meta j = Some m.
Proof.
  unfold Storage_loadAggregatedData. split.
  - destruct (getOffers env) as [offers|]; [|done].
    case_bool_decide as Hlen; [done|].
    destruct (getAllMeta env) as [m|]; [|done].
    destruct (getDates env) as [ds|]; [|done].
    destruct (getDepartments env) as [deps|]; [|done].
    destruct (getSummaries env) as [[]|]; [|done].
    intros [= <-]. exists m. simpl. split; [|done].
    intros ->. done.
  - intros (m & Hne & -> & -> & -> & -> & -> & Hm).
    rewrite bool_decide_eq_false_2 by (by destruct (json_offers j)).
    simpl. destruct j as [o dp ds mt]; simpl in *. by subst.
Qed.

Lemma stored_copy_None (env : Env) :
  loadFromStorage (Storage_loadAggregatedData env) = None ↔ cache_fails env.
Proof.
  unfold Storage_loadAggregatedData, cache_fails. split.
  - destruct (getOffers env) as [offers|reason]; [|left; eauto].
    case_bool_decide as Hlen.
    { intros _. right; left. f_equal. by apply nil_length_inv. }
    destruct (getAllMeta env) as [m|]; [|intros _; right; right; left; eauto].
    destruct (getDates env) as [ds|]; [|intros _; right; right; right; left; eauto].
    destruct (getDepartments env) as [deps|];
      [|intros _; right; right; right; right; left; eauto].
    destruct (getSummaries env) as [[]|];
      [done|intros _; right; right; right; right; right; eauto].
  - intros [(reason & ->)|[->|H]]; [done|done|].
    destruct (getOffers env) as [offers|]; [|done].
    case_bool_decide; [done|].
    destruct H as [(reason & ->)|[(reason & ->)|[(reason & ->)|(reason & ->)]]];
      repeat (match goal with |- context [match ?x with _ => _ end] => destruct x end);
      done.
Qed.

(** C4: loadData() tries the network first: when the client is online
    and the fetch answers ok with a document, that document becomes
    [data], dataSource is "network" and the dataset is handed to
    storage, whatever the local database holds.  If the client is
    offline or the fetch fails (rejected, status not ok, unreadable or
    null body), the copy of the local database (a database with at
    least one offer, all of whose reads succeed) becomes [data] and
    dataSource is "cache".  A storage layer that rejects, or any
    failing read of the database, counts as an absent copy and is not
    propagated.  loadData() throws exactly when both fail, and then it
    throws the error "No data available" and leaves the state as it
    was. *)
Theorem loadData_network_first_cache_fallback (env : Env) (w : World) :
  (∀ storage response j,
     onLine env = true → fetch env = Fulfilled response → ok response = true →
     json response = Fulfilled (Some j) →
     ∃ w' d, loadData_with env storage w = Returned w' ∧
       data (this w') = Some d ∧ Dataset.meta d = json_meta j ∧
       Dataset.departments d = json_departments j ∧
       all_offers w' = json_offers j ∧ filtered w' = json_offers j ∧
       dataSource (this w') = network ∧ saved w' = saved w ++ [d]) ∧
  (network_fails env → ∀ j,
     ∃ w' d, loadData_with env (Fulfilled (Some j)) w = Returned w' ∧
       data (this w') = Some d ∧ Dataset.meta d = json_meta j ∧
       Dataset.departments d = json_departments j ∧
       all_offers w' = json_offers j ∧ filtered w' = json_offers j ∧
       dataSource (this w') = cache ∧ saved w' = saved w) ∧
  (network_fails env → ∀ offers m dates departments,
     offers ≠ [] →
     getOffers env = Fulfilled offers → getAllMeta env = Fulfilled m →
     getDates env = Fulfilled dates → getDepartments env = Fulfilled departments →
     getSummaries env = Fulfilled () →
     ∃ w' d, loadData env w = Returned w' ∧
       data (this w') = Some d ∧ Dataset.meta d = Some m ∧
       Dataset.departments d = departments ∧ Dataset.dates d = dates ∧
       all_offers w' = offers ∧ filtered w' = offers ∧
       dataSource (this w') = cache ∧ saved w' = saved w) ∧
  (network_fails env → ∀ reason,
     loadData_with env (Rejected reason) w =
     Threw (Error "No data available. Please connect to the internet.") w ∧
     loadData_with env (Fulfilled None) w =
     Threw (Error "No data available. Please connect to the internet.") w) ∧
  (network_fails env → cache_fails env →
     loadData env w =
     Threw (Error "No data available. Please connect to the internet.") w) ∧
  ((∃ e w', loadData env w = Threw e w') ↔ network_fails env ∧ cache_fails env) ∧
  (∀ storage, (∃ e w', loadData_with env storage w = Threw e w') ↔
     network_fails env ∧
     (storage = Fulfilled None ∨ ∃ reason, storage = Rejected reason)).
Proof.
  assert (Hnet : ∀ storage j, network_data env = Some j →
     ∃ w' d, loadData_with env storage w = Returned w' ∧
       data (this w') = Some d ∧ Dataset.meta d = json_meta j ∧
       Dataset.departments d = json_departments j ∧
       all_offers w' = json_offers j ∧ filtered w' = json_offers j ∧
       dataSource (this w') = network ∧ saved w' = saved w ++ [d]).
  { intros storage j Hn. rewrite loadData_with_cases, Hn.
    destruct (adopt_state j network w) as (d & h & w' & -> & Hi & H).
    cbv beta iota zeta. rewrite Hi.
    exists (saveToStorage d w'), d. split; [done|].
    destruct H as (Hd & Hm & Hdp & Hsrc & _ & _ & Hall & Hf & _ & _ & _ & _ & _ & _ & _ & Hs).
    repeat split; try done. simpl. by rewrite Hs. }
  assert (Hcache : ∀ storage j, network_data env = None → loadFromStorage storage = Some j →
     ∃ w' d, loadData_with env storage w = Returned w' ∧
       data (this w') = Some d ∧ Dataset.meta d = json_meta j ∧
       Dataset.departments d = json_departments j ∧ Dataset.dates d = json_dates j ∧
       all_offers w' = json_offers j ∧ filtered w' = json_offers j ∧
       dataSource (this w') = cache ∧ saved w' = saved w).
  { intros storage j Hn Hc. rewrite loadData_with_cases, Hn, Hc.
    destruct (adopt_state j cache w) as (d & h & w' & Hmat & Hi & H).
    rewrite Hmat. cbv beta iota zeta. rewrite Hi.
    exists w', d. split; [done|].
    destruct H as (Hd & Hm & Hdp & Hsrc & _ & _ & Hall & Hf & _ & _ & _ & _ & _ & _ & _ & Hs).
    repeat split; try done.
    unfold materialize in Hmat. destruct (alloc (heap w) (json_offers j)).
    by injection Hmat as <- _. }
  assert (Hthrows : ∀ storage, (∃ e w', loadData_with env storage w = Threw e w') ↔
     network_data env = None ∧ loadFromStorage storage = None).
  { intros storage. rewrite loadData_with_cases. split.
    - intros (e & w' & H).
      destruct (network_data env) as [j|].
      { by destruct (materialize j (heap w)). }
      destruct (loadFromStorage storage) as [j|]; [|done].
      by destruct (materialize j (heap w)).
    - intros (-> & ->). eauto. }
  split; [|split; [|split; [|split; [|split; [|split]]]]].
  - intros storage response j Hon Hf Hok Hj. apply Hnet.
    apply network_data_Some. eauto.
  - intros Hn%network_data_None j.
    destruct (Hcache (Fulfilled (Some j)) j Hn eq_refl)
      as (w' & d & H1 & H2 & H3 & H4 & _ & H5). eauto 10.
  - intros Hn%network_data_None offers m dates departments Hne Ho Hm Hds Hdp Hsm.
    destruct (Hcache (Storage_loadAggregatedData env)
                (mkDatasetJson offers departments dates (Some m)) Hn) as (w' & d & H).
    { apply stored_copy_Some. exists m. done. }
    exists w', d. exact H.
  - intros Hn%network_data_None reason. rewrite !loadData_with_cases, Hn. done.
  - intros Hn%network_data_None Hc%stored_copy_None.
    unfold loadData. by rewrite loadData_with_cases, Hn, Hc.
  - unfold loadData. rewrite Hthrows, network_data_None, stored_copy_None. done.
  - intros storage. rewrite Hthrows, network_data_None.
    destruct storage as [[j|]|reason]; simpl; split; intros (Hn & Hs); split;
      try done; eauto.
    + by destruct Hs as [|(reason & ?)].
Qed.

Lemma loadData_network_first_cache_fallback_witness :
  (∃ w' d, loadData (Scenario.serving Scenario.three_offers) (initial false) = Returned w' ∧
     data (this w') = Some d ∧ all_offers w' = json_offers Scenario.three_offers ∧
     dataSource (this w') = network ∧ saved w' = [d]) ∧
  (∃ w' d, loadData (Scenario.offline_with Scenario.three_offers
                       (Scenario.stamp "2025-01-10T06:00:00")) (initial true) = Returned w' ∧
     data (this w') = Some d ∧ all_offers w' = json_offers Scenario.three_offers ∧
     dataSource (this w') = cache ∧ saved w' = []) ∧
  loadData Scenario.nothing (initial true) =
  Threw (Error "No data available. Please connect to the internet.") (initial true).
Proof.
  split; [|split].
  - destruct (loadData_network_first_cache_fallback
                (Scenario.serving Scenario.three_offers) (initial false)) as (H & _).
    destruct (H (Storage_loadAggregatedData (Scenario.serving Scenario.three_offers))
                (mkResponse true (Fulfilled (Some Scenario.three_offers)))
                Scenario.three_offers eq_refl eq_refl eq_refl eq_refl)
      as (w' & d & H1 & H2 & _ & _ & H3 & _ & H4 & H5).
    exists w', d. split; [exact H1|]. split; [exact H2|]. split; [exact H3|].
    split; [exact H4|exact H5].
  - destruct (loadData_network_first_cache_fallback
                (Scenario.offline_with Scenario.three_offers
                   (Scenario.stamp "2025-01-10T06:00:00")) (initial true))
      as (_ & _ & H & _).
    destruct (H (or_introl eq_refl) (json_offers Scenario.three_offers)
                (Scenario.stamp "2025-01-10T06:00:00") [] ∅)
      as (w' & d & H1 & H2 & _ & _ & _ & H3 & _ & H4 & H5);
      [discriminate|reflexivity..|].
    exists w', d. split; [exact H1|]. split; [exact H2|]. split; [exact H3|].
    split; [exact H4|exact H5].
  - destruct (loadData_network_first_cache_fallback Scenario.nothing (initial true))
      as (_ & _ & _ & _ & H & _).
    apply H; [by left|]. left. by exists "InvalidStateError".
Defined.

(** What a background refresh does when the fetched dataset is newer:
    [filters] is not among the fields it assigns. *)
Lemma refreshIfNeeded_newer (env : Env) (w : World) (cached : Dataset.t) (j : DatasetJson) :
  dataSource (this w) = cache →
  data (this w) = Some cached →
  fetchFromNetwork env = Fulfilled (Some j) →
  isNewer (Dataset.meta cached ≫= generatedAt) (json_meta j ≫= generatedAt) = true →
  ∃ w' d r, refreshIfNeeded env w = Returned w' ∧
    data (this w') = Some d ∧ Dataset.meta d = json_meta j ∧
    all_offers w' = json_offers j ∧ filtered w' = json_offers j ∧
    filteredOffers (this w') = Some r ∧
    dataSource (this w') = network ∧
    filters (this w') = filters (this w) ∧
    dispatched w' = dispatched w ++ [dataRefreshed r] ∧
    saved w' = saved w ++ [d].
Proof.
  intros Hsrc Hd Hf Hnew. unfold refreshIfNeeded. rewrite Hsrc, Hf.
  destruct (materialize_spec j (heap w)) as (ro & Hro & ->).
  simpl. rewrite Hd. simpl. rewrite Hnew.
  pose proof (is_fresh (dom (<[ro:=json_offers j]> (heap w)))) as Hrf.
  set (rf := fresh (dom (<[ro:=json_offers j]> (heap w)))) in *. clearbody rf.
  rewrite dom_insert_L in Hrf.
  eexists _, _, rf. split; [reflexivity|]. simpl.
  unfold all_offers, filtered; simpl.
  rewrite !lookup_total_insert_eq.
  rewrite lookup_total_insert_ne by set_solver.
  rewrite lookup_total_insert_eq. done.
Qed.

(** C1: evaluated on a session that starts from the cache, restricts
    the view to the job family "Archiviste" and then fetches a newer
    dataset, the refresh replaces [data], shows every offer of the new
    dataset and dispatches dataRefreshed once and nothing else, but the
    committed filter state still names "Archiviste". *)
Theorem refreshIfNeeded_keeps_filters :
  dataSource (this Scenario.archivists) = cache ∧
  jobFamilies (filters (this Scenario.archivists)) = ["Archiviste"] ∧
  filtered Scenario.archivists = [Scenario.offer1; Scenario.offer3] ∧
  refreshIfNeeded (Scenario.serving Scenario.refreshed_offers) Scenario.archivists =
    Returned Scenario.after_refresh ∧
  all_offers Scenario.after_refresh = [Scenario.offer1; Scenario.offer2] ∧
  filtered Scenario.after_refresh = [Scenario.offer1; Scenario.offer2] ∧
  dataSource (this Scenario.after_refresh) = network ∧
  (∃ r, filteredOffers (this Scenario.after_refresh) = Some r ∧
     dispatched Scenario.after_refresh =
     dispatched Scenario.archivists ++ [dataRefreshed r]) ∧
  jobFamilies (filters (this Scenario.after_refresh)) = ["Archiviste"] ∧
  ¬ all_empty (filters (this Scenario.after_refresh)).
Proof.
  repeat split; try (vm_compute; reflexivity).
  - eexists. split; vm_compute; reflexivity.
  - intros (H & _). vm_compute in H. discriminate.
Qed.

(** C2: evaluated on the same session: started from the cache, the view
    restricted to the job family "Archiviste" (it then holds offers 1
    and 3, as the rule of the three dimensions says), and a newer
    dataset fetched by the background refresh.  The state after the
    refresh is one a session reaches with a dataset loaded; its
    committed jobFamilies is the non-empty set ["Archiviste"], yet
    filteredOffers holds offer 2, whose jobFamily "Documentaliste" is
    not in the set: membership in filteredOffers is not the rule of
    the three dimensions there. *)
Theorem refreshIfNeeded_breaks_membership :
  reachable Scenario.after_refresh ∧ loaded Scenario.after_refresh ∧
  filtered Scenario.archivists = [Scenario.offer1; Scenario.offer3] ∧
  refreshIfNeeded (Scenario.serving Scenario.refreshed_offers) Scenario.archivists =
    Returned Scenario.after_refresh ∧
  jobFamilies (filters (this Scenario.after_refresh)) = ["Archiviste"] ∧
  filtered Scenario.after_refresh = [Scenario.offer1; Scenario.offer2] ∧
  jobFamily Scenario.offer2 = Some "Documentaliste" ∧
  ¬ admits (jobFamilies (filters (this Scenario.after_refresh))) (jobFamily Scenario.offer2) ∧
  ¬ (∀ o, o ∈ filtered Scenario.after_refresh ↔
       o ∈ all_offers Scenario.after_refresh ∧
       admits (jobFamilies (filters (this Scenario.after_refresh))) (jobFamily o) ∧
       admits (contractTypes (filters (this Scenario.after_refresh))) (contractType o) ∧
       admits (departments (filters (this Scenario.after_refresh))) (department o)) ∧
  ¬ (jobFamilies (filters (this Scenario.after_refresh)) ≠ [] →
     ∀ o, o ∈ filtered Scenario.after_refresh →
       ∃ s, jobFamily o = Some s ∧ s ∈ jobFamilies (filters (this Scenario.after_refresh))).
Proof.
  assert (Hfs : jobFamilies (filters (this Scenario.after_refresh)) = ["Archiviste"])
    by (vm_compute; reflexivity).
  assert (Hf : filtered Scenario.after_refresh = [Scenario.offer1; Scenario.offer2])
    by (vm_compute; reflexivity).
  assert (Hno : ¬ admits (jobFamilies (filters (this Scenario.after_refresh)))
                    (jobFamily Scenario.offer2)).
  { rewrite Hfs. intros [H|(s & [= <-] & Hs)]; [discriminate|].
    apply list_elem_of_singleton in Hs. discriminate. }
  assert (Hin : Scenario.offer2 ∈ filtered Scenario.after_refresh).
  { rewrite Hf. apply elem_of_cons. right. apply elem_of_cons. by left. }
  split.
  { exact (reachable_step (opRefreshIfNeeded (Scenario.serving Scenario.refreshed_offers))
             Scenario.archivists archivists_reachable). }
  split.
  { eexists. split; [vm_compute; reflexivity|]. apply elem_of_dom. vm_compute. eauto. }
  split; [vm_compute; reflexivity|]. split; [vm_compute; reflexivity|].
  split; [exact Hfs|]. split; [exact Hf|]. split; [reflexivity|]. split; [exact Hno|].
  split.
  - intros H. apply Hno. by apply (H Scenario.offer2).
  - intros H. apply Hno. right. apply H; [|exact Hin]. rewrite Hfs. discriminate.
Qed.

End DataProcessorFacts.
(** ** Rounding to doubles *)

Module DoubleFacts.
Import Double.
Local Open Scope Z_scope.

Lemma pow2_pos (e : Z) : Qlt 0 (pow2 e).
Proof.
  unfold pow2. destruct (Z.leb_spec 0 e).
  - pose proof (Z.pow_pos_nonneg 2 e ltac:(lia) ltac:(lia)). unfold Qlt; simpl. lia.
  - apply Qinv_lt_0_compat.
    pose proof (Z.pow_pos_nonneg 2 (- e) ltac:(lia) ltac:(lia)). unfold Qlt; simpl. lia.
Qed.

(** [2^x * 2^k = 2^(x+k)] for a natural [k]. *)
Lemma pow2_shift (x k : Z) :
  0 ≤ k → Qeq (pow2 x * inject_Z (2 ^ k)) (pow2 (x + k)).
Proof.
  intros Hk. unfold pow2.
  assert (Hpos : ∀ n, 0 ≤ n → ¬ Qeq (inject_Z (2 ^ n)) 0).
  { intros n Hn E. unfold Qeq in E. simpl in E.
    pose proof (Z.pow_pos_nonneg 2 n ltac:(lia) Hn). lia. }
  destruct (Z.leb_spec 0 x) as [Hx|Hx]; destruct (Z.leb_spec 0 (x + k)) as [Hs|Hs]; try lia.
  - rewrite <- inject_Z_mult, <- Z.pow_add_r by lia. reflexivity.
  - assert (E : 2 ^ k = 2 ^ (x + k) * 2 ^ (- x)).
    { rewrite <- Z.pow_add_r by lia. f_equal. lia. }
    rewrite E, inject_Z_mult. field. apply Hpos. lia.
  - assert (E : 2 ^ (- x) = 2 ^ k * 2 ^ (- (x + k))).
    { rewrite <- Z.pow_add_r by lia. f_equal. lia. }
    rewrite E, inject_Z_mult. field. split; apply Hpos; lia.
Qed.

Lemma pow2_le_nonneg (a b : Z) : 0 ≤ a ≤ b → Qle (pow2 a) (pow2 b).
Proof.
  intros H. unfold pow2.
  rewrite !(proj2 (Z.leb_le _ _)) by lia.
  rewrite <- Zle_Qle. apply Z.pow_le_mono_r; lia.
Qed.

Lemma pow2_le_1 (e : Z) : e ≤ 0 → Qle (pow2 e) 1.
Proof.
  intros He.
  assert (E : Qeq (pow2 e * inject_Z (2 ^ (- e))) (pow2 0)).
  { rewrite pow2_shift by lia. by replace (e + - e) with 0 by lia. }
  change (pow2 0) with 1%Q in E.
  pose proof (pow2_pos e) as Hp.
  assert (Hk : Qle 1 (inject_Z (2 ^ (- e)))).
  { pose proof (Z.pow_pos_nonneg 2 (- e) ltac:(lia) ltac:(lia)).
    unfold Qle; simpl. lia. }
  set (k := inject_Z (2 ^ (- e))) in *. clearbody k.
  set (p := pow2 e) in *. clearbody p. nra.
Qed.

(** The exponent of a positive rational. *)
Lemma exponent_spec (q : Q) :
  Qlt 0 q → Qle (pow2 (exponent q)) q ∧ Qlt q (pow2 (exponent q + 1)).
Proof.
  intros Hq. destruct q as [n d]. 
  assert (Hn : 0 < n) by (unfold Qlt in Hq; simpl in Hq; lia).
  unfold exponent. cbn [Qnum Qden].
  set (ln := Z.log2 n). set (ld := Z.log2 (Z.pos d)).
  destruct (Z.log2_spec n Hn) as (Hn1 & Hn2). fold ln in Hn1, Hn2.
  destruct (Z.log2_spec (Z.pos d) ltac:(lia)) as (Hd1 & Hd2). fold ld in Hd1, Hd2.
  assert (Hln : 0 ≤ ln) by apply Z.log2_nonneg.
  assert (Hld : 0 ≤ ld) by apply Z.log2_nonneg.
  assert (Hq' : Qeq (n # d) (inject_Z n / inject_Z (Z.pos d))) by apply Qmake_Qdiv.
  assert (Hdpos : Qlt 0 (inject_Z (Z.pos d))) by (unfold Qlt; simpl; lia).
  (* bounds through the denominator *)
  assert (Hup : ∀ x, Qlt (inject_Z n) (pow2 x * inject_Z (Z.pos d)) → Qlt (n # d) (pow2 x)).
  { intros x H. rewrite Hq'. by apply Qlt_shift_div_r. }
  assert (Hlow : ∀ x, Qle (pow2 x * inject_Z (Z.pos d)) (inject_Z n) → Qle (pow2 x) (n # d)).
  { intros x H. rewrite Hq'. by apply Qle_shift_div_l. }
  destruct (Qle_bool (pow2 (ln - ld)) (n # d)) eqn:Htest.
  - apply Qle_bool_iff in Htest. split; [done|].
    apply Hup.
    apply Qlt_le_trans with (pow2 (ln - ld + 1) * inject_Z (2 ^ ld))%Q.
    + rewrite pow2_shift by lia. replace (ln - ld + 1 + ld) with (Z.succ ln) by lia.
      unfold pow2. rewrite (proj2 (Z.leb_le _ _)) by lia. by rewrite <- Zlt_Qlt.
    + apply Qmult_le_l; [apply pow2_pos|]. by rewrite <- Zle_Qle.
  - assert (Hlt : Qlt (n # d) (pow2 (ln - ld))).
    { apply Qnot_le_lt. intros H. apply Qle_bool_iff in H. congruence. }
    split; [|by replace (ln - ld - 1 + 1) with (ln - ld) by lia].
    apply Hlow.
    apply Qle_trans with (pow2 (ln - ld - 1) * inject_Z (2 ^ (Z.succ ld)))%Q.
    + apply Qmult_le_l; [apply pow2_pos|]. rewrite <- Zle_Qle. lia.
    + rewrite pow2_shift by lia. replace (ln - ld - 1 + Z.succ ld) with ln by lia.
      unfold pow2. rewrite (proj2 (Z.leb_le _ _)) by lia. by rewrite <- Zle_Qle.
Qed.

Lemma nearest_even_floor (x : Q) : Qfloor x ≤ nearest_even x ≤ Qfloor x + 1.
Proof.
  unfold nearest_even. destruct (Qcompare _ _); [destruct (Z.even _)| |]; lia.
Qed.

Lemma nearest_even_exact (x : Q) (k : Z) : Qeq x (inject_Z k) → nearest_even x = k.
Proof.
  intros E. unfold nearest_even.
  assert (Hf : Qfloor x = k) by (rewrite (Qfloor_comp _ _ E); apply Qfloor_Z).
  rewrite Hf.
  assert (Hlt : Qlt (x - inject_Z k) (1 # 2)) by (rewrite E; lra).
  apply Qlt_alt in Hlt. change (Qcompare (x - inject_Z k) (1 # 2) = Lt) in Hlt.
  by rewrite Hlt.
Qed.

Lemma nearest_even_le (x : Q) (N : Z) : Qle x (inject_Z N) → nearest_even x ≤ N.
Proof.
  intros Hx. pose proof (nearest_even_floor x) as (_ & Hn).
  assert (Hf : Qfloor x ≤ N).
  { rewrite <- (Qfloor_Z N). by apply Qfloor_resp_le. }
  destruct (decide (Qfloor x = N)) as [E|]; [|lia].
  rewrite (nearest_even_exact x N); [done|].
  apply Qle_antisym; [done|]. rewrite <- E. apply Qfloor_le.
Qed.

Lemma nearest_even_ge (x : Q) (M : Z) : Qle (inject_Z M) x → M ≤ nearest_even x.
Proof.
  intros Hx. pose proof (nearest_even_floor x) as (Hn & _).
  assert (Hf : M ≤ Qfloor x).
  { rewrite <- (Qfloor_Z M). by apply Qfloor_resp_le. }
  lia.
Qed.

Lemma inject_Z_pow_lt (a b : Z) : 0 ≤ a < b → Qlt (inject_Z (2 ^ a)) (inject_Z (2 ^ b)).
Proof. intros H. rewrite <- Zlt_Qlt. apply Z.pow_lt_mono_r; lia. Qed.

(** Rounding a positive rational that lies between two integers below
    2^53 keeps it between them. *)
Lemma round_positive_between (a : Q) (L H : Z) :
  Qlt 0 a → Qle (inject_Z L) a → Qle a (inject_Z H) → H ≤ 2 ^ 53 →
  let quantum := pow2 (Z.max (exponent a - 52) (-1074)) in
  let r := (inject_Z (nearest_even (a / quantum)) * quantum)%Q in
  Qle (inject_Z L) r ∧ Qle r (inject_Z H).
Proof.
  intros Ha HL HH H53.
  destruct (exponent_spec a Ha) as (He1 & He2).
  set (e := exponent a) in *.
  assert (He : e ≤ 53).
  { destruct (decide (e ≤ 53)) as [|Hgt]; [done|]. exfalso.
    assert (H1 : Qle (pow2 54) (pow2 e)) by (apply pow2_le_nonneg; lia).
    assert (H2 : Qle (inject_Z H) (inject_Z (2 ^ 53))) by (by rewrite <- Zle_Qle).
    assert (H3 : Qlt (inject_Z (2 ^ 53)) (pow2 54)) by (apply (inject_Z_pow_lt 53 54); lia).
    lra. }
  cbv zeta. set (t := Z.max (e - 52) (-1074)).
  pose proof (pow2_pos t) as Hq.
  destruct (decide (t ≤ 0)) as [Ht|Ht].
  - set (K := 2 ^ (- t)).
    assert (HK : 0 < K) by (apply Z.pow_pos_nonneg; lia).
    assert (EK : Qeq (pow2 t * inject_Z K) 1).
    { unfold K. rewrite pow2_shift by lia. by replace (t + - t) with 0 by lia. }
    assert (HKq : Qlt 0 (inject_Z K)) by (unfold Qlt; simpl; lia).
    assert (Ex : Qeq (a / pow2 t) (a * inject_Z K)).
    { apply Qmult_inj_r with (pow2 t); [lra|].
      rewrite Qmult_comm, Qmult_div_r by lra.
      rewrite <- Qmult_assoc, (Qmult_comm (inject_Z K)), EK. ring. }
    assert (Hn1 : nearest_even (a / pow2 t) ≤ H * K).
    { apply nearest_even_le. rewrite Ex, inject_Z_mult. by apply Qmult_le_compat_r; [|lra]. }
    assert (Hn2 : L * K ≤ nearest_even (a / pow2 t)).
    { apply nearest_even_ge. rewrite Ex, inject_Z_mult. by apply Qmult_le_compat_r; [|lra]. }
    rewrite Zle_Qle, inject_Z_mult in Hn1, Hn2.
    set (n := inject_Z (nearest_even (a / pow2 t))) in *. clearbody n.
    set (k := inject_Z K) in *. clearbody k.
    set (p := pow2 t) in *. clearbody p.
    set (l := inject_Z L) in *. set (h := inject_Z H) in *. clearbody l h.
    assert (E1 : Qeq l (l * k * p)) by (rewrite <- Qmult_assoc, (Qmult_comm k), EK; ring).
    assert (E2 : Qeq h (h * k * p)) by (rewrite <- Qmult_assoc, (Qmult_comm k), EK; ring).
    split.
    + rewrite E1. apply Qmult_le_compat_r; lra.
    + rewrite E2. apply Qmult_le_compat_r; lra.
  - assert (e = 53) as E53 by lia.
    assert (t = 1) as -> by lia.
    rewrite E53 in He1.
    assert (Ea : Qeq a (inject_Z (2 ^ 53))).
    { apply Qle_antisym; [|done].
      apply Qle_trans with (inject_Z H); [done|]. by rewrite <- Zle_Qle. }
    assert (Ex : Qeq (a / pow2 1) (inject_Z (2 ^ 52))).
    { rewrite Ea. reflexivity. }
    rewrite (nearest_even_exact _ _ Ex).
    assert (Er : Qeq (inject_Z (2 ^ 52) * pow2 1) a) by (rewrite Ea; reflexivity).
    rewrite Er. done.
Qed.

Lemma round_between (q : Q) (lo hi : Z) :
  - 2 ^ 53 ≤ lo → hi ≤ 2 ^ 53 →
  Qle (inject_Z lo) q → Qle q (inject_Z hi) →
  ∃ r, round q = Some r ∧ Qle (inject_Z lo) r ∧ Qle r (inject_Z hi).
Proof.
  intros Hlo Hhi H1 H2. unfold round.
  destruct (Qeq_bool q 0) eqn:Hz.
  { apply Qeq_bool_iff in Hz. exists 0%Q. split; [done|]. rewrite Hz in H1, H2. done. }
  assert (Hne : ¬ Qeq q 0) by (by apply Qeq_bool_neq).
  cbv zeta.
  assert (Hbig : Qlt (inject_Z (2 ^ 53)) (pow2 1024)).
  { change (pow2 1024) with (inject_Z (2 ^ 1024)). apply inject_Z_pow_lt. lia. }
  assert (Hover : ∀ r (H : Z), H ≤ 2 ^ 53 → Qle r (inject_Z H) →
            Qle_bool (pow2 1024) r = false).
  { intros r H HH Hr. destruct (Qle_bool (pow2 1024) r) eqn:E; [|done].
    apply Qle_bool_iff in E.
    assert (Qle (inject_Z H) (inject_Z (2 ^ 53))) by (by rewrite <- Zle_Qle).
    lra. }
  destruct (Qle_bool 0 q) eqn:Hs.
  - apply Qle_bool_iff in Hs.
    assert (Hpos : Qlt 0 q).
    { apply Qle_lteq in Hs as [|E]; [done|]. exfalso. apply Hne. by symmetry. }
    assert (Ea : Qeq (Qabs q) q) by (by apply Qabs_pos).
    destruct (round_positive_between (Qabs q) (Z.max lo 0) hi) as (Hr1 & Hr2);
      [by rewrite Ea| |by rewrite Ea|done|].
    { rewrite Ea. destruct (Z.max_spec lo 0) as [(_ & ->)|(_ & ->)]; [|done].
      change (inject_Z 0) with 0%Q. lra. }
    rewrite (Hover _ hi Hhi Hr2).
    eexists. split; [reflexivity|]. rewrite Qred_correct.
    split; [|done].
    apply Qle_trans with (inject_Z (Z.max lo 0)); [|done].
    rewrite <- Zle_Qle. lia.
  - assert (Hneg : Qlt q 0).
    { apply Qnot_le_lt. intros H. apply Qle_bool_iff in H. congruence. }
    assert (Ea : Qeq (Qabs q) (- q)) by (apply Qabs_neg; lra).
    assert (Eo : ∀ z, inject_Z (- z) = (- inject_Z z)%Q) by (intros z; apply inject_Z_opp).
    destruct (round_positive_between (Qabs q) (Z.max (- hi) 0) (- lo)) as (Hr1 & Hr2);
      [rewrite Ea; lra| |rewrite Ea, Eo; lra|lia|].
    { rewrite Ea. destruct (Z.max_spec (- hi) 0) as [(_ & ->)|(_ & ->)].
      - change (inject_Z 0) with 0%Q. lra.
      - rewrite Eo. lra. }
    rewrite (Hover _ (- lo) ltac:(lia) Hr2).
    eexists. split; [reflexivity|]. rewrite Qred_correct.
    rewrite Eo in Hr2.
    split; [lra|].
    assert (Qle (inject_Z (- hi)) (inject_Z (Z.max (- hi) 0))) by (rewrite <- Zle_Qle; lia).
    rewrite Eo in *. lra.
Qed.

Lemma rounded_between (q : Q) (lo hi : Z) :
  - 2 ^ 53 ≤ lo → hi ≤ 2 ^ 53 →
  Qle (inject_Z lo) q → Qle q (inject_Z hi) →
  ∃ r, rounded q = Finite r ∧ Qle (inject_Z lo) r ∧ Qle r (inject_Z hi).
Proof.
  intros Hlo Hhi H1 H2.
  destruct (round_between q lo hi Hlo Hhi H1 H2) as (r & Hr & Hb).
  exists r. unfold rounded. by rewrite Hr.
Qed.

(** An integer up to 2^53 in magnitude is a double. *)
Lemma rounded_integer (q : Q) (n : Z) :
  Qeq q (inject_Z n) → Qle (Qabs q) (inject_Z (2 ^ 53)) →
  ∃ r, rounded q = Finite r ∧ Qeq r q.
Proof.
  intros E Hb.
  assert (Hn : - 2 ^ 53 ≤ n ≤ 2 ^ 53).
  { apply Qabs_Qle_condition in Hb as (Hb1 & Hb2). rewrite E in Hb1, Hb2.
    rewrite <- inject_Z_opp in Hb1. rewrite <- Zle_Qle in Hb1, Hb2. lia. }
  destruct (rounded_between q n n) as (r & Hr & H1 & H2); [lia|lia|rewrite E; apply Qle_refl..|].
  exists r. split; [done|]. rewrite E. by apply Qle_antisym.
Qed.

End DoubleFacts.

(** ** Sorting, salary statistics and getStats *)

Module StatsFacts.
Import DataProcessor Double Stats StatsSpec.

Lemma sort_insert_length {A : Type} (cmp : A → A → Q) (x : A) (l : list A) :
  length (sort_insert cmp x l) = S (length l).
Proof.
  induction l as [|y l IH]; simpl; [done|].
  destruct (Qle_bool _ _); simpl; [done|]. by rewrite IH.
Qed.

Lemma Array_sort_length {A : Type} (cmp : A → A → Q) (l : list A) :
  length (Array_sort cmp l) = length l.
Proof.
  induction l as [|x l IH]; simpl; [done|].
  by rewrite sort_insert_length, IH.
Qed.

(** *** Arithmetic never invents a NaN *)

Lemma rounded_not_NaN (q : Q) : rounded q ≠ NaN.
Proof. unfold rounded. by destruct (round q). Qed.

Lemma plus_not_NaN (a : Number) (b : Q) : a ≠ NaN → plus a (Finite b) ≠ NaN.
Proof. destruct a; simpl; [intros _; apply rounded_not_NaN|done|done]. Qed.

Lemma sum_not_NaN (l : list Q) (a : Number) :
  a ≠ NaN → foldl (λ a b, plus a (Finite b)) a l ≠ NaN.
Proof.
  revert a. induction l as [|x l IH]; intros a Ha; simpl; [done|].
  apply IH. by apply plus_not_NaN.
Qed.

Lemma divided_not_NaN (a : Number) (b : Q) :
  a ≠ NaN → Qeq_bool b 0 = false → divided a b ≠ NaN.
Proof.
  intros Ha Hb. destruct a; simpl; [|done|done].
  rewrite Hb. apply rounded_not_NaN.
Qed.

Lemma length_nonzero (n : nat) : (0 < n)%nat → Qeq_bool (inject_Z (Z.of_nat n)) 0 = false.
Proof. intros Hn. unfold Qeq_bool; simpl. apply Z.eqb_neq. lia. Qed.

Lemma calculateStats_None (salaries : list (option Q)) :
  SalaryUtils.calculateStats salaries = None ↔ omap id salaries = [].
Proof.
  unfold SalaryUtils.calculateStats. case_bool_decide as Hlen.
  - split; [|done]. intros _. by apply nil_length_inv.
  - split; [done|]. intros E. rewrite E in Hlen. done.
Qed.

Lemma summary_no_NaN (sorted : list Q) :
  (0 < length sorted)%nat → no_NaN (SalaryUtils.summary sorted).
Proof.
  intros Hpos.
  assert (Hin : ∀ i, (i < length sorted)%nat → is_Some (sorted !! i)).
  { intros i Hi. by apply lookup_lt_is_Some. }
  unfold no_NaN, SalaryUtils.summary.
  cbn [SalaryUtils.min SalaryUtils.max SalaryUtils.median SalaryUtils.q1
       SalaryUtils.q3 SalaryUtils.mean].
  split; [apply Hin; lia|]. split; [apply Hin; lia|].
  split; [apply Hin; apply Nat.div_lt; lia|].
  split; [apply Hin; apply Nat.Div0.div_lt_upper_bound; lia|].
  split.
  - case_bool_decide as Heven.
    + destruct (Hin (length sorted / 2 - 1)%nat) as [a Ha].
      { pose proof (Nat.Div0.div_le_upper_bound (length sorted) 2 (length sorted)). lia. }
      destruct (Hin (length sorted / 2)%nat) as [b Hb].
      { apply Nat.div_lt; lia. }
      rewrite Ha, Hb. eexists. split; [reflexivity|].
      apply divided_not_NaN; [|reflexivity]. by apply plus_not_NaN.
    + destruct (Hin (length sorted / 2)%nat) as [b Hb].
      { apply Nat.div_lt; lia. }
      rewrite Hb. by eexists.
  - apply divided_not_NaN; [by apply sum_not_NaN|by apply length_nonzero].
Qed.

Lemma calculateStats_no_NaN (salaries : list (option Q)) (s : SalaryUtils.Stats) :
  SalaryUtils.calculateStats salaries = Some s →
  no_NaN s ∧ SalaryUtils.count s = length (omap id salaries) ∧
  (0 < SalaryUtils.count s)%nat.
Proof.
  unfold SalaryUtils.calculateStats. case_bool_decide as Hlen; [done|].
  intros Heq.
  assert (Hs : s = SalaryUtils.summary (Array_sort (λ a b, Qminus a b) (omap id salaries)))
    by congruence.
  subst s. clear Heq.
  assert (Hl : length (Array_sort (λ a b, Qminus a b) (omap id salaries))
               = length (omap id salaries)) by apply Array_sort_length.
  split; [apply summary_no_NaN; lia|].
  unfold SalaryUtils.summary; cbn [SalaryUtils.count]. lia.
Qed.

(** *** The counting loop on keys that are not inherited *)

Lemma get_plain (m : gmap string Tally) (k : string) :
  k ∉ Object_prototype →
  get m k = match m !! k with Some g => Own g | None => Falsy end.
Proof.
  intros Hk. unfold get. destruct (m !! k); [done|].
  by rewrite bool_decide_eq_false_2.
Qed.

Lemma count_offer_file (key : Offer → string) (name : string → Exception + option string)
    (nm : string → option string) (m : gmap string Tally) (o : Offer) (polluted : bool) :
  key o ∉ Object_prototype → name (key o) = inr (nm (key o)) →
  count_offer key name m o polluted = (inr (file key nm m o), polluted).
Proof.
  intros Hk Hname. unfold count_offer, file, counted, usable_salary, bind, ret.
  rewrite (get_plain m _ Hk), Hname.
  destruct (m !! key o) as [g|] eqn:Hg; simpl.
  - rewrite (get_plain m _ Hk), Hg. simpl.
    destruct (salaryGrossAnnual o) as [s|]; [destruct (Qeq_bool s 0)|];
      rewrite ?(get_plain _ _ Hk), ?lookup_insert_eq; simpl;
      rewrite ?insert_insert_eq, ?app_nil_r; done.
  - rewrite (get_plain _ _ Hk), lookup_insert_eq. simpl.
    destruct (salaryGrossAnnual o) as [s|]; [destruct (Qeq_bool s 0)|];
      rewrite ?(get_plain _ _ Hk), ?lookup_insert_eq; simpl;
      rewrite ?insert_insert_eq, ?app_nil_r; done.
Qed.

Lemma forEach_file (key : Offer → string) (name : string → Exception + option string)
    (nm : string → option string) (offers : list Offer) (m : gmap string Tally)
    (polluted : bool) :
  (∀ o, o ∈ offers → key o ∉ Object_prototype) →
  (∀ k, k ∉ Object_prototype → name k = inr (nm k)) →
  forEach (count_offer key name) offers m polluted
  = (inr (foldl (file key nm) m offers), polluted).
Proof.
  intros Hkeys Hname. revert m.
  induction offers as [|o offers IH]; intros m; simpl; [done|].
  unfold bind. rewrite (count_offer_file key name nm); [|apply Hkeys; by left|].
  - apply IH. intros o' Ho'. apply Hkeys. by right.
  - apply Hname, Hkeys. by left.
Qed.

Lemma group_by_grouped (key : Offer → string) (name : string → Exception + option string)
    (nm : string → option string) (offers : list Offer) :
  (∀ o, o ∈ offers → key o ∉ Object_prototype) →
  (∀ k, k ∉ Object_prototype → name k = inr (nm k)) →
  group_by key name offers false = (inr (grouped key nm offers), false).
Proof.
  intros Hkeys Hname. unfold group_by, bind.
  by rewrite (forEach_file key name nm offers ∅ false Hkeys Hname).
Qed.

Lemma tally_sum_insert (m : gmap string Tally) (k : string) (g : Tally) :
  tally_sum (<[k := g]> m) = (tally_count g + tally_sum (delete k m))%nat.
Proof.
  rewrite <- insert_delete_eq. unfold tally_sum.
  rewrite map_fold_insert_L; [done| |apply lookup_delete_eq].
  intros. lia.
Qed.

Lemma tally_sum_lookup (m : gmap string Tally) (k : string) :
  tally_sum m =
  (tally_count (default (mkTally None 0 []) (m !! k)) + tally_sum (delete k m))%nat.
Proof.
  destruct (m !! k) as [g|] eqn:Hk; simpl.
  - rewrite <- (insert_delete_id m k g) at 1 by done.
    rewrite tally_sum_insert. by rewrite delete_delete_eq.
  - by rewrite delete_id.
Qed.

Lemma tally_sum_file (key : Offer → string) (name : string → option string)
    (m : gmap string Tally) (o : Offer) :
  tally_sum (file key name m o) = S (tally_sum m).
Proof.
  unfold file. rewrite tally_sum_insert.
  rewrite (tally_sum_lookup m (key o)).
  unfold counted. destruct (m !! key o); done.
Qed.

Lemma tally_sum_foldl (key : Offer → string) (name : string → option string)
    (offers : list Offer) (m : gmap string Tally) :
  tally_sum (foldl (file key name) m offers) = (tally_sum m + length offers)%nat.
Proof.
  revert m. induction offers as [|o offers IH]; intros m; simpl; [lia|].
  rewrite IH, tally_sum_file. lia.
Qed.

Lemma sum_counts_grouped (key : Offer → string) (name : string → option string)
    (offers : list Offer) :
  sum_counts (grouped key name offers) = length offers.
Proof.
  unfold sum_counts, grouped. rewrite map_fold_fmap.
  change (tally_sum (foldl (file key name) ∅ offers) = length offers).
  rewrite tally_sum_foldl. unfold tally_sum. by rewrite map_fold_empty.
Qed.

(** The group stored under [k] once the offers are counted. *)
Lemma foldl_file_lookup (key : Offer → string) (name : string → option string)
    (offers : list Offer) (m : gmap string Tally) (k : string) :
  foldl (file key name) m offers !! k =
  match m !! k, offers_of key k offers with
  | None, [] => None
  | old, group =>
      let g := default (mkTally (name k) 0 []) old in
      Some (mkTally (tally_name g) (tally_count g + length group)
                    (salaries g ++ omap usable_salary group))
  end.
Proof.
  revert m. induction offers as [|o offers IH]; intros m; simpl.
  - unfold offers_of; simpl. destruct (m !! k) as [[n c l]|]; simpl; [|done].
    by rewrite Nat.add_0_r, app_nil_r.
  - rewrite IH. unfold file at 1. unfold offers_of.
    destruct (decide (key o = k)) as [<-|Hne].
    + rewrite lookup_insert_eq, filter_cons_True by done.
      fold (offers_of key (key o) offers).
      unfold counted. simpl.
      destruct (offers_of key (key o) offers) as [|o' l'] eqn:Hl; simpl;
        destruct (m !! key o) as [[n c l]|]; simpl;
        rewrite ?app_nil_r, ?Nat.add_0_r, <- ?app_assoc; simpl;
        try (destruct (usable_salary o); simpl);
        repeat f_equal; lia.
    + rewrite lookup_insert_ne, filter_cons_False by done. done.
Qed.

Lemma grouped_lookup (key : Offer → string) (name : string → option string)
    (offers : list Offer) (k : string) (g : Group) :
  grouped key name offers !! k = Some g →
  offers_of key k offers ≠ [] ∧
  count g = length (offers_of key k offers) ∧
  salaryStats g =
    SalaryUtils.calculateStats (Some <$> omap usable_salary (offers_of key k offers)).
Proof.
  unfold grouped. rewrite lookup_fmap, foldl_file_lookup, lookup_empty.
  destruct (offers_of key k offers) as [|o l]; simpl; [done|].
  intros [= <-]. simpl. done.
Qed.

Lemma omap_id_fmap_Some {A : Type} (l : list A) : omap id (Some <$> l) = l.
Proof. induction l as [|x l IH]; [done|]. csimpl. by rewrite IH. Qed.

Lemma no_usable_salary (key : Offer → string) (k : string) (offers : list Offer) :
  omap usable_salary (offers_of key k offers) = [] ↔
  ∀ o, o ∈ offers → key o = k → truthy_num (salaryGrossAnnual o) = false.
Proof.
  unfold offers_of. induction offers as [|o offers IH]; simpl.
  - split; [|done]. intros _ o Ho. by apply elem_of_nil in Ho.
  - destruct (decide (key o = k)) as [Hk|Hk].
    + rewrite filter_cons_True by done. simpl.
      unfold usable_salary at 1.
      destruct (salaryGrossAnnual o) as [s|] eqn:Hs.
      * destruct (truthy_num (Some s)) eqn:Ht; simpl.
        -- split; [done|]. intros H. specialize (H o ltac:(left) Hk).
           rewrite Hs in H. congruence.
        -- rewrite IH. split.
           ++ intros H o' [->|Ho']%elem_of_cons Hk'; [by rewrite Hs|by apply H].
           ++ intros H o' Ho' Hk'. apply H; [by right|done].
      * simpl. rewrite IH. split.
        -- intros H o' [->|Ho']%elem_of_cons Hk'; [by rewrite Hs|by apply H].
        -- intros H o' Ho' Hk'. apply H; [by right|done].
    + rewrite filter_cons_False by done. rewrite IH. split.
      * intros H o' [->|Ho']%elem_of_cons Hk'; [done|by apply H].
      * intros H o' Ho' Hk'. apply H; [by right|done].
Qed.

(** getStats on a dataset and a filtered view none of whose keys is
    inherited, on a prototype without enumerable property. *)
Lemma getStats_returns (w : World) (d : Dataset.t) (r : loc) :
  data (this w) = Some d → filteredOffers (this w) = Some r →
  plain_keys (filtered w) →
  getStats w false = (inr (mkDerivedStats
    (length (filtered w))
    (length (filter (λ o, is_Some (salaryGrossAnnual o)) (filtered w)))
    (grouped jobFamily_key (name_of d JobFamily) (filtered w))
    (grouped contractType_key (name_of d ContractType) (filtered w))
    (grouped department_key (name_of d Department) (filtered w))
    (grouped sector_key (name_of d Sector) (filtered w))), false).
Proof.
  intros Hd Hr Hkeys. unfold getStats, filtered in *. rewrite Hr in *. rewrite Hd.
  unfold bind.
  rewrite (group_by_grouped jobFamily_key no_name (name_of d JobFamily));
    [|intros o Ho; apply (Hkeys o JobFamily Ho)|done].
  rewrite (group_by_grouped contractType_key no_name (name_of d ContractType));
    [|intros o Ho; apply (Hkeys o ContractType Ho)|done].
  rewrite (group_by_grouped department_key _ (name_of d Department));
    [|intros o Ho; apply (Hkeys o Department Ho)|done].
  rewrite (group_by_grouped sector_key no_name (name_of d Sector));
    [|intros o Ho; apply (Hkeys o Sector Ho)|done].
  done.
Qed.

Lemma getStats_groups_grouped (w : World) (d : Dataset.t) (r : loc) :
  data (this w) = Some d → filteredOffers (this w) = Some r →
  plain_keys (filtered w) →
  ∃ st, getStats w false = (inr st, false) ∧
    total st = length (filtered w) ∧
    ∀ dim, groups dim st = grouped (key_of dim) (name_of d dim) (filtered w).
Proof.
  intros Hd Hr Hkeys. eexists. split; [by apply (getStats_returns w d r)|].
  split; [done|]. by intros [].
Qed.

(** C6 (amended): for every state with a dataset and a filtered view
    in which no offer is grouped under the name of a property of
    Object.prototype (the job family, the contract type or
    "Non précisé", the department or "Inconnu", the sector or
    "Non précisé" of an offer is none of constructor, toString,
    __proto__, ...), and on an Object.prototype without enumerable
    property, getStats() returns, and in each of byJobFamily,
    byContractType, byDepartment and bySector the [count] fields of
    the groups add up to filteredOffers.length (which is also
    [total]). *)
Theorem getStats_counts_sum (w : World) (d : Dataset.t) (r : loc) :
  data (this w) = Some d → filteredOffers (this w) = Some r →
  plain_keys (filtered w) →
  ∃ st, getStats w false = (inr st, false) ∧
    total st = length (filtered w) ∧
    ∀ dim, sum_counts (groups dim st) = length (filtered w).
Proof.
  intros Hd Hr Hkeys.
  destruct (getStats_groups_grouped w d r Hd Hr Hkeys) as (st & Hst & Ht & Hg).
  exists st. split; [done|]. split; [done|].
  intros dim. rewrite Hg. apply sum_counts_grouped.
Qed.

Lemma with_salaries_plain : plain_keys (filtered Scenario.with_salaries).
Proof.
  intros o dim Ho. revert o Ho. apply Forall_forall.
  destruct dim; apply (bool_decide_unpack _); vm_compute; reflexivity.
Qed.

Lemma getStats_counts_sum_witness :
  ∃ st, getStats Scenario.with_salaries false = (inr st, false) ∧
    total st = length (filtered Scenario.with_salaries) ∧
    ∀ dim, sum_counts (groups dim st) = length (filtered Scenario.with_salaries).
Proof.
  eapply getStats_counts_sum;
    [vm_compute; reflexivity|vm_compute; reflexivity|exact with_salaries_plain].
Defined.

(** C6 as stated fails: of two filtered offers, one of the job family
    "constructor", getStats() counts one only in byJobFamily, where
    [byJobFamily["constructor"]] is the function inherited from
    Object.prototype and no group is created. *)
Lemma getStats_counts_inherited_key :
  (∃ st, getStats Scenario.with_constructor false = (inr st, false) ∧
     total st = 2%nat ∧ length (filtered Scenario.with_constructor) = 2%nat ∧
     groups JobFamily st !! "constructor" = None ∧
     sum_counts (groups JobFamily st) = 1%nat) ∧
  ¬ (∀ (w : World) (d : Dataset.t) (r : loc),
       data (this w) = Some d → filteredOffers (this w) = Some r →
       ∃ st polluted, getStats w false = (inr st, polluted) ∧
         ∀ dim, sum_counts (groups dim st) = length (filtered w)).
Proof.
  assert (Hrun : ∃ st, getStats Scenario.with_constructor false = (inr st, false) ∧
     total st = 2%nat ∧ length (filtered Scenario.with_constructor) = 2%nat ∧
     groups JobFamily st !! "constructor" = None ∧
     sum_counts (groups JobFamily st) = 1%nat).
  { eexists. split; [vm_compute; reflexivity|].
    split; [reflexivity|]. split; [vm_compute; reflexivity|].
    split; vm_compute; reflexivity. }
  split; [exact Hrun|]. intros H.
  destruct Hrun as (st & Hst & _ & Hlen & _ & Hsum).
  edestruct (H Scenario.with_constructor) as (st' & polluted & Hst' & Hsum');
    [vm_compute; reflexivity|vm_compute; reflexivity|].
  rewrite Hst in Hst'. injection Hst' as <- _.
  specialize (Hsum' JobFamily). rewrite Hsum, Hlen in Hsum'. discriminate.
Qed.

(** C7 (amended): for every state with a dataset and a filtered view
    in which no offer is grouped under the name of a property of
    Object.prototype, and on an Object.prototype without enumerable
    property, getStats() returns, an empty view included (it then has
    no group); a group has salaryStats = null exactly when none of its
    offers has a usable (non-null, non-zero) salaryGrossAnnual; a
    salaryStats that is present is computed over at least one salary
    and none of its fields is undefined or NaN (the divisor of the
    mean is not zero; the salaries are finite numbers); and
    calculateStats answers null to an array without a valid number. *)
Theorem getStats_salaryStats_null_or_number (w : World) (d : Dataset.t) (r : loc) :
  data (this w) = Some d → filteredOffers (this w) = Some r →
  plain_keys (filtered w) →
  ∃ st, getStats w false = (inr st, false) ∧
    (∀ dim k g, groups dim st !! k = Some g →
       (salaryStats g = None ↔
        ∀ o, o ∈ filtered w → key_of dim o = k → truthy_num (salaryGrossAnnual o) = false)) ∧
    (∀ dim k g s, groups dim st !! k = Some g → salaryStats g = Some s →
       no_NaN s ∧ (0 < SalaryUtils.count s)%nat) ∧
    (filtered w = [] → ∀ dim, groups dim st = ∅) ∧
    (∀ salaries, omap id salaries = [] → SalaryUtils.calculateStats salaries = None) ∧
    (∀ salaries s, SalaryUtils.calculateStats salaries = Some s → no_NaN s).
Proof.
  intros Hd Hr Hkeys.
  destruct (getStats_groups_grouped w d r Hd Hr Hkeys) as (st & Hst & _ & Hg).
  exists st. split; [done|].
  split; [|split; [|split; [|split]]].
  - intros dim k g Hk. rewrite Hg in Hk.
    apply grouped_lookup in Hk as (_ & _ & ->).
    rewrite calculateStats_None, omap_id_fmap_Some. apply no_usable_salary.
  - intros dim k g s Hk Hs. rewrite Hg in Hk.
    apply grouped_lookup in Hk as (_ & _ & Hstats). rewrite Hstats in Hs.
    apply calculateStats_no_NaN in Hs. tauto.
  - intros He dim. rewrite Hg, He. unfold grouped; simpl. apply fmap_empty.
  - intros salaries. apply calculateStats_None.
  - intros salaries s Hs. apply calculateStats_no_NaN in Hs as (Hs & _). exact Hs.
Qed.

Lemma getStats_salaryStats_null_or_number_witness :
  ∃ st, getStats Scenario.with_salaries false = (inr st, false) ∧
    (∀ dim k g s, groups dim st !! k = Some g → salaryStats g = Some s →
       no_NaN s ∧ (0 < SalaryUtils.count s)%nat).
Proof.
  edestruct (getStats_salaryStats_null_or_number Scenario.with_salaries)
    as (st & Hst & _ & Hfin & _).
  - vm_compute; reflexivity.
  - vm_compute; reflexivity.
  - exact with_salaries_plain.
  - exists st. split; [exact Hst | exact Hfin].
Defined.

(** C7 as stated fails: with an unpaid "Archiviste" and a paid offer of
    the job family "constructor" in the view, getStats() throws a
    TypeError ([byJobFamily["constructor"].salaries] is undefined), so
    that the group "Archiviste", none of whose offers has a salary,
    gets no salaryStats at all.  It also throws when an unpaid offer
    is counted under "__proto__": [count++] then creates the
    enumerable property [Object.prototype.count], which the
    [for ... in] loop visits; and from then on it throws on a view in
    which every key is an ordinary one. *)
Lemma getStats_throws_on_inherited_key :
  (filtered Scenario.with_paid_constructor
     = [Scenario.offer1; Scenario.paid "5" "constructor" (inject_Z 30000)] ∧
   (∀ o, o ∈ filtered Scenario.with_paid_constructor →
      key_of JobFamily o = "Archiviste" → truthy_num (salaryGrossAnnual o) = false) ∧
   getStats Scenario.with_paid_constructor false = (inl TypeError, false)) ∧
  (filtered Scenario.with_proto = [Scenario.offer1; Scenario.offer "6" "__proto__" "75"] ∧
   getStats Scenario.with_proto false = (inl TypeError, true) ∧
   plain_keys (filtered Scenario.with_salaries) ∧
   getStats Scenario.with_salaries true = (inl TypeError, true)) ∧
  ¬ (∀ (w : World) (d : Dataset.t) (r : loc),
       data (this w) = Some d → filteredOffers (this w) = Some r →
       ∃ st polluted, getStats w false = (inr st, polluted)).
Proof.
  assert (E : filtered Scenario.with_paid_constructor
              = [Scenario.offer1; Scenario.paid "5" "constructor" (inject_Z 30000)])
    by (vm_compute; reflexivity).
  assert (Hthrows : getStats Scenario.with_paid_constructor false = (inl TypeError, false))
    by (vm_compute; reflexivity).
  split; [|split].
  - split; [exact E|]. split; [|exact Hthrows].
    rewrite E. intros o [->|[->|?%elem_of_nil]%elem_of_cons]%elem_of_cons; done.
  - split; [vm_compute; reflexivity|]. split; [vm_compute; reflexivity|].
    split; [exact with_salaries_plain|vm_compute; reflexivity].
  - intros H.
    edestruct (H Scenario.with_paid_constructor) as (st & polluted & Hst);
      [vm_compute; reflexivity|vm_compute; reflexivity|].
    rewrite Hthrows in Hst. discriminate.
Qed.

End StatsFacts.

(** ** Strings of the platform *)

Module JSStringFacts.
Import JSString.

Lemma code_lt (c : ascii) : (code c < 256)%N.
Proof. apply Ascii.N_ascii_bounded. Qed.

Lemma code_char (n : N) : (n < 256)%N → code (char n) = n.
Proof. apply Ascii.N_ascii_embedding. Qed.

Lemma char_code (c : ascii) : char (code c) = c.
Proof. apply Ascii.ascii_N_embedding. Qed.

Lemma in_range_true (lo hi : N) (c : ascii) :
  in_range lo hi c = true ↔ (lo ≤ code c ∧ code c ≤ hi)%N.
Proof. unfold in_range. rewrite andb_true_iff, !N.leb_le. done. Qed.

Lemma in_range_false (lo hi : N) (c : ascii) :
  in_range lo hi c = false ↔ (code c < lo ∨ hi < code c)%N.
Proof. unfold in_range. rewrite andb_false_iff, !N.leb_gt. done. Qed.

Lemma byte_true (n : N) (c : ascii) : byte n c = true ↔ code c = n.
Proof. unfold byte. apply N.eqb_eq. Qed.

Lemma byte_false (n : N) (c : ascii) : byte n c = false ↔ code c ≠ n.
Proof. unfold byte. apply N.eqb_neq. Qed.

(** Turns the tests on characters into arithmetic on their codes. *)
Ltac codes :=
  unfold uriUnescaped, URLSearchParams.keeps, continuation, second_of_3, second_of_4,
         space1, space2, space3 in *;
  repeat match goal with
  | H : context [if byte ?n ?c then _ else _] |- _ => destruct (byte n c) eqn:?
  | |- context [if byte ?n ?c then _ else _] => destruct (byte n c) eqn:?
  end;
  rewrite ?andb_true_iff, ?orb_true_iff, ?andb_false_iff, ?orb_false_iff,
          ?negb_true_iff, ?negb_false_iff,
          ?in_range_true, ?in_range_false, ?byte_true, ?byte_false in *;
  try lia.

Lemma hex_digit_code (n : N) :
  (n < 16)%N → code (hex_digit n) = (if N.ltb n 10 then 48 + n else 55 + n)%N.
Proof. intros Hn. unfold hex_digit. apply code_char. destruct (N.ltb_spec n 10); lia. Qed.

Lemma hex_value_digit (n : N) : (n < 16)%N → hex_value (hex_digit n) = Some n.
Proof.
  intros Hn. unfold hex_value, in_range. rewrite (hex_digit_code n Hn).
  destruct (N.ltb_spec n 10).
  - replace (48 <=? 48 + n)%N with true by (symmetry; apply N.leb_le; lia).
    replace (48 + n <=? 57)%N with true by (symmetry; apply N.leb_le; lia).
    simpl. f_equal. lia.
  - replace (55 + n <=? 57)%N with false by (symmetry; apply N.leb_gt; lia).
    rewrite andb_false_r.
    replace (65 <=? 55 + n)%N with true by (symmetry; apply N.leb_le; lia).
    replace (55 + n <=? 70)%N with true by (symmetry; apply N.leb_le; lia).
    simpl. f_equal. lia.
Qed.

Lemma nibbles (c : ascii) :
  (code c / 16 < 16)%N ∧ (code c mod 16 < 16)%N ∧
  char (16 * (code c / 16) + code c mod 16) = c.
Proof.
  pose proof (code_lt c) as Hc.
  split; [apply N.Div0.div_lt_upper_bound; lia|].
  split; [apply N.mod_lt; lia|].
  rewrite <- N.div_mod by lia. apply char_code.
Qed.

(** A hexadecimal digit is a letter or a digit. *)
Lemma hex_digit_alnum (n : N) :
  (n < 16)%N →
  in_range 48 57 (hex_digit n) = true ∨ in_range 65 90 (hex_digit n) = true.
Proof.
  intros Hn. rewrite !in_range_true, (hex_digit_code n Hn).
  destruct (N.ltb_spec n 10); lia.
Qed.

Lemma unescape_percent (c : ascii) (rest : string) :
  unescape (percent c rest) = cons (escaped c) <$> unescape rest.
Proof.
  destruct (nibbles c) as (Hh & Hl & Hc).
  unfold percent.
  change (unescape (String (char 37) ?r)) with
    (match r with
     | String h (String l r') =>
         match hex_value h, hex_value l with
         | Some a, Some b => cons (escaped (char (16 * a + b))) <$> unescape r'
         | _, _ => None
         end
     | _ => None
     end).
  cbv beta iota. by rewrite !hex_value_digit, Hc.
Qed.


Lemma unescape_literal (c : ascii) (rest : string) :
  byte 37 c = false → unescape (String c rest) = cons (literal c) <$> unescape rest.
Proof. intros H. simpl. by rewrite H. Qed.

Lemma hex_digit_unescaped (n : N) : (n < 16)%N → uriUnescaped (hex_digit n) = true.
Proof.
  intros Hn. unfold uriUnescaped.
  destruct (hex_digit_alnum n Hn) as [-> | ->]; by rewrite ?orb_true_r.
Qed.

Lemma encoded_percent (c : ascii) (rest : string) :
  all encoded rest = true → all encoded (percent c rest) = true.
Proof.
  intros Hr. destruct (nibbles c) as (Hh & Hl & _).
  unfold percent. cbn [all]. rewrite Hr.
  unfold encoded at 2 3. rewrite !hex_digit_unescaped by done.
  reflexivity.
Qed.

(** Encoding a well-formed string succeeds, gives only unescaped
    characters and escapes, and decoding the result gives the string
    back. *)
Lemma encode_decode (s : string) :
  wellformed s →
  ∃ e ts, encodeURIComponent s = Some e ∧ all encoded e = true ∧
    (s ≠ EmptyString → e ≠ EmptyString) ∧
    unescape e = Some ts ∧ assemble ts = Some s.
Proof.
  induction 1 as [|c s Hc Hs (e & ts & He & Ha & _ & Hu & Hd)
                  |c c1 s Hc Hc1 Hs (e & ts & He & Ha & _ & Hu & Hd)
                  |c c1 c2 s Hc Hc1 Hc2 Hs (e & ts & He & Ha & _ & Hu & Hd)
                  |c c1 c2 c3 s Hc Hc1 Hc2 Hc3 Hs (e & ts & He & Ha & _ & Hu & Hd)].
  - exists EmptyString, []. done.
  - destruct (uriUnescaped c) eqn:Hun.
    + exists (String c e), (literal c :: ts).
      assert (H37 : byte 37 c = false) by (clear -Hun; codes).
      repeat split.
      * simpl. by rewrite Hun, He.
      * simpl. unfold encoded at 1. by rewrite Hun, Ha.
      * done.
      * by rewrite unescape_literal, Hu.
      * simpl. by rewrite Hd.
    + exists (percent c e), (escaped c :: ts). repeat split.
      * simpl. by rewrite Hun, Hc, He.
      * by apply encoded_percent.
      * done.
      * by rewrite unescape_percent, Hu.
      * simpl. by rewrite Hc, Hd.
  - assert (Hun : uriUnescaped c = false) by (clear -Hc; codes).
    assert (H1 : in_range 0 127 c = false) by (clear -Hc; codes).
    exists (percent c (percent c1 e)), (escaped c :: escaped c1 :: ts). repeat split.
    + simpl. by rewrite Hun, H1, Hc, Hc1, He.
    + by do 2 apply encoded_percent.
    + done.
    + by rewrite !unescape_percent, Hu.
    + simpl. by rewrite H1, Hc, Hc1, Hd.
  - assert (Hun : uriUnescaped c = false) by (clear -Hc; codes).
    assert (H1 : in_range 0 127 c = false) by (clear -Hc; codes).
    assert (H2 : in_range 194 223 c = false) by (clear -Hc; codes).
    exists (percent c (percent c1 (percent c2 e))),
           (escaped c :: escaped c1 :: escaped c2 :: ts). repeat split.
    + simpl. by rewrite Hun, H1, H2, Hc, Hc1, Hc2, He.
    + by do 3 apply encoded_percent.
    + done.
    + by rewrite !unescape_percent, Hu.
    + simpl. by rewrite H1, H2, Hc, Hc1, Hc2, Hd.
  - assert (Hun : uriUnescaped c = false) by (clear -Hc; codes).
    assert (H1 : in_range 0 127 c = false) by (clear -Hc; codes).
    assert (H2 : in_range 194 223 c = false) by (clear -Hc; codes).
    assert (H3 : in_range 224 239 c = false) by (clear -Hc; codes).
    exists (percent c (percent c1 (percent c2 (percent c3 e)))),
           (escaped c :: escaped c1 :: escaped c2 :: escaped c3 :: ts). repeat split.
    + simpl. by rewrite Hun, H1, H2, H3, Hc, Hc1, Hc2, Hc3, He.
    + by do 4 apply encoded_percent.
    + done.
    + by rewrite !unescape_percent, Hu.
    + simpl. by rewrite H1, H2, H3, Hc, Hc1, Hc2, Hc3, Hd.
Qed.


(** ** split and join *)

Lemma split_without (sep : N) (w : string) :
  all (λ c, negb (byte sep c)) w = true → split sep w = [w].
Proof.
  induction w as [|c w IH]; simpl; [done|].
  intros [Hc Hw]%andb_true_iff. apply negb_true_iff in Hc.
  by rewrite Hc, IH.
Qed.

Lemma split_append (sep : N) (w rest : string) :
  (sep < 256)%N →
  all (λ c, negb (byte sep c)) w = true →
  split sep (String.append w (String (char sep) rest)) = w :: split sep rest.
Proof.
  intros Hs Hw. induction w as [|c w IH]; simpl.
  - unfold byte. by rewrite code_char, N.eqb_refl.
  - simpl in Hw. apply andb_true_iff in Hw as [Hc Hw]. apply negb_true_iff in Hc.
    by rewrite Hc, IH.
Qed.

Lemma split_join (sep : N) (l : list string) :
  (sep < 256)%N → l ≠ [] →
  Forall (λ w, all (λ c, negb (byte sep c)) w = true) l →
  split sep (join sep l) = l.
Proof.
  intros Hs Hne Hl. induction Hl as [|w l Hw Hl IH]; [done|].
  destruct l as [|w' l'].
  - simpl. by apply split_without.
  - change (join sep (w :: w' :: l')) with
      (String.append w (String (char sep) (join sep (w' :: l')))).
    rewrite split_append by done. f_equal. by apply IH.
Qed.

(** ** trim *)

Lemma all_impl (p q : ascii → bool) (s : string) :
  (∀ c, p c = true → q c = true) → all p s = true → all q s = true.
Proof.
  intros Hpq. induction s as [|c s IH]; simpl; [done|].
  intros [Hc Hs]%andb_true_iff. by rewrite (Hpq c Hc), IH.
Qed.

Lemma trimStart_encoded (c : ascii) (s : string) :
  encoded c = true → trimStart (String c s) = String c s.
Proof.
  intros Hc. unfold encoded in Hc.
  assert (H1 : space1 c = false) by (clear -Hc; codes).
  assert (H2 : ∀ c1, space2 c c1 = false).
  { intros c1. clear -Hc. unfold space2. destruct (byte 194 c) eqn:E; [|done]. codes. }
  assert (H3 : ∀ c1 c2, space3 c c1 c2 = false).
  { intros c1 c2. clear -Hc. unfold space3.
    assert (byte 225 c = false) as -> by codes.
    assert (byte 226 c = false) as -> by codes.
    assert (byte 227 c = false) as -> by codes.
    assert (byte 239 c = false) as -> by codes.
    done. }
  simpl. rewrite H1. destruct s as [|c1 [|c2 r]]; [done| |]; by rewrite H2, ?H3.
Qed.

Lemma trim_encoded (s : string) : all encoded s = true → trim s = s.
Proof.
  intros Hs. unfold trim.
  assert (Ht : trimStart s = s).
  { destruct s as [|c r]; [done|]. simpl in Hs. apply andb_true_iff in Hs as [Hc _].
    by apply trimStart_encoded. }
  rewrite Ht. clear Ht.
  induction s as [|c r IH]; [done|].
  simpl in Hs. apply andb_true_iff in Hs as [Hc Hr].
  cbn [trimEnd]. unfold blank. rewrite (trimStart_encoded c r Hc).
  by rewrite (IH Hr).
Qed.


Lemma all_append (p : ascii → bool) (a b : string) :
  all p (String.append a b) = all p a && all p b.
Proof. induction a as [|c a IH]; simpl; [done|]. by rewrite IH, andb_assoc. Qed.

Lemma all_join (p : ascii → bool) (sep : N) (l : list string) :
  p (char sep) = true → Forall (λ w, all p w = true) l → all p (join sep l) = true.
Proof.
  intros Hsep Hl. induction Hl as [|w l Hw Hl IH]; [done|].
  destruct l as [|w' l']; [done|].
  change (join sep (w :: w' :: l')) with
    (String.append w (String (char sep) (join sep (w' :: l')))).
  rewrite all_append, Hw. cbn [all andb]. by rewrite Hsep, IH.
Qed.

Lemma join_nonempty (sep : N) (w : string) (l : list string) :
  w ≠ EmptyString → join sep (w :: l) ≠ EmptyString.
Proof. destruct w as [|c w]; [done|]. by destruct l. Qed.

End JSStringFacts.

(** ** URLSearchParams *)

Module URLSearchParamsFacts.
Import JSString JSStringFacts URLSearchParams.

Lemma hex_digit_not (n k : N) :
  (n < 16)%N → (k < 48 ∨ 57 < k < 65 ∨ 70 < k)%N → byte k (hex_digit n) = false.
Proof.
  intros Hn Hk. apply byte_false. rewrite (hex_digit_code n Hn).
  destruct (N.ltb_spec n 10); lia.
Qed.

Lemma hex_digit_keeps (n : N) : (n < 16)%N → keeps (hex_digit n) = true.
Proof.
  intros Hn. unfold keeps.
  destruct (hex_digit_alnum n Hn) as [-> | ->]; by rewrite ?orb_true_r.
Qed.

Lemma percent_decode_percent (c : ascii) (rest : string) :
  percent_decode (percent c rest) = String c (percent_decode rest).
Proof.
  destruct (nibbles c) as (Hh & Hl & Hc).
  unfold percent.
  change (percent_decode (String (char 37) ?r)) with
    (match r with
     | String h (String l r') =>
         match hex_value h, hex_value l with
         | Some a, Some b => String (char (16 * a + b)) (percent_decode r')
         | _, _ => String (char 37) (percent_decode r)
         end
     | _ => String (char 37) (percent_decode r)
     end).
  cbv beta iota. by rewrite !hex_value_digit, Hc.
Qed.

Lemma plus_to_space_percent (c : ascii) (rest : string) :
  plus_to_space (percent c rest) = percent c (plus_to_space rest).
Proof.
  destruct (nibbles c) as (Hh & Hl & _).
  unfold percent. cbn [plus_to_space].
  rewrite !(hex_digit_not _ 43) by (done || lia).
  reflexivity.
Qed.

(** Serializing then percent-decoding gives the bytes back. *)
Lemma percent_decode_encode (v : string) :
  percent_decode (plus_to_space (encode v)) = v.
Proof.
  induction v as [|c v IH]; [done|].
  cbn [encode]. destruct (keeps c) eqn:Hk.
  - assert (H43 : byte 43 c = false) by (clear -Hk; codes).
    assert (H37 : byte 37 c = false) by (clear -Hk; codes).
    cbn [plus_to_space]. rewrite H43. simpl. by rewrite H37, IH.
  - destruct (byte 32 c) eqn:H32.
    + apply byte_true in H32.
      cbn [plus_to_space].
      assert (byte 43 (char 43) = true) as -> by done.
      assert (E : char 32 = c) by (by rewrite <- H32, char_code).
      rewrite E. simpl.
      assert (byte 37 c = false) as -> by (apply byte_false; lia).
      by rewrite IH.
    + by rewrite plus_to_space_percent, percent_decode_percent, IH.
Qed.

Lemma utf8_decode_ascii7 (v : string) : all ascii7 v = true → utf8_decode v = v.
Proof.
  unfold utf8_decode. induction v as [|c v IH]; [done|].
  simpl. intros [Hc Hv]%andb_true_iff. unfold ascii7 in Hc. by rewrite Hc, IH.
Qed.

Lemma decode_encode (v : string) : all ascii7 v = true → decode (encode v) = v.
Proof. intros Hv. unfold decode. by rewrite percent_decode_encode, utf8_decode_ascii7. Qed.

Lemma encode_serialized (v : string) : all serialized (encode v) = true.
Proof.
  induction v as [|c v IH]; [done|].
  cbn [encode]. destruct (keeps c) eqn:Hk.
  - cbn [all]. unfold serialized at 1. by rewrite Hk, IH.
  - destruct (byte 32 c).
    + cbn [all]. by rewrite IH.
    + destruct (nibbles c) as (Hh & Hl & _).
      unfold percent. cbn [all]. rewrite IH.
      unfold serialized at 2 3. by rewrite !hex_digit_keeps.
Qed.

Lemma cut_append (sep : N) (a b : string) :
  (sep < 256)%N → all (λ c, negb (byte sep c)) a = true →
  cut sep (String.append a (String (char sep) b)) = (a, b).
Proof.
  intros Hs Ha. induction a as [|c a IH]; simpl.
  - unfold byte. by rewrite code_char, N.eqb_refl.
  - simpl in Ha. apply andb_true_iff in Ha as [Hc Ha]. apply negb_true_iff in Hc.
    by rewrite Hc, IH.
Qed.

Lemma serialized_not (k : N) (c : ascii) :
  (k = 38 ∨ k = 61 ∨ k = 35 ∨ k = 63)%N → serialized c = true → negb (byte k c) = true.
Proof. unfold serialized. intros Hk H. apply negb_true_iff, byte_false. codes. Qed.

Lemma piece_serialized (p : string * string) (k : N) :
  (k = 38 ∨ k = 35 ∨ k = 63)%N → all (λ c, negb (byte k c)) (piece p) = true.
Proof.
  intros Hk. unfold piece. rewrite all_append. cbn [all].
  assert (H : ∀ v, all (λ c, negb (byte k c)) (encode v) = true).
  { intros v. eapply all_impl; [|apply encode_serialized].
    intros c. apply serialized_not. lia. }
  rewrite !H. assert (byte k (char 61) = false) as ->; [|done].
  apply byte_false. rewrite code_char by lia. lia.
Qed.

Lemma parse_pieces (ps : t) :
  Forall (λ p, all ascii7 p.1 = true ∧ all ascii7 p.2 = true) ps →
  (λ s, let '(n, v) := cut 61 s in (decode n, decode v)) <$>
    filter (λ s, s ≠ EmptyString) (piece <$> ps) = ps.
Proof.
  induction 1 as [|[n v] ps (Hn & Hv) Hps IH]; [done|].
  rewrite fmap_cons, filter_cons_True.
  - rewrite fmap_cons, IH. f_equal. unfold piece. simpl in *.
    rewrite cut_append; [|lia|].
    + by rewrite !decode_encode.
    + eapply all_impl; [|apply encode_serialized].
      intros c. apply serialized_not. lia.
  - unfold piece. by destruct (encode (n, v).1).
Qed.

(** Parsing the search string of a serialized list gives the list
    back, when names and values are made of characters of one byte. *)
Lemma parse_toString (ps : t) :
  ps ≠ [] →
  Forall (λ p, all ascii7 p.1 = true ∧ all ascii7 p.2 = true) ps →
  parse (String (char 63) (toString ps)) = ps.
Proof.
  intros Hne Hps. unfold parse.
  assert (byte 63 (char 63) = true) as -> by done.
  unfold toString. rewrite split_join.
  - by apply parse_pieces.
  - lia.
  - by destruct ps.
  - apply Forall_fmap, Forall_forall. intros p _. apply piece_serialized. lia.
Qed.

End URLSearchParamsFacts.

(** ** Router: the array parameters *)

Module RouterFacts.
Import JSString JSStringFacts Router.

Lemma decodeURIComponent_encoded (v : string) :
  wellformed v →
  ∃ e, encodeURIComponent v = Some e ∧ all encoded e = true ∧
    (v ≠ EmptyString → e ≠ EmptyString) ∧ decodeURIComponent e = Some v.
Proof.
  intros Hv. destruct (encode_decode v Hv) as (e & ts & He & Ha & Hne & Hu & Hd).
  exists e. repeat split; try done. unfold decodeURIComponent. by rewrite Hu.
Qed.

(** The encoded forms of publishable values. *)
Lemma map_encode (l : list string) :
  Forall publishable l →
  ∃ es, map_throwing encodeURIComponent l = Some es ∧
    length es = length l ∧
    Forall (λ e, all encoded e = true ∧ e ≠ EmptyString) es ∧
    map_throwing (λ e, decodeURIComponent (trim e)) es = Some l.
Proof.
  induction 1 as [|v l (Hne & Hwf) Hl (es & Hes & Hlen & Hall & Hdec)].
  - by exists [].
  - destruct (decodeURIComponent_encoded v Hwf) as (e & He & Ha & Hn & Hd).
    exists (e :: es). repeat split.
    + simpl. by rewrite He, Hes.
    + simpl. by rewrite Hlen.
    + constructor; [split; [done|by apply Hn]|done].
    + simpl. by rewrite (trim_encoded e Ha), Hd, Hdec.
Qed.

Lemma encoded_no_comma (c : ascii) : encoded c = true → negb (byte 44 c) = true.
Proof. unfold encoded. intros H. codes. Qed.

Lemma encoded_ascii7 (c : ascii) : encoded c = true → ascii7 c = true.
Proof. unfold encoded, ascii7. intros H. codes. Qed.

Lemma filter_truthy (l : list string) :
  Forall publishable l → filter (λ v, truthy_string v = true) l = l.
Proof.
  induction 1 as [|v l (Hne & _) Hl IH]; [done|].
  rewrite filter_cons_True, IH; [done|].
  unfold truthy_string. by rewrite bool_decide_eq_false_2.
Qed.

(** encodeArrayParam and parseArrayParam are inverse on a non-empty
    array of publishable values; the encoded value has only
    characters of one byte and is not empty. *)
Lemma array_param_roundtrip (l : list string) :
  l ≠ [] → Forall publishable l →
  ∃ v, encodeArrayParam l = Some (Some v) ∧
    all ascii7 v = true ∧ v ≠ EmptyString ∧
    parseArrayParam (Some v) = Some l.
Proof.
  intros Hne Hl. destruct (map_encode l Hl) as (es & Hes & Hlen & Hall & Hdec).
  exists (join 44 es).
  assert (Hes_ne : es ≠ []).
  { destruct es; [|done]. destruct l; [done|]. simpl in Hlen. lia. }
  assert (Hjoin_ne : join 44 es ≠ EmptyString).
  { destruct es as [|e es']; [done|]. apply join_nonempty.
    apply Forall_cons in Hall as ((_ & He) & _). done. }
  repeat split.
  - unfold encodeArrayParam. destruct l; [done|]. by rewrite Hes.
  - apply all_join; [done|].
    eapply Forall_impl; [exact Hall|]. intros e (He & _).
    eapply all_impl; [|exact He]. apply encoded_ascii7.
  - done.
  - unfold parseArrayParam. simpl.
    unfold truthy_string. rewrite bool_decide_eq_false_2 by done. simpl.
    rewrite split_join.
    + rewrite Hdec. simpl. by rewrite filter_truthy.
    + lia.
    + done.
    + eapply Forall_impl; [exact Hall|]. intros e (He & _).
      eapply all_impl; [|exact He]. apply encoded_no_comma.
Qed.


(** ** Router: URLs *)

Lemma until_hash_id (q : string) :
  all (λ c, negb (byte 35 c)) q = true → until_hash q = q.
Proof.
  induction q as [|c q IH]; simpl; [done|].
  intros [Hc Hq]%andb_true_iff. apply negb_true_iff in Hc. by rewrite Hc, IH.
Qed.

Lemma url_search_append (a b : string) :
  all in_path a = true → url_search (String.append a b) = url_search b.
Proof.
  induction a as [|c a IH]; simpl; [done|].
  intros [Hc Ha]%andb_true_iff. unfold in_path in Hc.
  apply negb_true_iff, orb_false_iff in Hc as [H63 H35].
  by rewrite H35, H63, IH.
Qed.

Lemma url_search_query (q : string) :
  q ≠ EmptyString → all (λ c, negb (byte 35 c)) q = true →
  url_search (String (char 63) q) = String (char 63) q.
Proof.
  intros Hne Hq. simpl.
  rewrite until_hash_id by done. by destruct q.
Qed.

Lemma path_in_path (tab : string) :
  all in_path (or_default (lookup_table tab tabToPath) "/") = true.
Proof.
  unfold tabToPath. simpl.
  repeat (case_bool_decide; [reflexivity|]). reflexivity.
Qed.

Lemma toString_nonempty (ps : URLSearchParams.t) :
  ps ≠ [] → URLSearchParams.toString ps ≠ EmptyString.
Proof.
  destruct ps as [|p ps]; [done|]. intros _. unfold URLSearchParams.toString.
  rewrite fmap_cons. apply join_nonempty.
  unfold URLSearchParams.piece. by destruct (URLSearchParams.encode p.1).
Qed.

Lemma toString_no_hash (ps : URLSearchParams.t) :
  all (λ c, negb (byte 35 c)) (URLSearchParams.toString ps) = true.
Proof.
  unfold URLSearchParams.toString. apply all_join; [done|].
  apply Forall_fmap, Forall_forall. intros p _.
  apply URLSearchParamsFacts.piece_serialized. lia.
Qed.

(** The search string of the location after a navigation to
    [fullPath + suffix] lists the same parameters. *)
Lemma parse_url_search (fullPath : string) (ps : URLSearchParams.t) :
  all in_path fullPath = true →
  Forall (λ p, all ascii7 p.1 = true ∧ all ascii7 p.2 = true) ps →
  URLSearchParams.parse
    (url_search (String.append fullPath (query_suffix (URLSearchParams.toString ps)))) = ps.
Proof.
  intros Hp Hps. rewrite url_search_append by done.
  destruct ps as [|p ps].
  - reflexivity.
  - unfold query_suffix, truthy_string.
    rewrite bool_decide_eq_false_2 by (by apply toString_nonempty). simpl negb. cbv iota.
    rewrite url_search_query; [|by apply toString_nonempty|apply toString_no_hash].
    by apply URLSearchParamsFacts.parse_toString.
Qed.


Lemma get_app (n : string) (a b : URLSearchParams.t) :
  URLSearchParams.get n (a ++ b) =
  match URLSearchParams.get n a with
  | Some v => Some v
  | None => URLSearchParams.get n b
  end.
Proof.
  induction a as [|[k v] a IH]; simpl; [done|].
  case_bool_decide; [done|]. apply IH.
Qed.

Lemma set_absent (name value : string) (params : URLSearchParams.t) :
  URLSearchParams.get name params = None →
  URLSearchParams.set name value params = params ++ [(name, value)].
Proof. intros H. unfold URLSearchParams.set. by rewrite H. Qed.

(** One parameter of buildURL: nothing for an empty array, one pair
    otherwise, from which parseArrayParam reads the array. *)
Lemma set_param_spec (name : string) (arr : list string) (params : URLSearchParams.t) :
  Forall publishable arr →
  URLSearchParams.get name params = None →
  all ascii7 name = true →
  ∃ ps, set_param name arr params = Some (params ++ ps) ∧
    Forall (λ p, all ascii7 p.1 = true ∧ all ascii7 p.2 = true) ps ∧
    (∀ n, n ≠ name → URLSearchParams.get n ps = None) ∧
    parseArrayParam (URLSearchParams.get name ps) = Some arr.
Proof.
  intros Harr Hget Hname. destruct arr as [|x arr].
  - exists []. simpl. by rewrite app_nil_r.
  - assert (Hne0 : x :: arr ≠ []) by done.
    destruct (array_param_roundtrip (x :: arr) Hne0 Harr) as (v & He & Ha & Hne & Hp).
    exists [(name, v)]. repeat split.
    + unfold set_param. rewrite He. by rewrite set_absent.
    + by repeat constructor.
    + intros n Hn. simpl. by rewrite bool_decide_eq_false_2.
    + simpl. by rewrite bool_decide_eq_true_2.
Qed.

(** The URL that buildURL returns, and what the three parameters of
    its query hold. *)
Lemma buildURL_shape (basePath tab : string) (f : Filters) :
  Forall publishable (jobFamilies f) →
  Forall publishable (contractTypes f) →
  Forall publishable (departments f) →
  ∃ ps,
    buildURL basePath tab f =
      Some (String.append
              (String.append basePath (or_default (lookup_table tab tabToPath) "/"))
              (query_suffix (URLSearchParams.toString ps))) ∧
    Forall (λ p, all ascii7 p.1 = true ∧ all ascii7 p.2 = true) ps ∧
    URLSearchParams.get "__route" ps = None ∧
    parseArrayParam (URLSearchParams.get param_jobFamilies ps) = Some (jobFamilies f) ∧
    parseArrayParam (URLSearchParams.get param_contractTypes ps) = Some (contractTypes f) ∧
    parseArrayParam (URLSearchParams.get param_departments ps) = Some (departments f).
Proof.
  intros Hj Hc Hd.
  destruct (set_param_spec param_jobFamilies (jobFamilies f) [] Hj eq_refl eq_refl)
    as (p1 & E1 & A1 & N1 & P1).
  simpl in E1.
  assert (D1 : param_contractTypes ≠ param_jobFamilies) by discriminate.
  destruct (set_param_spec param_contractTypes (contractTypes f) p1 Hc
              (N1 _ D1) eq_refl) as (p2 & E2 & A2 & N2 & P2).
  assert (G3 : URLSearchParams.get param_departments (p1 ++ p2) = None).
  { rewrite get_app, N1 by discriminate. apply N2. discriminate. }
  destruct (set_param_spec param_departments (departments f) (p1 ++ p2) Hd G3 eq_refl)
    as (p3 & E3 & A3 & N3 & P3).
  exists ((p1 ++ p2) ++ p3). repeat split.
  - unfold buildURL. rewrite E1. simpl. rewrite E2. simpl. by rewrite E3.
  - by repeat apply Forall_app_2.
  - rewrite !get_app, N1, N2, N3 by discriminate. done.
  - rewrite !get_app. destruct (URLSearchParams.get param_jobFamilies p1); [done|].
    rewrite N2, N3 by discriminate. done.
  - rewrite !get_app, N1 by discriminate.
    destruct (URLSearchParams.get param_contractTypes p2); [done|].
    rewrite N3 by discriminate. done.
  - rewrite !get_app, N1, N2 by discriminate. done.
Qed.

(** C5 (amended): for every FilterState whose three dimensions are
    arrays of non-empty strings without unpaired surrogates, buildURL
    returns a URL, and parsing the location reached by that URL gives
    the same three arrays back, hence the same sets. *)
Theorem buildURL_parse_roundtrip (basePath tab : string) (f : Filters) :
  all in_path basePath = true →
  Forall publishable (jobFamilies f) →
  Forall publishable (contractTypes f) →
  Forall publishable (departments f) →
  ∃ url parsed,
    buildURL basePath tab f = Some url ∧
    parseCurrentURL basePath (url_pathname url) (url_search url) = Some parsed ∧
    filters (route parsed) = f ∧
    (∀ v, v ∈ jobFamilies (filters (route parsed)) ↔ v ∈ jobFamilies f) ∧
    (∀ v, v ∈ contractTypes (filters (route parsed)) ↔ v ∈ contractTypes f) ∧
    (∀ v, v ∈ departments (filters (route parsed)) ↔ v ∈ departments f).
Proof.
  intros Hb Hj Hc Hd.
  destruct (buildURL_shape basePath tab f Hj Hc Hd) as (ps & Hurl & Hps & Hr & Pj & Pc & Pd).
  eexists _, _. split; [exact Hurl|].
  assert (Hparse : ∀ pathname,
    parseCurrentURL basePath pathname
      (url_search (String.append
              (String.append basePath (or_default (lookup_table tab tabToPath) "/"))
              (query_suffix (URLSearchParams.toString ps)))) =
    Some (mkParsed
      (mkRoute
        (or_default
          (lookup_table
            (or_else
              (dropTrailingSlash
                (if truthy_string basePath && startsWith pathname basePath
                 then or_else (slice pathname (String.length basePath)) "/"
                 else pathname)) "/") routes) defaultTab)
        f) None)).
  { intros pathname. unfold parseCurrentURL.
    rewrite parse_url_search; [|by rewrite all_append, Hb, path_in_path|done].
    rewrite Hr. cbn [truthy_ostring mbind option_bind].
    rewrite Pj, Pc, Pd. cbn [mbind option_bind]. by destruct f. }
  rewrite Hparse. split; [reflexivity|]. simpl. done.
Qed.

Lemma publishable_Archiviste : publishable "Archiviste".
Proof. split; [done|]. repeat (apply wellformed_1; [reflexivity|]). constructor. Qed.

Lemma buildURL_parse_roundtrip_witness :
  ∃ url parsed,
    buildURL "/cepid" "salaries" (mkFilters ["Archiviste"] [] []) = Some url ∧
    parseCurrentURL "/cepid" (url_pathname url) (url_search url) = Some parsed ∧
    filters (route parsed) = mkFilters ["Archiviste"] [] [].
Proof.
  destruct (buildURL_parse_roundtrip "/cepid" "salaries" (mkFilters ["Archiviste"] [] []))
    as (url & parsed & H1 & H2 & H3 & _).
  - reflexivity.
  - repeat constructor; apply publishable_Archiviste.
  - constructor.
  - constructor.
  - exists url, parsed. repeat split; assumption.
Defined.

(** C5 as stated fails: the array of the single non-empty string made
    of an unpaired surrogate has no URL, buildURL throws a URIError. *)
Lemma buildURL_unpaired_surrogate :
  ¬ (∀ f : Filters,
       Forall (λ v, v ≠ EmptyString) (jobFamilies f) →
       Forall (λ v, v ≠ EmptyString) (contractTypes f) →
       Forall (λ v, v ≠ EmptyString) (departments f) →
       ∃ url parsed,
         buildURL "" "overview" f = Some url ∧
         parseCurrentURL "" (url_pathname url) (url_search url) = Some parsed ∧
         (∀ v, v ∈ jobFamilies (filters (route parsed)) ↔ v ∈ jobFamilies f) ∧
         (∀ v, v ∈ contractTypes (filters (route parsed)) ↔ v ∈ contractTypes f) ∧
         (∀ v, v ∈ departments (filters (route parsed)) ↔ v ∈ departments f)).
Proof.
  intros H.
  destruct (H (mkFilters [Scenario.unpaired_surrogate] [] [])) as (url & _ & Hurl & _).
  - repeat constructor. discriminate.
  - constructor.
  - constructor.
  - vm_compute in Hurl. discriminate.
Qed.

End RouterFacts.

(** ** Array.prototype.sort with a consistent comparator *)

Module SortFacts.

Section Sorting.
Context {A : Type} (cmp : A → A → Q).

Lemma sort_insert_perm (x : A) (l : list A) : sort_insert cmp x l ≡ₚ x :: l.
Proof.
  induction l as [|y l IH]; simpl; [done|].
  destruct (Qle_bool _ _); [done|].
  rewrite IH. apply Permutation_swap.
Qed.

Lemma Array_sort_perm (l : list A) : Array_sort cmp l ≡ₚ l.
Proof.
  induction l as [|x l IH]; simpl; [done|].
  by rewrite sort_insert_perm, IH.
Qed.

Hypothesis Hcons : OffersModal.consistent cmp.

Lemma after_is_not_before (a b : A) :
  Qle_bool (cmp a b) 0 = false → Qle (cmp b a) 0.
Proof.
  intros Hf. destruct Hcons as (Hanti & _).
  apply Qlt_le_weak, Hanti.
  apply Qnot_le_lt. intros Hle. apply Qle_bool_iff in Hle. congruence.
Qed.

Lemma equal_sym (a b : A) : Qeq (cmp a b) 0 → Qeq (cmp b a) 0.
Proof.
  intros He. destruct Hcons as (Hanti & _).
  destruct (Q_dec (cmp b a) 0) as [[Hlt|Hgt]|Heq]; [| |done].
  - apply Hanti in Hlt. rewrite He in Hlt. by apply Qlt_irrefl in Hlt.
  - apply Hanti in Hgt. rewrite He in Hgt. by apply Qlt_irrefl in Hgt.
Qed.

Lemma sort_insert_sorted (x : A) (l : list A) :
  StronglySorted (λ a b, Qle (cmp a b) 0) l →
  StronglySorted (λ a b, Qle (cmp a b) 0) (sort_insert cmp x l).
Proof.
  destruct Hcons as (_ & Htrans).
  induction l as [|y l IH]; simpl; intros Hs.
  - repeat constructor.
  - apply StronglySorted_inv in Hs as (Hs & Hy).
    destruct (Qle_bool (cmp x y) 0) eqn:Hle.
    + apply Qle_bool_iff in Hle. constructor; [by constructor|].
      constructor; [done|].
      eapply Forall_impl; [exact Hy|]. intros z Hz. by eapply Htrans.
    + constructor; [by apply IH|].
      rewrite sort_insert_perm. constructor; [|done].
      by apply after_is_not_before.
Qed.

Lemma Array_sort_sorted (l : list A) :
  StronglySorted (λ a b, Qle (cmp a b) 0) (Array_sort cmp l).
Proof.
  induction l as [|x l IH]; simpl; [constructor|].
  by apply sort_insert_sorted.
Qed.

(** Elements that compare equal keep their order: the sort moves [x]
    only past elements that compare different from it. *)
Lemma sort_insert_stable (z x : A) (l : list A) :
  filter (λ y, Qeq_bool (cmp z y) 0) (sort_insert cmp x l) =
  filter (λ y, Qeq_bool (cmp z y) 0) (x :: l).
Proof.
  destruct Hcons as (_ & Htrans).
  induction l as [|y l IH]; simpl; [done|].
  destruct (Qle_bool (cmp x y) 0) eqn:Hle; [done|].
  rewrite (filter_cons _ y), IH, !filter_cons.
  destruct (Qeq_bool (cmp z y) 0) eqn:Hy;
    destruct (Qeq_bool (cmp z x) 0) eqn:Hx; simpl; try done.
  exfalso.
  apply Qeq_bool_iff in Hx, Hy.
  assert (Hxy : Qle (cmp x y) 0).
  { apply (Htrans x z y).
    - apply equal_sym in Hx. rewrite Hx. apply Qle_refl.
    - rewrite Hy. apply Qle_refl. }
  apply Qle_bool_iff in Hxy. congruence.
Qed.

Lemma Array_sort_stable (z : A) (l : list A) :
  filter (λ y, Qeq_bool (cmp z y) 0) (Array_sort cmp l) =
  filter (λ y, Qeq_bool (cmp z y) 0) l.
Proof.
  induction l as [|x l IH]; simpl; [done|].
  by rewrite sort_insert_stable, !filter_cons, IH.
Qed.

End Sorting.

End SortFacts.

(** ** OffersModal *)

Module OffersModalFacts.
Import OffersModal.

Lemma difference_consistent : consistent (λ x y : Q, Qminus x y).
Proof. split; [intros a b; split; intros H; lra | intros a b c H1 H2; lra]. Qed.

Lemma collation_consistent (toLowerCase : string → string)
    (localeCompare : string → string → Z) :
  collation localeCompare →
  consistent (λ x y, inject_Z (localeCompare (toLowerCase x) (toLowerCase y))).
Proof.
  intros (Hanti & Htrans). split.
  - intros a b. change 0%Q with (inject_Z 0). rewrite <- !Zlt_Qlt. apply Hanti.
  - intros a b c. change 0%Q with (inject_Z 0). rewrite <- !Zle_Qle. apply Htrans.
Qed.

(** Reversing the direction keeps a comparator consistent. *)
Lemma directed_consistent {V : Type} (k : V → V → Q) (d : Direction) :
  consistent k → consistent (λ x y, Qmult (k x y) (dir_of d)).
Proof.
  intros (Hanti & Htrans). destruct d; simpl.
  - change (inject_Z 1) with 1%Q. split.
    + intros a b. specialize (Hanti a b). split; intros H.
      * assert (0 < k a b)%Q by lra. apply Hanti in H0. lra.
      * assert (k b a < 0)%Q by lra. apply Hanti in H0. lra.
    + intros a b c H1 H2.
      assert (k a c <= 0)%Q by (apply (Htrans a b c); lra). lra.
  - change (inject_Z (-1)) with (-1 # 1)%Q. split.
    + intros a b. specialize (Hanti b a). split; intros H.
      * assert (k a b < 0)%Q by lra. apply Hanti in H0. lra.
      * assert (0 < k b a)%Q by lra. apply Hanti in H0. lra.
    + intros a b c H1 H2.
      assert (Hge : ∀ x y, (0 <= k x y)%Q → (k y x <= 0)%Q).
      { intros x y Hxy. apply Qnot_lt_le. intros Hlt. apply (Hanti y x) in Hlt. lra. }
      assert (Hle : ∀ x y, (k x y <= 0)%Q → (0 <= k y x)%Q).
      { intros x y Hxy. apply Qnot_lt_le. intros Hlt. apply (Hanti x y) in Hlt. lra. }
      assert (k c a <= 0)%Q.
      { apply (Htrans c b a); apply Hge; lra. }
      apply Hle in H. lra.
Qed.

Lemma nulls_last_consistent {A V : Type} (k : V → V → Q) (f : A → option V) :
  consistent k → consistent (λ a b, nulls_last k (f a) (f b)).
Proof.
  intros (Hanti & Htrans). split.
  - intros a b. destruct (f a) as [x|], (f b) as [y|]; simpl;
      [apply Hanti | | |]; split; intros H; try done;
      try (by apply Qlt_alt in H).
  - intros a b c. destruct (f a) as [x|], (f b) as [y|], (f c) as [z|]; simpl;
      intros H1 H2; try done; try (by apply Qle_alt in H1); try (by apply Qle_alt in H2).
    by apply (Htrans x y z).
Qed.

Lemma compareFn_consistent (toLowerCase : string → string)
    (localeCompare : string → string → Z) (col : Column) (d : Direction) :
  collation localeCompare →
  consistent (compareFn toLowerCase localeCompare col (dir_of d)).
Proof.
  intros Hc.
  pose proof (directed_consistent _ d (collation_consistent toLowerCase _ Hc)) as Ht.
  pose proof (directed_consistent _ d difference_consistent) as Hn.
  destruct col; unfold compareFn.
  - exact (nulls_last_consistent _ title Ht).
  - exact (nulls_last_consistent _ company Ht).
  - exact (nulls_last_consistent _ department Ht).
  - exact (nulls_last_consistent _ contractType Ht).
  - exact (nulls_last_consistent _ salaryNetMonthly Hn).
Qed.


Lemma StronglySorted_lookup {A : Type} (R : A → A → Prop) (l : list A) (i j : nat) (a b : A) :
  StronglySorted R l → (i < j)%nat → l !! i = Some a → l !! j = Some b → R a b.
Proof.
  intros Hs. revert i j. induction Hs as [|x l Hs IH Hall]; intros i j Hij Hi Hj.
  - done.
  - destruct j as [|j]; [lia|]. destruct i as [|i]; simpl in *.
    + injection Hi as <-. rewrite Forall_forall in Hall. apply Hall.
      by eapply list_elem_of_lookup_2.
    + apply (IH i j); [lia|done|done].
Qed.




Lemma by_length_collation : collation by_length.
Proof. unfold by_length. split; intros; lia. Qed.


End OffersModalFacts.

(** * Further properties *)

(** ** DataProcessor *)

Module DataProcessorMoreFacts.
Import DataProcessor DataProcessorMore Invariants DataProcessorFacts.

Lemma merge_both (fs : Filters) (a b : PartialFilters) :
  merge (merge fs a) b = merge fs (both a b).
Proof.
  unfold merge, both. simpl.
  destruct (new_jobFamilies b), (new_contractTypes b), (new_departments b),
    (new_dateRange b); done.
Qed.

Lemma run_op_filters (op : FilterOp) (w w' : World) :
  loaded w → run_op op w = Returned w' →
  filters (this w') =
    match op with
    | Apply nf => merge (filters (this w)) nf
    | Reset => emptyFilters
    end.
Proof.
  intros (d & Hd & _) Hrun. destruct op as [nf|]; simpl in Hrun.
  - destruct (applyFilters_loaded nf w d Hd) as (r & _ & Heq).
    rewrite Heq in Hrun. by injection Hrun as <-.
  - destruct (resetFilters_loaded w d Hd) as (r & _ & Heq).
    rewrite Heq in Hrun. by injection Hrun as <-.
Qed.

(** X1: two successive applyFilters calls commit the same filter state
    and show the same offers as one call with the two arguments
    merged, the later one winning on the keys both name. *)
Theorem applyFilters_twice_is_merged (w : World) (a b : PartialFilters) :
  loaded w →
  ∃ w2 w12,
    run_ops [Apply a; Apply b] w = Returned w2 ∧
    applyFilters (both a b) w = Returned w12 ∧
    filters (this w2) = filters (this w12) ∧
    filtered w2 = filtered w12 ∧
    all_offers w2 = all_offers w12.
Proof.
  intros Hl.
  destruct (run_op_committed (Apply a) w Hl) as (w1 & H1 & C1 & _ & A1).
  pose proof (run_op_filters (Apply a) w w1 Hl H1) as F1.
  destruct (run_op_committed (Apply b) w1 (committed_loaded _ C1)) as (w2 & H2 & C2 & _ & A2).
  pose proof (run_op_filters (Apply b) w1 w2 (committed_loaded _ C1) H2) as F2.
  destruct (run_op_committed (Apply (both a b)) w Hl) as (w12 & H12 & C12 & _ & A12).
  pose proof (run_op_filters (Apply (both a b)) w w12 Hl H12) as F12.
  exists w2, w12. simpl in *. rewrite H1, H2.
  assert (Hf : filters (this w2) = filters (this w12)).
  { rewrite F2, F1, F12. apply merge_both. }
  repeat split; try done.
  - destruct C2 as (_ & _ & ->), C12 as (_ & _ & ->). by rewrite Hf, A2, A1, A12.
  - by rewrite A2, A1, A12.
Qed.

Lemma applyFilters_twice_is_merged_witness :
  ∃ w2 w12,
    run_ops [Apply (Scenario.byJobFamilies ["Archiviste"]);
             Apply (Scenario.byDepartments ["75"])] Scenario.from_network = Returned w2 ∧
    applyFilters (both (Scenario.byJobFamilies ["Archiviste"]) (Scenario.byDepartments ["75"]))
      Scenario.from_network = Returned w12 ∧
    filters (this w2) = filters (this w12) ∧
    filtered w2 = filtered w12.
Proof.
  pose proof (applyFilters_twice_is_merged Scenario.from_network
                (Scenario.byJobFamilies ["Archiviste"]) (Scenario.byDepartments ["75"])
                from_network_loaded) as (w2 & w12 & H1 & H2 & H3 & H4 & _).
  exists w2, w12. repeat split; assumption.
Defined.

(** X2: on a loaded state, applyFilters and resetFilters each dispatch
    exactly one event, a dataFiltered that carries the new
    filteredOffers array and the committed filters; they dispatch no
    dataRefreshed and request no write to storage. *)
Theorem filter_change_notifies_once (w : World) (op : FilterOp) :
  loaded w →
  ∃ w' r, run_op op w = Returned w' ∧
    filteredOffers (this w') = Some r ∧
    dispatched w' = dispatched w ++ [dataFiltered r (filters (this w'))] ∧
    saved w' = saved w.
Proof.
  intros Hl.
  destruct (run_op_frame op w Hl) as (w' & r & Hrun & Hf & _ & _ & Hd & Hs & _).
  by exists w', r.
Qed.

Lemma filter_change_notifies_once_witness :
  ∃ w' r, run_op Reset Scenario.archivists = Returned w' ∧
    filteredOffers (this w') = Some r ∧
    dispatched w' = dispatched Scenario.archivists ++ [dataFiltered r (filters (this w'))] ∧
    saved w' = saved Scenario.archivists.
Proof. exact (filter_change_notifies_once Scenario.archivists Reset archivists_loaded). Defined.

(** X3: without a dataset, applyFilters and resetFilters throw a
    TypeError after they have replaced [filters]: the new filter state
    stays, filteredOffers is not touched and nothing is dispatched. *)
Theorem filter_change_without_data (w : World) (op : FilterOp) :
  data (this w) = None →
  ∃ w', run_op op w = Threw TypeError w' ∧
    filters (this w') =
      match op with
      | Apply nf => merge (filters (this w)) nf
      | Reset => emptyFilters
      end ∧
    data (this w') = None ∧
    filteredOffers (this w') = filteredOffers (this w) ∧
    heap w' = heap w ∧ dispatched w' = dispatched w ∧ saved w' = saved w.
Proof.
  intros Hd. destruct op as [nf|]; simpl.
  - unfold applyFilters. rewrite Hd. eexists. split; [reflexivity|]. done.
  - unfold resetFilters. rewrite Hd. eexists. split; [reflexivity|]. done.
Qed.

Lemma filter_change_without_data_witness :
  ∃ w', run_op (Apply (Scenario.byJobFamilies ["Archiviste"])) (initial false)
        = Threw TypeError w' ∧
    jobFamilies (filters (this w')) = ["Archiviste"] ∧ dispatched w' = [].
Proof.
  pose proof (filter_change_without_data (initial false)
                (Apply (Scenario.byJobFamilies ["Archiviste"])) eq_refl)
    as (w' & Hrun & Hf & _ & _ & _ & Hd & _).
  exists w'. split; [exact Hrun|]. split; [by rewrite Hf | exact Hd].
Defined.


(** X4: refreshIfNeeded never throws, and it changes nothing that the
    dashboard shows (fields of the object, events, storage requests,
    existing arrays) when the dataset did not come from the cache, when
    the fetch fails or has no body, or when the fetched dataset is not
    strictly newer than the one held. *)
Theorem refreshIfNeeded_silent (env : Env) (w : World) :
  ∃ w', refreshIfNeeded env w = Returned w' ∧
    (dataSource (this w) ≠ cache ∨
     (∀ j, fetchFromNetwork env ≠ Fulfilled (Some j)) ∨
     (∀ cached j, data (this w) = Some cached →
        fetchFromNetwork env = Fulfilled (Some j) →
        isNewer (Dataset.meta cached ≫= generatedAt) (json_meta j ≫= generatedAt) = false) →
     this w' = this w ∧ dispatched w' = dispatched w ∧ saved w' = saved w ∧
     ∀ r, r ∈ dom (heap w) → heap w' !! r = heap w !! r).
Proof.
  unfold refreshIfNeeded.
  destruct (dataSource (this w)) eqn:Hsrc;
    try (exists w; split; [reflexivity|]; intros _; done).
  destruct (fetchFromNetwork env) as [[j|]|reason] eqn:Hf;
    try (exists w; split; [reflexivity|]; intros _; done).
  destruct (materialize_spec j (heap w)) as (ro & Hro & ->).
  assert (Hold : ∀ r, r ∈ dom (heap w) →
            (<[ro:=json_offers j]> (heap w) : Heap) !! r = heap w !! r).
  { intros r Hr. apply lookup_insert_ne. intros ->. done. }
  simpl. destruct (data (this w)) as [cached|] eqn:Hd.
  - destruct (isNewer _ _) eqn:Hnew.
    + eexists. split; [reflexivity|].
      intros [H|[H|H]]; [done| by destruct (H j) |].
      specialize (H cached j eq_refl eq_refl). simpl in H. congruence.
    + eexists. split; [reflexivity|]. intros _. done.
  - eexists. split; [reflexivity|]. intros _. done.
Qed.

Lemma refreshIfNeeded_silent_witness :
  ∃ w', refreshIfNeeded Scenario.nothing Scenario.archivists = Returned w' ∧
    this w' = this Scenario.archivists ∧ dispatched w' = dispatched Scenario.archivists.
Proof.
  pose proof (refreshIfNeeded_silent Scenario.nothing Scenario.archivists) as (w' & Hrun & H).
  exists w'. split; [exact Hrun|].
  assert (Hfail : ∀ j, fetchFromNetwork Scenario.nothing ≠ Fulfilled (Some j)) by done.
  destruct (H (or_intror (or_introl Hfail))) as (H1 & H2 & _).
  split; assumption.
Defined.

(** X5: when the dataset came from the cache and the fetched one is
    strictly newer, refreshIfNeeded installs it: [data] is the new
    dataset, whose offers array is new; [filteredOffers] is another new
    array (neither an array that existed before nor [data.offers])
    with all the offers of the new dataset; dataSource is "network";
    the arrays that existed are unchanged; the dataset is handed to
    storage, one dataRefreshed carrying the new filteredOffers is
    dispatched and [filters] is left as it was; after that, further
    calls do nothing. *)
Theorem refreshIfNeeded_replaces_once (env : Env) (w : World) (cached : Dataset.t)
    (j : DatasetJson) :
  dataSource (this w) = cache →
  data (this w) = Some cached →
  fetchFromNetwork env = Fulfilled (Some j) →
  isNewer (Dataset.meta cached ≫= generatedAt) (json_meta j ≫= generatedAt) = true →
  ∃ w' d r, refreshIfNeeded env w = Returned w' ∧
    data (this w') = Some d ∧ Dataset.meta d = json_meta j ∧
    all_offers w' = json_offers j ∧ filtered w' = json_offers j ∧
    filteredOffers (this w') = Some r ∧
    (r ∉ dom (heap w)) ∧ (Dataset.offers d ∉ dom (heap w)) ∧ r ≠ Dataset.offers d ∧
    (∀ r', r' ∈ dom (heap w) → heap w' !! r' = heap w !! r') ∧
    dataSource (this w') = network ∧
    filters (this w') = filters (this w) ∧
    dispatched w' = dispatched w ++ [dataRefreshed r] ∧
    saved w' = saved w ++ [d] ∧
    ∀ env', refreshIfNeeded env' w' = Returned w'.
Proof.
  intros Hsrc Hd Hf Hnew. unfold refreshIfNeeded at 1. rewrite Hsrc, Hf.
  destruct (materialize_spec j (heap w)) as (ro & Hro & ->).
  simpl. rewrite Hd. simpl. rewrite Hnew.
  pose proof (is_fresh (dom (<[ro:=json_offers j]> (heap w)))) as Hrf.
  set (rf := fresh (dom (<[ro:=json_offers j]> (heap w)))) in *. clearbody rf.
  rewrite dom_insert_L in Hrf.
  assert (Hne : rf ≠ ro) by set_solver.
  assert (Hrf' : rf ∉ dom (heap w)) by set_solver.
  eexists _, _, rf. split; [reflexivity|]. simpl.
  unfold all_offers, filtered; simpl.
  rewrite !lookup_total_insert_eq.
  rewrite lookup_total_insert_ne by done.
  rewrite lookup_total_insert_eq.
  split; [done|]. split; [done|]. split; [done|]. split; [done|]. split; [done|].
  split; [done|]. split; [done|]. split; [done|].
  split.
  { intros r' Hr'. rewrite !lookup_insert_ne; [done| |]; intros ->; done. }
  split; [done|]. split; [done|]. split; [done|]. split; [done|].
  intros env'. reflexivity.
Qed.

Lemma refreshIfNeeded_replaces_once_witness :
  ∃ w' r, refreshIfNeeded (Scenario.serving Scenario.refreshed_offers) Scenario.archivists
        = Returned w' ∧
    filteredOffers (this w') = Some r ∧ (r ∉ dom (heap Scenario.archivists)) ∧
    dataSource (this w') = network ∧
    ∀ env', refreshIfNeeded env' w' = Returned w'.
Proof.
  edestruct (refreshIfNeeded_replaces_once (Scenario.serving Scenario.refreshed_offers)
               Scenario.archivists) as (w' & d & r & Hrun & H).
  - vm_compute. reflexivity.
  - vm_compute. reflexivity.
  - reflexivity.
  - vm_compute. reflexivity.
  - exists w', r. split; [exact Hrun|].
    destruct H as (_ & _ & _ & _ & Hr & Hfr & _ & _ & _ & Hs & _ & _ & _ & Hn).
    split; [exact Hr|]. split; [exact Hfr|]. split; assumption.
Defined.

Lemma ltb_compare (a b : string) : String.ltb a b = true ↔ String.compare a b = Lt.
Proof. unfold String.ltb. destruct (String.compare a b); intuition congruence. Qed.

(** X6: the version test of refreshIfNeeded is a strict comparison: a
    dataset with the same generation timestamp, with an older one or
    without one never replaces the cached one; any timestamp replaces a
    missing one; and two timestamps are never each newer than the
    other. *)
Theorem isNewer_strict (c n : option string) :
  isNewer c c = false ∧
  isNewer c None = false ∧
  isNewer c (Some EmptyString) = false ∧
  (truthy_ostring n = true → isNewer None n = true) ∧
  (truthy_ostring c = true → isNewer c n = true → isNewer n c = false).
Proof.
  unfold isNewer. split; [|split; [|split; [|split]]].
  - destruct c as [s|]; [|done]. simpl.
    destruct (truthy_string s); [|done]. simpl.
    destruct (String.ltb s s) eqn:E; [|done].
    apply ltb_compare in E. pose proof (String.compare_antisym s s) as Ha.
    rewrite E in Ha. discriminate.
  - done.
  - done.
  - intros ->. done.
  - intros Hc. destruct c as [s|]; [|done]. destruct n as [t|]; [|done].
    simpl in *. rewrite Hc. simpl.
    destruct (truthy_string t); [|done]. simpl.
    intros Hlt. apply ltb_compare in Hlt.
    destruct (String.ltb t s) eqn:E; [|done].
    apply ltb_compare in E. rewrite String.compare_antisym, Hlt in E. discriminate.
Qed.

Lemma isNewer_strict_witness :
  isNewer (Some "2025-01-11T06:00:00") (Some "2025-01-10T06:00:00") = false.
Proof.
  pose proof (isNewer_strict (Some "2025-01-10T06:00:00") (Some "2025-01-11T06:00:00"))
    as (_ & _ & _ & _ & H).
  apply H; reflexivity.
Defined.

(** X7: Storage.loadAggregatedData never rejects; it resolves to a
    dataset exactly when the offers store is read and not empty and
    the other reads succeed, and that dataset is made of what was
    read; every other case resolves to null. *)
Theorem loadAggregatedData_total (env : Env) :
  ∃ r, Storage_loadAggregatedData env = Fulfilled r ∧
    ∀ j, r = Some j ↔
      ∃ offers m ds deps u,
        DataProcessor.getOffers env = Fulfilled offers ∧ offers ≠ [] ∧
        getAllMeta env = Fulfilled m ∧ getDates env = Fulfilled ds ∧
        getDepartments env = Fulfilled deps ∧ getSummaries env = Fulfilled u ∧
        j = mkDatasetJson offers deps ds (Some m).
Proof.
  unfold Storage_loadAggregatedData.
  destruct (DataProcessor.getOffers env) as [offers|reason].
  - case_bool_decide as He.
    + exists None. split; [done|]. intros j. split; [done|].
      intros (o & m & ds & deps & u & [= <-] & Hne & _).
      by apply nil_length_inv in He.
    + destruct (getAllMeta env) as [m|], (getDates env) as [ds|],
        (getDepartments env) as [deps|], (getSummaries env) as [u|];
        try (exists None; split; [done|]; intros j; split; [done|];
             intros (o & m' & ds' & deps' & u' & _ & _ & H1 & H2 & H3 & H4 & _); congruence).
      eexists. split; [reflexivity|]. intros j. split.
      * intros [= <-]. exists offers, m, ds, deps, u. repeat split; try done.
        intros ->. done.
      * intros (o & m' & ds' & deps' & u' & [= <-] & _ & [= <-] & [= <-] & [= <-] & _ & ->).
        done.
  - exists None. split; [done|]. intros j. split; [done|].
    intros (o & m & ds & deps & u & H & _). congruence.
Qed.


Lemma forEach_file_by_date (offers : list Offer) (acc : gmap string (list Offer)) :
  (∀ o, o ∈ offers → to_key (date o) ∉ inherited) →
  ∃ byDate, forEach_throwing file_by_date acc offers = Some byDate ∧
    ∀ k, byDate !! k =
      match acc !! k, filter (λ o, to_key (date o) = k) offers with
      | Some bucket, more => Some (bucket ++ more)
      | None, [] => None
      | None, more => Some more
      end.
Proof.
  revert acc. induction offers as [|o offers IH]; intros acc Hok.
  - exists acc. split; [done|]. intros k. simpl.
    destruct (acc !! k); [by rewrite app_nil_r|done].
  - assert (Ho : to_key (date o) ∉ inherited) by (apply Hok; left).
    assert (Hrest : ∀ o', o' ∈ offers → to_key (date o') ∉ inherited)
      by (intros o' Ho'; apply Hok; by right).
    simpl. unfold file_by_date at 1.
    destruct (acc !! to_key (date o)) as [bucket|] eqn:Hacc.
    + destruct (IH (<[to_key (date o) := bucket ++ [o]]> acc) Hrest) as (m & -> & Hm).
      exists m. split; [done|]. intros k. rewrite Hm, filter_cons.
      destruct (decide (to_key (date o) = k)) as [<-|Hne].
      * rewrite lookup_insert_eq, Hacc. by rewrite <- app_assoc.
      * by rewrite lookup_insert_ne.
    + rewrite bool_decide_eq_false_2 by done.
      destruct (IH (<[to_key (date o) := [o]]> acc) Hrest) as (m & -> & Hm).
      exists m. split; [done|]. intros k. rewrite Hm, filter_cons.
      destruct (decide (to_key (date o) = k)) as [<-|Hne].
      * rewrite lookup_insert_eq, Hacc. done.
      * by rewrite lookup_insert_ne.
Qed.

Lemma forEach_file_by_date_throws (offers : list Offer) (acc : gmap string (list Offer)) :
  (∃ o, o ∈ offers ∧ to_key (date o) ∈ inherited) →
  (∀ k, k ∈ inherited → acc !! k = None) →
  forEach_throwing file_by_date acc offers = None.
Proof.
  revert acc. induction offers as [|o offers IH]; intros acc (bad & Hin & Hbad) Hacc.
  - by apply elem_of_nil in Hin.
  - simpl. unfold file_by_date at 1.
    destruct (decide (to_key (date o) ∈ inherited)) as [Hk|Hk].
    + rewrite (Hacc _ Hk). by rewrite bool_decide_eq_true_2.
    + assert (Hrest : ∃ o', o' ∈ offers ∧ to_key (date o') ∈ inherited).
      { apply elem_of_cons in Hin as [->|Hin]; [done|]. by exists bad. }
      destruct (acc !! to_key (date o)) as [bucket|] eqn:E.
      * apply IH; [done|]. intros k Hki. rewrite lookup_insert_ne; [by apply Hacc|].
        intros <-. done.
      * rewrite bool_decide_eq_false_2 by done.
        apply IH; [done|]. intros k Hki. rewrite lookup_insert_ne; [by apply Hacc|].
        intros <-. done.
Qed.

Lemma filter_on_date (k : string) (offers : list Offer) :
  k ≠ "null" →
  filter (λ o, to_key (date o) = k) offers = on_date k offers.
Proof.
  intros Hk. unfold on_date. apply list_filter_iff. intros o.
  destruct (date o) as [d|]; simpl; split; congruence.
Qed.

(** X8: getOffersByDate files the filtered offers under their date:
    when no date is the name of a property of Object.prototype, the
    bucket of a date holds exactly the filtered offers of that date, in
    the order of filteredOffers, and a date without offer has no
    bucket. *)
Theorem getOffersByDate_buckets (w : World) (r : loc) :
  filteredOffers (this w) = Some r →
  (∀ o, o ∈ filtered w → to_key (date o) ∉ inherited) →
  ∃ byDate, getOffersByDate w = inr byDate ∧
    ∀ k, k ≠ "null" → k ≠ "undefined" →
      (on_date k (filtered w) = [] → byDate !! k = None) ∧
      (on_date k (filtered w) ≠ [] → byDate !! k = Some (on_date k (filtered w))).
Proof.
  intros Hr Hok. unfold getOffersByDate, filtered in *. rewrite Hr in *. simpl in *.
  destruct (forEach_file_by_date (heap w !!! r) ∅ Hok) as (m & -> & Hm).
  exists m. split; [done|]. intros k Hk _.
  rewrite Hm, lookup_empty, (filter_on_date k _ Hk).
  destruct (on_date k (heap w !!! r)); split; done.
Qed.

Lemma getOffersByDate_buckets_witness :
  ∃ byDate, getOffersByDate Published.dashboard = inr byDate ∧
    byDate !! "2025-01-02" = Some (on_date "2025-01-02" (filtered Published.dashboard)).
Proof.
  assert (Hr : ∃ r, filteredOffers (this Published.dashboard) = Some r)
    by (eexists; vm_compute; reflexivity).
  destruct Hr as (r & Hr).
  assert (Hok : ∀ o, o ∈ filtered Published.dashboard → to_key (date o) ∉ inherited).
  { apply Forall_forall. apply (bool_decide_unpack _). vm_compute. reflexivity. }
  destruct (getOffersByDate_buckets Published.dashboard r Hr Hok) as (m & Hrun & Hm).
  exists m. split; [exact Hrun|].
  apply Hm; [discriminate|discriminate|]. vm_compute. discriminate.
Defined.

(** X9: getOffersByDate throws a TypeError before the dataset is
    loaded, and as soon as one filtered offer has a date that names a
    property of Object.prototype (a date such as "constructor"). *)
Theorem getOffersByDate_throws (w : World) :
  filteredOffers (this w) = None ∨
  (∃ o, o ∈ filtered w ∧ to_key (date o) ∈ inherited) →
  getOffersByDate w = inl TypeError.
Proof.
  unfold getOffersByDate, filtered.
  destruct (filteredOffers (this w)) as [r|]; simpl.
  - intros [?|Hbad]; [done|].
    rewrite forEach_file_by_date_throws; [done|done|]. intros k _. apply lookup_empty.
  - done.
Qed.

Lemma getOffersByDate_throws_witness :
  getOffersByDate (initial false) = inl TypeError.
Proof. apply getOffersByDate_throws. left. reflexivity. Defined.

End DataProcessorMoreFacts.

(** ** More of SalaryUtils and of getStats *)

Module StatsMoreFacts.
Import DataProcessor DataProcessorMore Double DoubleFacts Stats StatsSpec StatsFacts StatsMore.

Lemma sorted_lookup_le (l : list Q) (i j : nat) (a b : Q) :
  StronglySorted (λ a b : Q, Qle (Qminus a b) 0) l →
  (i ≤ j)%nat → l !! i = Some a → l !! j = Some b → Qle a b.
Proof.
  intros Hs Hij Hi Hj.
  destruct (decide (i = j)) as [->|Hne].
  - assert (a = b) as -> by congruence. apply Qle_refl.
  - assert (H : Qle (Qminus a b) 0).
    { apply (OffersModalFacts.StronglySorted_lookup _ l i j a b Hs); [lia|done|done]. }
    lra.
Qed.



Lemma magnitude_nonneg (l : list Q) : Qle 0 (magnitude l).
Proof.
  induction l as [|v l IH]; simpl; [done|].
  pose proof (Qabs_nonneg v). lra.
Qed.

Lemma magnitude_elem (l : list Q) (v : Q) : v ∈ l → Qle (Qabs v) (magnitude l).
Proof.
  induction l as [|x l IH]; [by intros ?%elem_of_nil|].
  intros [->|Hv]%elem_of_cons; simpl.
  - pose proof (magnitude_nonneg l). lra.
  - pose proof (Qabs_nonneg x). specialize (IH Hv). lra.
Qed.

Lemma magnitude_perm (l l' : list Q) : l ≡ₚ l' → Qeq (magnitude l) (magnitude l').
Proof.
  induction 1 as [|x l l' _ IH|x y l|l l' l'' _ IH1 _ IH2]; simpl.
  - reflexivity.
  - by rewrite IH.
  - ring.
  - by rewrite IH1.
Qed.

Lemma exact_sum_perm (l l' : list Q) : l ≡ₚ l' → Qeq (exact_sum l) (exact_sum l').
Proof.
  induction 1 as [|x l l' _ IH|x y l|l l' l'' _ IH1 _ IH2]; simpl.
  - reflexivity.
  - by rewrite IH.
  - ring.
  - by rewrite IH1.
Qed.

Lemma exact_sum_bounds (l : list Q) (lo hi : Q) :
  (∀ v, v ∈ l → Qle lo v ∧ Qle v hi) →
  Qle (lo * inject_Z (Z.of_nat (length l))) (exact_sum l) ∧
  Qle (exact_sum l) (hi * inject_Z (Z.of_nat (length l))).
Proof.
  induction l as [|x l IH]; intros Hb.
  - change (inject_Z (Z.of_nat (length (@nil Q)))) with 0%Q.
    change (exact_sum []) with 0%Q. split; lra.
  - assert (Hx : Qle lo x ∧ Qle x hi) by (apply Hb; left).
    destruct IH as (H1 & H2); [intros v Hv; apply Hb; by right|].
    assert (E : Qeq (inject_Z (Z.of_nat (length (x :: l))))
                    (inject_Z (Z.of_nat (length l)) + 1)).
    { simpl length. rewrite Nat2Z.inj_succ, <- Z.add_1_r, inject_Z_plus. reflexivity. }
    rewrite E. simpl exact_sum.
    set (n := inject_Z (Z.of_nat (length l))) in *. clearbody n.
    set (total := exact_sum l) in *. clearbody total.
    split; lra.
Qed.

(** Integers whose magnitudes add up to 2^53 at most are added
    without rounding. *)
Lemma sum_integers (l : list Q) (acc : Q) :
  integer acc → Forall integer l →
  Qle (Qabs acc + magnitude l) (inject_Z (2 ^ 53)) →
  ∃ r, foldl (λ a b, plus a (Finite b)) (Finite acc) l = Finite r ∧
    Qeq r (acc + exact_sum l).
Proof.
  revert acc. induction l as [|v l IH]; intros acc Hacc Hl Hb; simpl.
  - exists acc. split; [done|]. ring.
  - apply Forall_cons in Hl as (Hv & Hl).
    destruct Hacc as (k & Hk). destruct Hv as (n & Hn).
    simpl in Hb.
    pose proof (magnitude_nonneg l) as Hm.
    pose proof (Qabs_triangle acc v) as Ht.
    destruct (rounded_integer (acc + v) (k + n)) as (r & Hr & Er).
    { rewrite Hk, Hn, inject_Z_plus. reflexivity. }
    { lra. }
    rewrite Hr.
    destruct (IH r) as (r' & Hr' & Er'); [|done| |].
    { exists (k + n)%Z. rewrite Er, Hk, Hn, inject_Z_plus. reflexivity. }
    { rewrite Er. lra. }
    exists r'. split; [done|]. rewrite Er', Er. ring.
Qed.

(** X30: when the valid salaries are integers whose magnitudes add up
    to 2^53 at most, calculateStats adds them without rounding: the
    mean is the exact sum divided by the count and rounded once to a
    double; it is finite and lies between min and max. *)
Theorem calculateStats_integer_mean (salaries : list (option Q)) (s : SalaryUtils.Stats) :
  SalaryUtils.calculateStats salaries = Some s →
  (∀ v, Some v ∈ salaries → integer v) →
  Qle (magnitude (omap id salaries)) (inject_Z (2 ^ 53)) →
  ∃ lo hi total m,
    SalaryUtils.min s = Some lo ∧ SalaryUtils.max s = Some hi ∧
    Qeq total (exact_sum (omap id salaries)) ∧
    SalaryUtils.mean s = rounded (total / inject_Z (Z.of_nat (SalaryUtils.count s))) ∧
    SalaryUtils.mean s = Finite m ∧ Qle lo m ∧ Qle m hi.
Proof.
  unfold SalaryUtils.calculateStats. case_bool_decide as Hlen; [done|].
  intros Heq Hint Hmag.
  assert (Hs : s = SalaryUtils.summary (Array_sort (λ a b, Qminus a b) (omap id salaries)))
    by congruence.
  subst s. clear Heq.
  set (valid := omap id salaries) in *.
  set (sorted := Array_sort (λ a b, Qminus a b) valid) in *.
  assert (Hperm : sorted ≡ₚ valid) by apply SortFacts.Array_sort_perm.
  assert (Hsorted : StronglySorted (λ a b : Q, Qle (Qminus a b) 0) sorted)
    by apply (SortFacts.Array_sort_sorted _ OffersModalFacts.difference_consistent).
  assert (Hl : length sorted = length valid) by (by rewrite Hperm).
  assert (Hpos : (0 < length sorted)%nat) by lia.
  assert (Hvalid : ∀ v, v ∈ sorted → integer v).
  { intros v Hv. apply Hint. rewrite Hperm in Hv. unfold valid in Hv.
    apply list_elem_of_omap in Hv as (x & Hx & E). simpl in E. by subst x. }
  destruct (lookup_lt_is_Some_2 sorted 0%nat) as [lo Hlo]; [lia|].
  destruct (lookup_lt_is_Some_2 sorted (length sorted - 1)%nat) as [hi Hhi]; [lia|].
  assert (Hbounds : ∀ v, v ∈ sorted → Qle lo v ∧ Qle v hi).
  { intros v Hv. apply list_elem_of_lookup in Hv as (i & Hi).
    assert (i < length sorted)%nat by (by eapply lookup_lt_Some).
    split.
    - apply (sorted_lookup_le sorted 0 i); [done|lia|done|done].
    - apply (sorted_lookup_le sorted i (length sorted - 1)); [done|lia|done|done]. }
  assert (Hmag' : Qle (magnitude sorted) (inject_Z (2 ^ 53))).
  { by rewrite (magnitude_perm sorted valid Hperm). }
  destruct (sum_integers sorted (inject_Z 0)) as (total & Htotal & Etotal).
  { by exists 0%Z. }
  { by apply Forall_forall. }
  { change (Qabs (inject_Z 0)) with 0%Q. lra. }
  assert (Etotal' : Qeq total (exact_sum sorted)).
  { rewrite Etotal. change (inject_Z 0) with 0%Q. ring. }
  set (len := inject_Z (Z.of_nat (length sorted))).
  assert (Hn : Qlt 0 len).
  { unfold len, Qlt; simpl. lia. }
  destruct (exact_sum_bounds sorted lo hi Hbounds) as (Hs1 & Hs2). fold len in Hs1, Hs2.
  assert (Hin_lo : lo ∈ sorted) by (by eapply list_elem_of_lookup_2).
  assert (Hin_hi : hi ∈ sorted) by (by eapply list_elem_of_lookup_2).
  destruct (Hvalid lo Hin_lo) as (nlo & Elo).
  destruct (Hvalid hi Hin_hi) as (nhi & Ehi).
  pose proof (magnitude_elem sorted lo Hin_lo) as Hmlo.
  pose proof (magnitude_elem sorted hi Hin_hi) as Hmhi.
  assert (Hnlo : (- 2 ^ 53 ≤ nlo)%Z).
  { assert (Hb : Qle (Qabs lo) (inject_Z (2 ^ 53))) by lra.
    apply Qabs_Qle_condition in Hb as (Hb & _). rewrite Elo, <- inject_Z_opp in Hb.
    by rewrite <- Zle_Qle in Hb. }
  assert (Hnhi : (nhi ≤ 2 ^ 53)%Z).
  { assert (Hb : Qle (Qabs hi) (inject_Z (2 ^ 53))) by lra.
    apply Qabs_Qle_condition in Hb as (_ & Hb). rewrite Ehi in Hb.
    by rewrite <- Zle_Qle in Hb. }
  destruct (rounded_between (total / len) nlo nhi Hnlo Hnhi) as (m & Hm & Hm1 & Hm2).
  { rewrite <- Elo. apply Qle_shift_div_l; [done|]. by rewrite Etotal'. }
  { rewrite <- Ehi. apply Qle_shift_div_r; [done|]. by rewrite Etotal'. }
  exists lo, hi, total, m.
  unfold SalaryUtils.summary.
  cbn [SalaryUtils.min SalaryUtils.max SalaryUtils.mean SalaryUtils.count].
  fold sorted. rewrite Htotal.
  assert (Hdiv : divided (Finite total) len = rounded (total / len)).
  { unfold divided. destruct (Qeq_bool len 0) eqn:E; [|done].
    apply Qeq_bool_iff in E. rewrite E in Hn. by apply Qlt_irrefl in Hn. }
  fold len. rewrite Hdiv.
  split; [done|]. split; [done|].
  split; [by rewrite Etotal', (exact_sum_perm sorted valid Hperm)|].
  split; [done|]. split; [done|]. rewrite Elo, Ehi. done.
Qed.

Lemma calculateStats_integer_mean_witness :
  ∃ s lo hi m,
    SalaryUtils.calculateStats [Some (inject_Z 30000); None; Some (inject_Z 24001)] = Some s ∧
    SalaryUtils.min s = Some lo ∧ SalaryUtils.max s = Some hi ∧
    SalaryUtils.mean s = Finite m ∧ Qle lo m ∧ Qle m hi.
Proof.
  eexists.
  edestruct (calculateStats_integer_mean [Some (inject_Z 30000); None; Some (inject_Z 24001)])
    as (lo & hi & total & m & H1 & H2 & _ & _ & H3 & H4 & H5).
  - vm_compute. reflexivity.
  - intros v Hv. apply elem_of_cons in Hv as [[= ->]|Hv]; [by exists 30000%Z|].
    apply elem_of_cons in Hv as [[=]|Hv].
    apply elem_of_cons in Hv as [[= ->]|Hv]; [by exists 24001%Z|].
    by apply elem_of_nil in Hv.
  - vm_compute. discriminate.
  - exists lo, hi, m. split; [reflexivity|]. split; [exact H1|]. split; [exact H2|].
    split; [exact H3|]. split; [exact H4|exact H5].
Defined.

(** X29: the median and the mean are doubles.  Of six salaries equal
    to the double nearest to 20000.04 the mean is larger than the
    maximum (the sum is rounded at each step); of two salaries equal
    to the double nearest to 1e308 the median and the mean are
    Infinity. *)
Lemma calculateStats_rounds :
  (∃ x s m, round (2000004 # 100) = Some x ∧
     SalaryUtils.calculateStats (replicate 6 (Some x)) = Some s ∧
     SalaryUtils.max s = Some x ∧ SalaryUtils.mean s = Finite m ∧ Qlt x m) ∧
  (∃ y s, round (inject_Z (10 ^ 308)) = Some y ∧
     SalaryUtils.calculateStats [Some y; Some y] = Some s ∧
     SalaryUtils.max s = Some y ∧
     SalaryUtils.median s = Some (Infinity false) ∧
     SalaryUtils.mean s = Infinity false).
Proof.
  split.
  - eexists _, _, _. split; [vm_compute; reflexivity|].
    split; [vm_compute; reflexivity|]. split; [reflexivity|].
    split; [reflexivity|]. reflexivity.
  - eexists _, _. split; [vm_compute; reflexivity|].
    split; [vm_compute; reflexivity|]. split; [reflexivity|].
    split; reflexivity.
Qed.


Lemma dashboard_plain : plain_keys (filtered Published.dashboard).
Proof.
  intros o dim Ho. revert o Ho. apply Forall_forall.
  destruct dim; apply (bool_decide_unpack _); vm_compute; reflexivity.
Qed.


Lemma sum_salaries_insert (m : gmap string Tally) (k : string) (g : Tally) :
  sum_salaries (<[k := g]> m)
  = (from_option SalaryUtils.count 0%nat (salaryStats (summarize g)) + sum_salaries (delete k m))%nat.
Proof.
  rewrite <- insert_delete_eq. unfold sum_salaries.
  rewrite map_fold_insert_L; [done| |apply lookup_delete_eq].
  intros. lia.
Qed.

Lemma sum_salaries_lookup (m : gmap string Tally) (k : string) :
  sum_salaries m =
  (from_option (λ g, from_option SalaryUtils.count 0%nat (salaryStats (summarize g))) 0%nat (m !! k)
   + sum_salaries (delete k m))%nat.
Proof.
  destruct (m !! k) as [g|] eqn:Hk; simpl.
  - rewrite <- (insert_delete_id m k g) at 1 by done.
    rewrite sum_salaries_insert. by rewrite delete_delete_eq.
  - by rewrite delete_id.
Qed.

Lemma summarize_count (g : Tally) :
  from_option SalaryUtils.count 0%nat (salaryStats (summarize g)) = length (salaries g).
Proof.
  unfold summarize. cbn [salaryStats].
  destruct (SalaryUtils.calculateStats (Some <$> salaries g)) as [s|] eqn:E; simpl.
  - apply calculateStats_no_NaN in E as (_ & -> & _). by rewrite omap_id_fmap_Some.
  - apply calculateStats_None in E. rewrite omap_id_fmap_Some in E. by rewrite E.
Qed.

Lemma sum_salaries_file (key : Offer → string) (nm : string → option string)
    (m : gmap string Tally) (o : Offer) :
  sum_salaries (file key nm m o)
  = (sum_salaries m + if has_salary o then 1%nat else 0%nat)%nat.
Proof.
  unfold file. rewrite sum_salaries_insert, (sum_salaries_lookup m (key o)).
  rewrite summarize_count.
  assert (E : length (option_list (usable_salary o)) = if has_salary o then 1%nat else 0%nat).
  { unfold usable_salary, has_salary. destruct (salaryGrossAnnual o) as [q|]; [|done].
    destruct (truthy_num (Some q)); done. }
  unfold counted. cbn [salaries]. rewrite length_app, E.
  destruct (m !! key o) as [g|]; cbn [from_option default salaries length id];
    [rewrite summarize_count|]; destruct (has_salary o); lia.
Qed.

Lemma sum_salaries_foldl (key : Offer → string) (nm : string → option string)
    (offers : list Offer) (m : gmap string Tally) :
  sum_salaries (foldl (file key nm) m offers)
  = (sum_salaries m + length (filter (λ o, has_salary o = true) offers))%nat.
Proof.
  revert m. induction offers as [|o offers IH]; intros m; simpl; [lia|].
  rewrite IH, sum_salaries_file, filter_cons.
  destruct (has_salary o); simpl; lia.
Qed.

(** X12: on a dataset and a filtered view in which no offer is grouped
    under the name of a property of Object.prototype, and on an
    Object.prototype without enumerable property, the
    [salaryStats.count] of the groups of each dimension add up to the
    number of filtered offers with a truthy salaryGrossAnnual (a
    salary of 0 is not counted), which is at most [total]. *)
Theorem getStats_salary_counts (w : World) (d : Dataset.t) (r : loc) :
  data (this w) = Some d → filteredOffers (this w) = Some r →
  plain_keys (filtered w) →
  ∃ st, getStats w false = (inr st, false) ∧
    (∀ dim, sum_salary_counts (groups dim st)
            = length (filter (λ o, has_salary o = true) (filtered w))) ∧
    (length (filter (λ o, has_salary o = true) (filtered w)) ≤ total st)%nat.
Proof.
  intros Hd Hr Hkeys.
  destruct (getStats_groups_grouped w d r Hd Hr Hkeys) as (st & Hst & Ht & Hg).
  exists st. split; [done|]. split.
  - intros dim. rewrite Hg. unfold sum_salary_counts, grouped. rewrite map_fold_fmap.
    change (sum_salaries (foldl (file (key_of dim) (name_of d dim)) ∅ (filtered w))
            = length (filter (λ o, has_salary o = true) (filtered w))).
    rewrite sum_salaries_foldl. unfold sum_salaries. by rewrite map_fold_empty.
  - rewrite Ht. apply length_filter.
Qed.

Lemma getStats_salary_counts_witness :
  ∃ st, getStats Published.dashboard false = (inr st, false) ∧
    sum_salary_counts (groups Department st) = 2%nat.
Proof.
  edestruct (getStats_salary_counts Published.dashboard) as (st & Hst & Hsum & _);
    [vm_compute; reflexivity|vm_compute; reflexivity|exact dashboard_plain|].
  exists st. split; [exact Hst|].
  rewrite Hsum. vm_compute. reflexivity.
Defined.

End StatsMoreFacts.

(** ** getTopEmployers *)

Module TopEmployersFacts.
Import DataProcessor DataProcessorMore EmployersSpec.

Lemma bump_tallied (c k : string) (l : Counts) :
  tallied k (bump c l) = if bool_decide (k = c) then S (tallied c l) else tallied k l.
Proof.
  induction l as [|[k' n] l IH]; simpl.
  - repeat case_bool_decide; congruence.
  - destruct (decide (k' = c)) as [->|Hne].
    + rewrite bool_decide_eq_true_2 by done. simpl.
      repeat case_bool_decide; congruence.
    + rewrite bool_decide_eq_false_2 by done. simpl. rewrite IH.
      repeat case_bool_decide; congruence.
Qed.

Lemma bump_keys (c : string) (l : Counts) :
  (bump c l).*1 = if bool_decide (c ∈ l.*1) then l.*1 else l.*1 ++ [c].
Proof.
  induction l as [|[k n] l IH]; csimpl.
  - done.
  - destruct (decide (k = c)) as [->|Hk].
    + rewrite !bool_decide_eq_true_2; [done|left|done].
    + rewrite (bool_decide_eq_false_2 (k = c)) by done. csimpl. rewrite IH.
      destruct (decide (c ∈ l.*1)) as [Hin|Hin].
      * rewrite !bool_decide_eq_true_2; [done|by right|done].
      * rewrite !bool_decide_eq_false_2; [done| |done].
        intros [->|?]%elem_of_cons; done.
Qed.

Lemma bump_NoDup (c : string) (l : Counts) : NoDup l.*1 → NoDup (bump c l).*1.
Proof.
  intros Hl. rewrite bump_keys. case_bool_decide as Hin; [done|].
  apply NoDup_app. split; [done|]. split; [|apply NoDup_singleton].
  intros x Hx ->%list_elem_of_singleton. done.
Qed.

Lemma bump_Forall (P : string * nat → Prop) (c : string) (l : Counts) :
  (∀ n, P (c, S n)) → Forall P l → Forall P (bump c l).
Proof.
  intros Hc. induction 1 as [|[k n] l Hx Hl IH]; simpl.
  - by repeat constructor.
  - case_bool_decide; subst; constructor; auto.
Qed.

Lemma tallied_absent (k : string) (l : Counts) : k ∉ l.*1 → tallied k l = 0%nat.
Proof.
  induction l as [|[k' n] l IH]; simpl; [done|].
  intros Hk. apply not_elem_of_cons in Hk as (Hne & Hk).
  rewrite bool_decide_eq_false_2 by done. by apply IH.
Qed.

Lemma tallied_elem (k : string) (n : nat) (l : Counts) :
  NoDup l.*1 → (k, n) ∈ l ↔ k ∈ l.*1 ∧ tallied k l = n.
Proof.
  induction l as [|[k' n'] l IH]; simpl; intros Hnd.
  - split; [by intros ?%elem_of_nil|by intros [?%elem_of_nil _]].
  - apply NoDup_cons in Hnd as (Hk' & Hnd). rewrite !elem_of_cons, (IH Hnd).
    case_bool_decide as E.
    + subst k'. split.
      * intros [Heq|[Hin _]]; [|done]. split; [by left|congruence].
      * intros [_ ->]. by left.
    + split.
      * intros [Heq|[Hin Ht]]; [congruence|]. split; [by right|done].
      * intros [[->|Hin] Ht]; [done|]. right. done.
Qed.

(** What the counting loop of getTopEmployers leaves in [employers]. *)
Lemma tally_employer_foldl (offers : list Offer) (acc : Counts) :
  NoDup acc.*1 → Forall (λ e, (0 < e.2)%nat ∧ e.1 ≠ "") acc →
  NoDup (foldl tally_employer acc offers).*1 ∧
  Forall (λ e, (0 < e.2)%nat ∧ e.1 ≠ "") (foldl tally_employer acc offers) ∧
  ∀ c, c ≠ "" →
    tallied c (foldl tally_employer acc offers) = (tallied c acc + employed c offers)%nat.
Proof.
  revert acc. induction offers as [|o offers IH]; intros acc Hnd Hpos.
  - simpl. split; [done|]. split; [done|]. intros c _. unfold employed. simpl. lia.
  - simpl. unfold tally_employer at 2 4 6. unfold employed.
    destruct (company o) as [c|] eqn:Hc.
    + unfold truthy_string. case_bool_decide as He; simpl.
      * subst c. destruct (IH acc Hnd Hpos) as (H1 & H2 & H3).
        split; [done|]. split; [done|]. intros c Hne. rewrite (H3 c Hne).
        rewrite filter_cons_False; [done|]. rewrite Hc. congruence.
      * destruct (IH (bump c acc)) as (H1 & H2 & H3).
        { by apply bump_NoDup. }
        { apply bump_Forall; [|done]. intros n. simpl. split; [lia|done]. }
        split; [done|]. split; [done|]. intros k Hne. rewrite (H3 k Hne), bump_tallied.
        rewrite filter_cons. unfold employed.
        case_bool_decide as Hk.
        -- subst k. rewrite decide_True by done. simpl. lia.
        -- rewrite decide_False; [done|]. rewrite Hc. congruence.
    + destruct (IH acc Hnd Hpos) as (H1 & H2 & H3).
      split; [done|]. split; [done|]. intros c Hne. rewrite (H3 c Hne).
      rewrite filter_cons_False; [done|]. rewrite Hc. congruence.
Qed.

Lemma employers_spec (offers : list Offer) (k : string) (n : nat) :
  (k, n) ∈ foldl tally_employer [] offers ↔
  k ≠ "" ∧ (0 < n)%nat ∧ n = employed k offers.
Proof.
  destruct (tally_employer_foldl offers []) as (Hnd & Hpos & Ht);
    [constructor|constructor|].
  split.
  - intros Hin. rewrite Forall_forall in Hpos. destruct (Hpos _ Hin) as (Hn & Hk).
    simpl in *. split; [done|]. split; [done|].
    apply tallied_elem in Hin as (_ & <-); [|done]. by rewrite (Ht k Hk).
  - intros (Hk & Hn & ->). apply tallied_elem; [done|]. rewrite (Ht k Hk). simpl.
    split; [|done].
    destruct (decide (k ∈ (foldl tally_employer [] offers).*1)) as [|Hout]; [done|].
    apply tallied_absent in Hout. rewrite (Ht k Hk) in Hout. simpl in Hout. lia.
Qed.

Lemma Object_entries_perm {V : Type} (obj : list (string * V)) : Object_entries obj ≡ₚ obj.
Proof.
  unfold Object_entries. rewrite SortFacts.Array_sort_perm.
  induction obj as [|e obj IH]; [done|].
  rewrite filter_cons. csimpl.
  destruct (array_index e.1) as [i|]; simpl.
  - by rewrite IH.
  - rewrite <- Permutation_middle. by rewrite IH.
Qed.

Lemma by_count_descending_consistent : OffersModal.consistent by_count_descending.
Proof.
  unfold by_count_descending. split.
  - intros a b. split; intros H; lra.
  - intros a b c H1 H2. lra.
Qed.

Lemma by_count_descending_le (a b : string * nat) :
  Qle (by_count_descending a b) 0 → (b.2 ≤ a.2)%nat.
Proof.
  unfold by_count_descending. intros H.
  assert (Hq : Qle (inject_Z (Z.of_nat b.2)) (inject_Z (Z.of_nat a.2))) by lra.
  rewrite <- Zle_Qle in Hq. lia.
Qed.

(** The code counts as [EmployersSpec] does when no company is named
    like a property of Object.prototype. *)
Lemma bump_number (c : string) (l : EmployersSpec.Counts) :
  c ∉ inherited →
  DataProcessorMore.bump c (number <$> l) = number <$> bump c l.
Proof.
  intros Hc. induction l as [|[k n] l IH]; csimpl.
  - rewrite bool_decide_eq_false_2.
    + by rewrite bool_decide_eq_false_2.
    + intros ->. apply Hc. by apply (bool_decide_unpack _).
  - case_bool_decide; [done|]. by rewrite IH.
Qed.

Lemma tally_employer_number (offers : list Offer) (l : EmployersSpec.Counts) :
  (∀ o c, o ∈ offers → company o = Some c → c ∉ inherited) →
  foldl DataProcessorMore.tally_employer (number <$> l) offers
  = number <$> foldl tally_employer l offers.
Proof.
  revert l. induction offers as [|o offers IH]; intros l Hok; [done|].
  simpl. rewrite <- IH by (intros o' c Ho'; apply Hok; by right). f_equal.
  unfold DataProcessorMore.tally_employer, tally_employer.
  destruct (company o) as [c|] eqn:Hc; [|done].
  destruct (truthy_string c); [|done].
  apply bump_number. apply (Hok o); [by left|done].
Qed.

Lemma sort_insert_fmap {A B : Type} (f : A → B) (cmp : A → A → Q) (cmp' : B → B → Q)
    (x : A) (l : list A) :
  (∀ a b, cmp' (f a) (f b) = cmp a b) →
  sort_insert cmp' (f x) (f <$> l) = f <$> sort_insert cmp x l.
Proof.
  intros Hf. induction l as [|y l IH]; csimpl; [done|].
  rewrite Hf. destruct (Qle_bool _ _); csimpl; [done|]. by rewrite IH.
Qed.

Lemma Array_sort_fmap {A B : Type} (f : A → B) (cmp : A → A → Q) (cmp' : B → B → Q)
    (l : list A) :
  (∀ a b, cmp' (f a) (f b) = cmp a b) →
  Array_sort cmp' (f <$> l) = f <$> Array_sort cmp l.
Proof.
  intros Hf. induction l as [|x l IH]; csimpl; [done|].
  rewrite IH. by apply sort_insert_fmap.
Qed.

Lemma Object_entries_number (l : EmployersSpec.Counts) :
  Object_entries (number <$> l) = number <$> Object_entries l.
Proof.
  unfold Object_entries. rewrite fmap_app. f_equal.
  - assert (E : omap (λ e : string * Count, (λ i, (i, e)) <$> array_index e.1) (number <$> l)
              = (λ p, (p.1, number p.2))
                  <$> omap (λ e : string * nat, (λ i, (i, e)) <$> array_index e.1) l).
    { induction l as [|[k n] l IH]; [done|]. csimpl.
      destruct (array_index k); csimpl; by rewrite IH. }
    rewrite E.
    rewrite (Array_sort_fmap (λ p : N * (string * nat), (p.1, number p.2))
               (λ a b, Qminus (inject_Z (Z.of_N a.1)) (inject_Z (Z.of_N b.1)))) by done.
    rewrite <- !list_fmap_compose. done.
  - induction l as [|[k n] l IH]; [done|]. csimpl. rewrite !filter_cons. simpl.
    destruct (decide (array_index k = None)); csimpl; by rewrite IH.
Qed.

(** X13: when no filtered offer has a company named like a property of
    Object.prototype (constructor, toString, __proto__, ...),
    getTopEmployers lists at most [limit] employers, each once, with
    for each the number of filtered offers it published (at least
    one), in non-increasing order of that number; an employer left out
    has no more offers than any listed one, and is left out only when
    the list is full. *)
Theorem getTopEmployers_top (limit : nat) (w : World) (r : loc) :
  filteredOffers (this w) = Some r →
  (∀ o c, o ∈ filtered w → company o = Some c → c ∉ inherited) →
  ∃ top : list (string * nat),
    getTopEmployers limit w = inr ((λ e, (e.1, Number e.2)) <$> top) ∧
    (length top ≤ limit)%nat ∧
    NoDup top.*1 ∧
    (∀ employer n, (employer, n) ∈ top →
       employer ≠ "" ∧ (0 < n)%nat ∧ n = employed employer (filtered w)) ∧
    (∀ i j a b, (i < j)%nat → top !! i = Some a → top !! j = Some b → (b.2 ≤ a.2)%nat) ∧
    (∀ employer, employer ≠ "" → employer ∉ top.*1 →
       (∀ e, e ∈ top → (employed employer (filtered w) ≤ e.2)%nat) ∧
       ((0 < employed employer (filtered w))%nat → length top = limit)).
Proof.
  intros Hr Hok. unfold getTopEmployers, filtered in *. rewrite Hr in *.
  set (offers := heap w !!! r) in *.
  set (employers := foldl tally_employer [] offers).
  set (ranked := Array_sort by_count_descending (Object_entries employers)).
  exists (take limit ranked).
  split.
  { f_equal. change (@nil (string * Count)) with (number <$> @nil (string * nat)).
    rewrite (tally_employer_number offers [] Hok). fold employers.
    rewrite Object_entries_number.
    rewrite (Array_sort_fmap number by_count_descending) by done.
    by rewrite fmap_take. }
  assert (Hperm : ranked ≡ₚ employers).
  { unfold ranked. by rewrite SortFacts.Array_sort_perm, Object_entries_perm. }
  assert (Hsorted : StronglySorted (λ a b, Qle (by_count_descending a b) 0) ranked)
    by apply (SortFacts.Array_sort_sorted _ by_count_descending_consistent).
  assert (Hnd : NoDup ranked.*1).
  { rewrite Hperm. by destruct (tally_employer_foldl offers []) as (? & _); [constructor..|]. }
  assert (Hle : ∀ i j a b, (i < j)%nat → ranked !! i = Some a → ranked !! j = Some b →
                  (b.2 ≤ a.2)%nat).
  { intros i j a b Hij Ha Hb. apply by_count_descending_le.
    by apply (OffersModalFacts.StronglySorted_lookup _ ranked i j a b Hsorted). }
  split; [rewrite length_take; lia|].
  split.
  { rewrite fmap_take. apply (sublist_NoDup _ ranked.*1 Hnd), sublist_take. }
  split.
  { intros k n Hin. apply subseteq_take in Hin. rewrite Hperm in Hin.
    by apply employers_spec in Hin. }
  split.
  { intros i j a b Hij Ha Hb.
    apply lookup_take_Some in Ha as (Ha & _). apply lookup_take_Some in Hb as (Hb & _).
    by apply (Hle i j). }
  intros k Hk Hout.
  destruct (decide (0 < employed k offers)%nat) as [Hn|Hn].
  - assert (Hin : (k, employed k offers) ∈ ranked).
    { rewrite Hperm. by apply employers_spec. }
    apply list_elem_of_lookup in Hin as (j & Hj).
    assert (Hj' : (limit ≤ j)%nat).
    { destruct (decide (limit ≤ j)%nat) as [|Hlt]; [done|]. exfalso. apply Hout.
      apply list_elem_of_fmap. exists (k, employed k offers). split; [done|].
      apply elem_of_take. exists j. split; [done|lia]. }
    split.
    + intros e He. apply elem_of_take in He as (i & Hi & Hlt).
      apply (Hle i j e (k, employed k offers)); [lia|done|done].
    + intros _. apply length_take_le. apply lookup_lt_Some in Hj. lia.
  - split; [intros e _; lia|lia].
Qed.

Lemma getTopEmployers_top_witness :
  ∃ top : list (string * nat),
    getTopEmployers 1 Published.dashboard = inr ((λ e, (e.1, Number e.2)) <$> top) ∧
    (∀ employer n, (employer, n) ∈ top →
       employer ≠ "" ∧ (0 < n)%nat ∧ n = employed employer (filtered Published.dashboard)).
Proof.
  assert (Hok : ∀ o c, o ∈ filtered Published.dashboard → company o = Some c → c ∉ inherited).
  { assert (E : filtered Published.dashboard = Published.adverts)
      by (vm_compute; reflexivity).
    rewrite E. intros o c Ho. revert o Ho c.
    apply (proj1 (Forall_forall (λ o, ∀ c, company o = Some c → c ∉ inherited) _)).
    repeat constructor; intros c [= <-]; refine (bool_decide_unpack _ _);
      vm_compute; exact I. }
  edestruct (getTopEmployers_top 1 Published.dashboard) as (top & Hrun & _ & _ & Hin & _);
    [vm_compute; reflexivity|exact Hok|].
  exists top. split; [exact Hrun|exact Hin].
Defined.

End TopEmployersFacts.

(** ** More of the offers modal *)

Module OffersModalMoreFacts.
Import OffersModal OffersModalFacts OffersModalMore.

Section StableSort.
Context {A : Type} (cmp : A → A → Q).
Hypothesis Hcons : consistent cmp.

Lemma compares_equal_to_itself (a : A) : Qeq (cmp a a) 0.
Proof.
  destruct Hcons as (Hanti & _).
  destruct (Q_dec (cmp a a) 0) as [[Hlt|Hgt]|Heq]; [| |done].
  - pose proof (proj2 (Hanti a a) Hlt). lra.
  - pose proof (proj1 (Hanti a a) Hgt). lra.
Qed.

Lemma both_before_is_equal (a b : A) :
  Qle (cmp a b) 0 → Qle (cmp b a) 0 → Qeq (cmp a b) 0.
Proof.
  intros Hab Hba. destruct Hcons as (Hanti & _).
  destruct (Q_dec (cmp a b) 0) as [[Hlt|Hgt]|Heq]; [|lra|done].
  pose proof (proj2 (Hanti b a) Hlt). lra.
Qed.

(** A sorted array is left as it is. *)
Lemma Array_sort_sorted_id (l : list A) :
  StronglySorted (λ a b, Qle (cmp a b) 0) l → Array_sort cmp l = l.
Proof.
  induction 1 as [|x l Hs IH Hall]; simpl; [done|].
  rewrite IH. destruct l as [|y l]; simpl; [done|].
  apply Forall_cons in Hall as (Hxy & _).
  apply Qle_bool_iff in Hxy. by rewrite Hxy.
Qed.

(** Two sorted arrays in which the elements that compare equal come
    in the same order are the same array. *)
Lemma stable_sorted_unique (l1 l2 : list A) :
  StronglySorted (λ a b, Qle (cmp a b) 0) l1 →
  StronglySorted (λ a b, Qle (cmp a b) 0) l2 →
  (∀ z, filter (λ y, Qeq_bool (cmp z y) 0) l1 = filter (λ y, Qeq_bool (cmp z y) 0) l2) →
  l1 = l2.
Proof.
  assert (Hrefl : ∀ a, Is_true (Qeq_bool (cmp a a) 0)).
  { intros a. apply Is_true_true, Qeq_bool_iff, compares_equal_to_itself. }
  intros Hs1. revert l2. induction Hs1 as [|x l1 Hs1 IH Hall1]; intros l2 Hs2 Hf.
  - destruct l2 as [|y l2]; [done|]. specialize (Hf y).
    by rewrite filter_cons_True in Hf by done.
  - destruct l2 as [|y l2].
    { specialize (Hf x). by rewrite filter_cons_True in Hf by done. }
    apply StronglySorted_inv in Hs2 as (Hs2 & Hall2).
    assert (Hxy : Is_true (Qeq_bool (cmp x y) 0)).
    { apply Is_true_true, Qeq_bool_iff, both_before_is_equal.
      - assert (Hy : y ∈ x :: l1).
        { pose proof (Hf y) as Hy. rewrite (filter_cons_True _ y l2) in Hy by done.
          assert (Hin : y ∈ filter (λ y0, Qeq_bool (cmp y y0) 0) (x :: l1))
            by (rewrite Hy; left).
          by apply list_elem_of_filter in Hin as (_ & Hin). }
        apply elem_of_cons in Hy as [->|Hy].
        + rewrite compares_equal_to_itself. apply Qle_refl.
        + rewrite Forall_forall in Hall1. by apply Hall1.
      - assert (Hx : x ∈ y :: l2).
        { pose proof (Hf x) as Hx. rewrite (filter_cons_True _ x l1) in Hx by done.
          assert (Hin : x ∈ filter (λ y0, Qeq_bool (cmp x y0) 0) (y :: l2))
            by (rewrite <- Hx; left).
          by apply list_elem_of_filter in Hin as (_ & Hin). }
        apply elem_of_cons in Hx as [->|Hx].
        + rewrite compares_equal_to_itself. apply Qle_refl.
        + rewrite Forall_forall in Hall2. by apply Hall2. }
    assert (x = y) as <-.
    { pose proof (Hf x) as Hx.
      rewrite (filter_cons_True _ x l1), (filter_cons_True _ y l2) in Hx by done.
      congruence. }
    f_equal. apply IH; [done|]. intros z. specialize (Hf z).
    rewrite !filter_cons in Hf. destruct (decide _); congruence.
Qed.

End StableSort.


Section Clicks.
Variable toLowerCase : string → string.
Variable localeCompare : string → string → Z.
Hypothesis Hcoll : collation localeCompare.

Local Abbreviation cmp := (compareFn toLowerCase localeCompare).
Local Abbreviation sortOffers := (sortOffers toLowerCase localeCompare).
Local Abbreviation toggleSort := (toggleSort toLowerCase localeCompare).

Lemma toggleSort_unfold (column : Column) (st : State) :
  toggleSort column st
  = mkState (Array_sort (cmp column (dir_of (next_direction column st))) (currentOffers st))
            1 (Some column) (next_direction column st).
Proof.
  unfold OffersModal.toggleSort, OffersModal.sortOffers, next_direction.
  destruct (sortColumn st) as [c|] eqn:Hc; [|done].
  case_bool_decide as E; [|done]. subst c. done.
Qed.

(** Whether two offers compare equal does not depend on the
    direction. *)
Lemma equal_in_both_directions (col : Column) (d d' : Direction) (a b : Offer) :
  Qeq_bool (cmp col (dir_of d) a b) 0 = Qeq_bool (cmp col (dir_of d') a b) 0.
Proof.
  assert (Hdir : ∀ q d1 d2, Qeq_bool (Qmult q (dir_of d1)) 0 = true →
                            Qeq_bool (Qmult q (dir_of d2)) 0 = true).
  { intros q d1 d2 H. apply Qeq_bool_iff in H. apply Qeq_bool_iff.
    destruct d1, d2; simpl in *;
      change (inject_Z 1) with 1%Q in *; change (inject_Z (-1)) with (-1)%Q in *; lra. }
  assert (Hsame : ∀ q, Qeq_bool (Qmult q (dir_of d)) 0 = Qeq_bool (Qmult q (dir_of d')) 0).
  { intros q. destruct (Qeq_bool (q * dir_of d) 0) eqn:E1, (Qeq_bool (q * dir_of d') 0) eqn:E2;
      try done.
    - apply (Hdir q d d') in E1. congruence.
    - apply (Hdir q d' d) in E2. congruence. }
  destruct col; unfold compareFn, nulls_last, by_text, by_number;
    repeat match goal with |- context [match ?v with Some _ => _ | None => _ end] =>
      destruct v end; try done; apply Hsame.
Qed.

(** X14: a click on a column header sorts by that column, ascending
    unless the column was already the sort column, in which case the
    direction is reversed; the offers are the same, ordered by the
    comparator of that column and direction, and the first page is
    shown. *)
Theorem toggleSort_spec (column : Column) (st : State) :
  let st' := toggleSort column st in
  currentPage st' = 1%nat ∧
  sortColumn st' = Some column ∧
  sortDirection st' =
    (if bool_decide (sortColumn st = Some column)
     then match sortDirection st with asc => desc | desc => asc end
     else asc) ∧
  currentOffers st' ≡ₚ currentOffers st ∧
  StronglySorted (λ a b, Qle (cmp column (dir_of (sortDirection st')) a b) 0)
                 (currentOffers st').
Proof.
  intros st'. unfold st'. rewrite toggleSort_unfold. simpl.
  split; [done|]. split; [done|]. split.
  - unfold next_direction. destruct (sortColumn st) as [c|]; [|done].
    destruct (decide (c = column)) as [->|Hne].
    + by rewrite !bool_decide_eq_true_2.
    + rewrite !bool_decide_eq_false_2; [done|congruence|done].
  - split; [apply SortFacts.Array_sort_perm|].
    apply SortFacts.Array_sort_sorted. by apply compareFn_consistent.
Qed.

(** X15: sortOffers is idempotent: sorting what is sorted changes
    nothing. *)
Theorem sortOffers_idempotent (st : State) :
  sortOffers (sortOffers st) = sortOffers st.
Proof.
  unfold OffersModal.sortOffers at 2.
  destruct (sortColumn st) as [col|] eqn:Hcol.
  - unfold OffersModal.sortOffers. simpl. rewrite Hcol. f_equal.
    apply Array_sort_sorted_id.
    apply SortFacts.Array_sort_sorted. by apply compareFn_consistent.
  - unfold OffersModal.sortOffers. by rewrite Hcol.
Qed.

(** X16: three clicks on the same header show what one click shows:
    the same direction and the same order of the offers, ties
    included. *)
Theorem toggleSort_three_clicks (column : Column) (st : State) :
  toggleSort column (toggleSort column (toggleSort column st)) = toggleSort column st.
Proof.
  rewrite (toggleSort_unfold column st).
  set (d1 := next_direction column st).
  set (l1 := Array_sort (cmp column (dir_of d1)) (currentOffers st)).
  rewrite (toggleSort_unfold column (mkState l1 1 (Some column) d1)).
  assert (Hd2 : ∀ l d, next_direction column (mkState l 1 (Some column) d)
                       = match d with asc => desc | desc => asc end).
  { intros l d. unfold next_direction. simpl. by rewrite bool_decide_eq_true_2. }
  rewrite Hd2. cbn [currentOffers].
  set (d2 := match d1 with asc => desc | desc => asc end).
  set (l2 := Array_sort (cmp column (dir_of d2)) l1).
  rewrite (toggleSort_unfold column (mkState l2 1 (Some column) d2)).
  rewrite Hd2. cbn [currentOffers].
  assert (Hd : match d2 with asc => desc | desc => asc end = d1) by (by destruct d1).
  rewrite Hd. f_equal.
  assert (Hc1 : consistent (cmp column (dir_of d1))) by (by apply compareFn_consistent).
  assert (Hc2 : consistent (cmp column (dir_of d2))) by (by apply compareFn_consistent).
  apply (stable_sorted_unique _ Hc1).
  - by apply SortFacts.Array_sort_sorted.
  - by apply SortFacts.Array_sort_sorted.
  - intros z. rewrite (SortFacts.Array_sort_stable _ Hc1). unfold l2.
    assert (Hsame : ∀ l : list Offer, filter (λ y, Qeq_bool (cmp column (dir_of d1) z y) 0) l
                       = filter (λ y, Qeq_bool (cmp column (dir_of d2) z y) 0) l).
    { intros l. apply list_filter_iff. intros y.
      by rewrite (equal_in_both_directions column d1 d2). }
    rewrite Hsame, (SortFacts.Array_sort_stable _ Hc2). by rewrite <- Hsame.
Qed.

End Clicks.

Lemma toggleSort_spec_witness :
  sortDirection (toggleSort id by_length Title Scenario.modal) = asc.
Proof.
  pose proof (toggleSort_spec id by_length by_length_collation Title Scenario.modal)
    as (_ & _ & H & _).
  rewrite H. reflexivity.
Defined.

Lemma sortOffers_idempotent_witness :
  sortOffers id by_length (sortOffers id by_length Scenario.modal)
  = sortOffers id by_length Scenario.modal.
Proof. exact (sortOffers_idempotent id by_length by_length_collation Scenario.modal). Defined.

Lemma toggleSort_three_clicks_witness :
  toggleSort id by_length Title
    (toggleSort id by_length Title (toggleSort id by_length Title Scenario.modal))
  = toggleSort id by_length Title Scenario.modal.
Proof.
  exact (toggleSort_three_clicks id by_length by_length_collation Title Scenario.modal).
Defined.

End OffersModalMoreFacts.

(** ** Pagination of the offers modal *)

Module PaginationFacts.
Import OffersModal OffersModalMore.

Lemma totalPages_bounds (st : State) :
  let len := Z.of_nat (length (currentOffers st)) in
  (perPage * (totalPages st - 1) < len ∨ (len = 0 ∧ totalPages st = 0))%Z ∧
  (len ≤ perPage * totalPages st)%Z ∧ (0 ≤ totalPages st)%Z.
Proof.
  intros len. unfold totalPages, perPage. fold len.
  pose proof (Z.div_mod len 20 ltac:(lia)) as Hdm.
  pose proof (Z.mod_pos_bound len 20 ltac:(lia)) as Hm.
  assert (0 ≤ len)%Z by lia.
  destruct (Z.eqb_spec (len mod 20) 0) as [E|E]; lia.
Qed.

Lemma Array_slice_chunk {A : Type} (l : list A) (start n : nat) :
  Array_slice (Z.of_nat start) (Z.of_nat start + Z.of_nat n) l = take n (drop start l).
Proof.
  unfold Array_slice.
  destruct (Z.ltb_spec (Z.of_nat start) 0) as [|_]; [lia|].
  destruct (Z.ltb_spec (Z.of_nat start + Z.of_nat n) 0) as [|_]; [lia|].
  destruct (decide (start ≤ length l)%nat) as [Hle|Hgt].
  - rewrite (Z.min_l (Z.of_nat start)) by lia. rewrite Nat2Z.id.
    destruct (decide (start + n ≤ length l)%nat) as [Hle'|Hgt'].
    + rewrite Z.min_l by lia. f_equal. lia.
    + rewrite Z.min_r by lia.
      rewrite !take_ge; [done| |]; rewrite length_drop; lia.
  - rewrite !Z.min_r by lia. rewrite Nat2Z.id.
    rewrite !drop_ge by lia. by rewrite !take_nil.
Qed.

Lemma renderTable_goto (p : nat) (st : State) :
  (1 ≤ p)%nat →
  renderTable (goto p st) = take 20 (drop (20 * (p - 1)) (currentOffers st)).
Proof.
  intros Hp. unfold renderTable, goto, perPage. simpl.
  replace ((Z.of_nat p - 1) * 20)%Z with (Z.of_nat (20 * (p - 1))) by lia.
  change 20%Z with (Z.of_nat 20). apply Array_slice_chunk.
Qed.

Lemma chunks_concat {A : Type} (n : nat) (l : list A) :
  (length l ≤ 20 * n)%nat →
  concat ((λ p, take 20 (drop (20 * (p - 1)) l)) <$> seq 1 n) = l.
Proof.
  revert l. induction n as [|n IH]; intros l Hl.
  - simpl. symmetry. apply nil_length_inv. lia.
  - rewrite <- cons_seq, fmap_cons, <- fmap_S_seq, <- list_fmap_compose.
    cbn [concat]. transitivity (take 20 l ++ drop 20 l); [|apply take_drop].
    f_equal.
    rewrite <- (IH (drop 20 l)) by (rewrite length_drop; lia).
    f_equal. apply list_fmap_ext. intros i p Hp. cbn [compose].
    apply lookup_seq in Hp as (-> & _).
    rewrite drop_drop. do 2 f_equal. lia.
Qed.

(** X17: the pages of the desktop table partition the offers: put one
    after the other, the pages 1 to totalPages give currentOffers;
    each of them has between 1 and 20 offers, and a page after the
    last one has none. *)
Theorem pages_partition (st : State) :
  concat ((λ p, renderTable (goto p st)) <$> seq 1 (Z.to_nat (totalPages st)))
    = currentOffers st ∧
  (∀ p, (1 ≤ Z.of_nat p ≤ totalPages st)%Z →
     renderTable (goto p st) ≠ [] ∧ (length (renderTable (goto p st)) ≤ 20)%nat) ∧
  (∀ p, (totalPages st < Z.of_nat p)%Z → renderTable (goto p st) = []).
Proof.
  pose proof (totalPages_bounds st) as (Hlow & Hhigh & Hpos). unfold perPage in *.
  split; [|split].
  - transitivity (concat ((λ p, take 20 (drop (20 * (p - 1)) (currentOffers st)))
                             <$> seq 1 (Z.to_nat (totalPages st))));
      [|apply chunks_concat; lia].
    f_equal. apply list_fmap_ext. intros i p Hp.
    apply lookup_seq in Hp as (-> & _). apply renderTable_goto. lia.
  - intros p Hp. rewrite renderTable_goto by lia. split.
    + intros E. apply (f_equal length) in E. rewrite length_take, length_drop in E.
      cbn [length] in E. lia.
    + rewrite length_take. lia.
  - intros p Hp. rewrite renderTable_goto by lia.
    rewrite drop_ge by lia. apply take_nil.
Qed.


(** The window of numbered buttons that renderPagination computes. *)
Lemma renderPagination_window (st : State) :
  (1 < totalPages st)%Z →
  (1 ≤ Z.of_nat (currentPage st) ≤ totalPages st)%Z →
  ∃ s e : Z,
    (1 ≤ s ≤ Z.of_nat (currentPage st))%Z ∧ (Z.of_nat (currentPage st) ≤ e ≤ totalPages st)%Z ∧
    (e - s + 1 = Z.min (totalPages st) 5)%Z ∧
    renderPagination false st =
      [Prev (Z.of_nat (currentPage st) =? 1)%Z (Z.of_nat (currentPage st) - 1)]
      ++ (if (1 <? s)%Z then Page false 1 :: (if (2 <? s)%Z then [Ellipsis] else []) else [])
      ++ ((λ i, Page (i =? Z.of_nat (currentPage st))%Z i) <$> seqZ s (e - s + 1))
      ++ (if (e <? totalPages st)%Z
          then (if (e <? totalPages st - 1)%Z then [Ellipsis] else [])
               ++ [Page false (totalPages st)]
          else [])
      ++ [Next (Z.of_nat (currentPage st) =? totalPages st)%Z (Z.of_nat (currentPage st) + 1)].
Proof.
  intros HT Hc. unfold renderPagination.
  destruct (Z.leb_spec (totalPages st) 1) as [|_]; [lia|].
  cbv zeta. change (5 / 2)%Z with 2%Z.
  set (c := Z.of_nat (currentPage st)) in *. set (T := totalPages st) in *.
  set (s0 := Z.max 1 (c - 2)). set (e := Z.min T (s0 + 5 - 1)).
  set (s := if (e - s0 <? 5 - 1)%Z then Z.max 1 (e - 5 + 1) else s0).
  exists s, e.
  assert (H : (1 ≤ s ≤ c)%Z ∧ (c ≤ e ≤ T)%Z ∧ (e - s + 1 = Z.min T 5)%Z).
  { unfold s, e, s0. destruct (Z.ltb_spec (Z.min T (Z.max 1 (c - 2) + 5 - 1) - Z.max 1 (c - 2))
                                 (5 - 1)); lia. }
  destruct H as (H1 & H2 & H3). done.
Qed.

Lemma eqb_bool_decide (a b : Z) : (a =? b)%Z = bool_decide (a = b).
Proof.
  destruct (Z.eqb_spec a b); [by rewrite bool_decide_eq_true_2|by rewrite bool_decide_eq_false_2].
Qed.

(** X18: every control of the pagination bar does what it shows: the
    arrows are disabled exactly on the first and on the last page and
    otherwise lead to the previous and to the next page, a numbered
    button leads to its page, which exists, and an ellipsis does
    nothing; no click leaves the pages 1 to totalPages or changes the
    offers. *)
Theorem pagination_controls_lead_to_pages (st : State) (c : Control) :
  (1 ≤ Z.of_nat (currentPage st) ≤ totalPages st)%Z →
  c ∈ renderPagination false st →
  (1 ≤ Z.of_nat (currentPage (press c st)) ≤ totalPages (press c st))%Z ∧
  currentOffers (press c st) = currentOffers st ∧
  match c with
  | Prev disabled p =>
      disabled = bool_decide (currentPage st = 1%nat) ∧
      (disabled = false → Z.of_nat (currentPage (press c st)) = Z.of_nat (currentPage st) - 1)%Z
  | Next disabled p =>
      disabled = bool_decide (Z.of_nat (currentPage st) = totalPages st) ∧
      (disabled = false → Z.of_nat (currentPage (press c st)) = Z.of_nat (currentPage st) + 1)%Z
  | Page active p =>
      active = bool_decide (p = Z.of_nat (currentPage st)) ∧
      Z.of_nat (currentPage (press c st)) = p
  | Ellipsis => press c st = st
  end.
Proof.
  intros Hc Hin.
  assert (HT : (1 < totalPages st)%Z).
  { destruct (Z.ltb_spec 1 (totalPages st)) as [|Hle]; [done|].
    unfold renderPagination in Hin.
    destruct (Z.leb_spec (totalPages st) 1); [by apply elem_of_nil in Hin|lia]. }
  destruct (renderPagination_window st HT Hc) as (s & e & Hs & He & Hn & Heq).
  rewrite Heq in Hin. clear Heq.
  assert (Hclick : ∀ p, (1 ≤ p ≤ totalPages st)%Z →
            Z.of_nat (currentPage (on_click (totalPages st) p st)) = p ∧
            currentOffers (on_click (totalPages st) p st) = currentOffers st ∧
            totalPages (on_click (totalPages st) p st) = totalPages st).
  { intros p Hp. unfold on_click.
    destruct (Z.eqb_spec p 0); [lia|].
    destruct (Z.eqb_spec p (Z.of_nat (currentPage st))) as [->|]; [done|].
    destruct (Z.leb_spec 1 p); [|lia]. destruct (Z.leb_spec p (totalPages st)); [|lia].
    simpl. split; [lia|done]. }
  assert (Hpage : ∀ a p, (1 ≤ p ≤ totalPages st)%Z →
            a = bool_decide (p = Z.of_nat (currentPage st)) →
            (1 ≤ Z.of_nat (currentPage (press (Page a p) st))
               ≤ totalPages (press (Page a p) st))%Z ∧
            currentOffers (press (Page a p) st) = currentOffers st ∧
            a = bool_decide (p = Z.of_nat (currentPage st)) ∧
            Z.of_nat (currentPage (press (Page a p) st)) = p).
  { intros a p Hp Ha. simpl. destruct (Hclick p Hp) as (E1 & E2 & E3).
    rewrite E1, E2, E3. done. }
  rewrite !elem_of_app in Hin. destruct Hin as [Hin|[Hin|[Hin|[Hin|Hin]]]].
  - apply list_elem_of_singleton in Hin as ->. rewrite eqb_bool_decide.
    case_bool_decide as E; simpl.
    + split; [done|]. split; [done|]. split; [|done].
      rewrite bool_decide_eq_true_2; [done|lia].
    + destruct (Hclick (Z.of_nat (currentPage st) - 1)%Z) as (E1 & E2 & E3); [lia|].
      rewrite E1, E2, E3. split; [lia|]. split; [done|]. split; [|done].
      rewrite bool_decide_eq_false_2; [done|lia].
  - destruct (Z.ltb_spec 1 s); [|by apply elem_of_nil in Hin].
    apply elem_of_cons in Hin as [->|Hin].
    + apply Hpage; [lia|]. rewrite bool_decide_eq_false_2; [done|lia].
    + destruct (Z.ltb_spec 2 s); [|by apply elem_of_nil in Hin].
      apply list_elem_of_singleton in Hin as ->. simpl. done.
  - apply list_elem_of_fmap in Hin as (i & -> & Hi). apply elem_of_seqZ in Hi.
    apply Hpage; [lia|apply eqb_bool_decide].
  - destruct (Z.ltb_spec e (totalPages st)); [|by apply elem_of_nil in Hin].
    apply elem_of_app in Hin as [Hin|Hin].
    + destruct (Z.ltb_spec e (totalPages st - 1)); [|by apply elem_of_nil in Hin].
      apply list_elem_of_singleton in Hin as ->. simpl. done.
    + apply list_elem_of_singleton in Hin as ->.
      apply Hpage; [lia|]. rewrite bool_decide_eq_false_2; [done|lia].
  - apply list_elem_of_singleton in Hin as ->. rewrite eqb_bool_decide.
    case_bool_decide as E; simpl.
    + done.
    + destruct (Hclick (Z.of_nat (currentPage st) + 1)%Z) as (E1 & E2 & E3); [lia|].
      rewrite E1, E2, E3. split; [lia|]. done.
Qed.


Lemma pagination_controls_lead_to_pages_witness :
  currentPage (press (Next false 2) (show (replicate 45 Scenario.offer1))) = 2%nat.
Proof.
  pose proof (pagination_controls_lead_to_pages (show (replicate 45 Scenario.offer1))
                (Next false 2)) as H.
  destruct H as (_ & _ & _ & H).
  - vm_compute. split; discriminate.
  - vm_compute. repeat constructor.
  - specialize (H eq_refl). apply Nat2Z.inj. rewrite H. reflexivity.
Defined.

Lemma spaced_pages (c : Z) (n : nat) (s before : Z) (rest : list Control) :
  s = (before + 1)%Z →
  spaced (before + Z.of_nat n) rest →
  spaced before (((λ i, Page (i =? c)%Z i) <$> seqZ s (Z.of_nat n)) ++ rest).
Proof.
  revert s before. induction n as [|n IH]; intros s before Hs Hrest.
  - rewrite seqZ_nil by lia. simpl. by rewrite Z.add_0_r in Hrest.
  - rewrite seqZ_cons by lia. csimpl. split; [done|].
    replace (Z.pred (Z.of_nat (S n))) with (Z.of_nat n) by lia.
    apply IH; [lia|]. replace (s + Z.of_nat n)%Z with (before + Z.of_nat (S n))%Z by lia. done.
Qed.

(** X19: between the two arrows the pagination bar shows numbered
    buttons in increasing order, from 1 to the last page: the first
    number is 1 and the last is totalPages, two buttons next to each
    other have consecutive numbers and an ellipsis stands exactly where
    numbers are missing; there are at most seven numbers, and the
    current page is among them. *)
Theorem pagination_well_spaced (st : State) :
  (1 < totalPages st)%Z →
  (1 ≤ Z.of_nat (currentPage st) ≤ totalPages st)%Z →
  ∃ disabled1 disabled2 p1 p2 middle,
    renderPagination false st = Prev disabled1 p1 :: middle ++ [Next disabled2 p2] ∧
    spaced 0 middle ∧
    head (numbers middle) = Some 1%Z ∧
    list.last (numbers middle) = Some (totalPages st) ∧
    (length (numbers middle) ≤ 7)%nat ∧
    Z.of_nat (currentPage st) ∈ numbers middle.
Proof.
  intros HT Hc.
  destruct (renderPagination_window st HT Hc) as (s & e & Hs & He & Hn & Heq).
  rewrite Heq. clear Heq.
  set (c := Z.of_nat (currentPage st)) in *. set (T := totalPages st) in *.
  set (pages := (λ i, Page (i =? c)%Z i) <$> seqZ s (e - s + 1)).
  set (before := if (1 <? s)%Z then Page false 1 :: (if (2 <? s)%Z then [Ellipsis] else [])
                 else []).
  set (after := if (e <? T)%Z
                then (if (e <? T - 1)%Z then [Ellipsis] else []) ++ [Page false T]
                else []).
  exists (c =? 1)%Z, (c =? T)%Z, (c - 1)%Z, (c + 1)%Z, (before ++ pages ++ after).
  split; [simpl; by rewrite <- !app_assoc|].
  assert (Hnum : numbers pages = seqZ s (e - s + 1)).
  { unfold numbers, pages. generalize (seqZ s (e - s + 1)). intros l.
    induction l as [|x l IH]; [done|]. csimpl. by rewrite IH. }
  assert (Hafter : spaced e after).
  { unfold after. destruct (Z.ltb_spec e T); [|done].
    destruct (Z.ltb_spec e (T - 1)); simpl; lia. }
  assert (Hpages : ∀ b s', s' = (b + 1)%Z → (s' ≤ e + 1)%Z →
            spaced b (((λ i, Page (i =? c)%Z i) <$> seqZ s' (e - s' + 1)) ++ after)).
  { intros b s' Hb Hs'. replace (e - s' + 1)%Z with (Z.of_nat (Z.to_nat (e - s' + 1))) by lia.
    apply spaced_pages; [done|].
    replace (b + Z.of_nat (Z.to_nat (e - s' + 1)))%Z with e by lia. done. }
  split; [|split; [|split; [|split]]].
  - unfold before. destruct (Z.ltb_spec 1 s) as [H1|H1].
    + destruct (Z.ltb_spec 2 s) as [H2|H2].
      * unfold pages. rewrite (seqZ_cons s) by lia. csimpl.
        split; [done|]. split; [lia|].
        replace (Z.pred (e - s + 1)) with (e - Z.succ s + 1)%Z by lia.
        apply Hpages; lia.
      * simpl. split; [done|]. apply Hpages; lia.
    + simpl. apply Hpages; lia.
  - unfold numbers. rewrite !omap_app. fold (numbers pages). rewrite Hnum.
    unfold before. destruct (Z.ltb_spec 1 s) as [H1|H1]; [done|].
    csimpl. rewrite (seqZ_cons s) by lia. csimpl. f_equal. lia.
  - unfold numbers. rewrite !omap_app. fold (numbers pages). rewrite Hnum.
    unfold after. destruct (Z.ltb_spec e T) as [H1|H1].
    + rewrite omap_app. csimpl. rewrite !app_assoc. apply last_snoc.
    + csimpl. rewrite app_nil_r.
      replace (e - s + 1)%Z with (Z.of_nat (S (Z.to_nat (e - s)))) by lia.
      rewrite seqZ_S, app_assoc, last_snoc. f_equal. lia.
  - unfold numbers. rewrite !omap_app, !length_app. fold (numbers pages).
    rewrite Hnum, length_seqZ.
    assert (length (omap (λ c0, match c0 with Page _ p => Some p | _ => None end) before) ≤ 1)%nat.
    { unfold before. destruct (Z.ltb_spec 1 s); [|simpl; lia].
      destruct (Z.ltb_spec 2 s); simpl; lia. }
    assert (length (omap (λ c0, match c0 with Page _ p => Some p | _ => None end) after) ≤ 1)%nat.
    { unfold after. destruct (Z.ltb_spec e T); [|simpl; lia].
      destruct (Z.ltb_spec e (T - 1)); simpl; lia. }
    lia.
  - unfold numbers. rewrite !omap_app. fold (numbers pages). rewrite Hnum.
    apply elem_of_app. right. apply elem_of_app. left. apply elem_of_seqZ. lia.
Qed.

Lemma pagination_well_spaced_witness :
  ∃ middle, spaced 0 middle ∧ Z.of_nat 1 ∈ numbers middle ∧
    head (numbers middle) = Some 1%Z ∧
    list.last (numbers middle) = Some (totalPages (show (replicate 45 Scenario.offer1))).
Proof.
  edestruct (pagination_well_spaced (show (replicate 45 Scenario.offer1)))
    as (d1 & d2 & p1 & p2 & middle & _ & H1 & H0 & H2 & _ & H4).
  - vm_compute. reflexivity.
  - vm_compute. split; discriminate.
  - exists middle. split; [exact H1|]. split; [exact H4|]. split; [exact H0|exact H2].
Defined.


Lemma press_in_range (c : Control) (st : State) :
  (1 ≤ Z.of_nat (currentPage st))%Z ∧
  (currentOffers st ≠ [] → (Z.of_nat (currentPage st) ≤ totalPages st)%Z) →
  currentOffers (press c st) = currentOffers st ∧
  totalPages (press c st) = totalPages st ∧
  (1 ≤ Z.of_nat (currentPage (press c st)))%Z ∧
  (currentOffers st ≠ [] → (Z.of_nat (currentPage (press c st)) ≤ totalPages st)%Z).
Proof.
  intros (H1 & H2).
  assert (Hclick : ∀ p,
    currentOffers (on_click (totalPages st) p st) = currentOffers st ∧
    totalPages (on_click (totalPages st) p st) = totalPages st ∧
    (1 ≤ Z.of_nat (currentPage (on_click (totalPages st) p st)))%Z ∧
    (currentOffers st ≠ [] →
     (Z.of_nat (currentPage (on_click (totalPages st) p st)) ≤ totalPages st)%Z)).
  { intros p. unfold on_click.
    destruct (Z.eqb_spec p 0); [done|].
    destruct (Z.eqb_spec p (Z.of_nat (currentPage st))); [done|].
    destruct (Z.leb_spec 1 p); [|done]. destruct (Z.leb_spec p (totalPages st)); [|done].
    simpl. split; [done|]. split; [done|]. split; [lia|]. intros _. lia. }
  destruct c as [[] p|a p| |[] p]; simpl; try done; apply Hclick.
Qed.

Lemma totalPages_pos (st : State) : currentOffers st ≠ [] → (1 ≤ totalPages st)%Z.
Proof.
  intros Hne. pose proof (totalPages_bounds st) as (_ & Hhigh & _).
  cbv zeta in Hhigh. unfold perPage in Hhigh.
  destruct (currentOffers st); [done|]. cbn [length] in Hhigh. lia.
Qed.

(** X20: after show(offers), whatever headers and pagination controls
    are clicked, the desktop table holds the offers given to show,
    reordered; the current page stays a page that exists, so that the
    table is empty only when there is no offer at all. *)
Theorem shown_page_exists (toLowerCase : string → string)
    (localeCompare : string → string → Z) (offers : list Offer) (st : State) :
  shown toLowerCase localeCompare offers st →
  currentOffers st ≡ₚ offers ∧
  (1 ≤ currentPage st)%nat ∧
  (offers ≠ [] → (Z.of_nat (currentPage st) ≤ totalPages st)%Z ∧ renderTable st ≠ []).
Proof.
  intros Hshown.
  assert (Hinv : currentOffers st ≡ₚ offers ∧ (1 ≤ Z.of_nat (currentPage st))%Z ∧
                 (currentOffers st ≠ [] → (Z.of_nat (currentPage st) ≤ totalPages st)%Z)).
  { induction Hshown as [|st column Hshown IH|st c Hshown IH Hin].
    - split; [done|]. split; [simpl; lia|]. intros Hne.
      change (Z.of_nat (currentPage (show offers))) with 1%Z. by apply totalPages_pos.
    - destruct IH as (Hperm & _ & _).
      rewrite OffersModalMoreFacts.toggleSort_unfold.
      set (st' := mkState _ _ _ _).
      split; [unfold st'; simpl; by rewrite SortFacts.Array_sort_perm|].
      split; [simpl; lia|]. intros Hne.
      change (Z.of_nat (currentPage st')) with 1%Z. by apply totalPages_pos.
    - destruct IH as (Hperm & Hrange).
      destruct (press_in_range c st Hrange) as (E1 & E2 & H1 & H2).
      rewrite E1, E2. done. }
  destruct Hinv as (Hperm & H1 & H2). split; [done|]. split; [lia|].
  intros Hne.
  assert (Hne' : currentOffers st ≠ []).
  { intros E. rewrite E in Hperm. by apply Permutation_nil_l in Hperm. }
  split; [by apply H2|].
  assert (Hgoto : renderTable st = renderTable (goto (currentPage st) st)) by done.
  rewrite Hgoto, renderTable_goto by lia.
  intros E. apply (f_equal length) in E. rewrite length_take, length_drop in E.
  cbn [length] in E.
  pose proof (totalPages_bounds st) as (Hlow & _). unfold perPage in Hlow.
  specialize (H2 Hne').
  destruct Hlow as [Hlow|(Hlen & _)]; [lia|].
  destruct (currentOffers st); [done|]. simpl in Hlen. lia.
Qed.

Lemma shown_page_exists_witness :
  renderTable (press (Next false 2) (show (replicate 45 Scenario.offer1))) ≠ [].
Proof.
  assert (Hs : shown id by_length (replicate 45 Scenario.offer1)
                 (press (Next false 2) (show (replicate 45 Scenario.offer1)))).
  { apply shown_control; [apply shown_show|]. vm_compute. repeat constructor. }
  destruct (shown_page_exists id by_length _ _ Hs) as (_ & _ & H).
  apply H. discriminate.
Defined.

End PaginationFacts.

(** ** The router and the filters *)

Module NavigationFacts.
Import DataProcessor Navigation DataProcessorFacts DataProcessorMoreFacts.

Lemma navigate_publishable (basePath : string) (w : World) (tab : string)
    (given : option Filters) (rep : bool) (r : RouterState) :
  isNavigating r = false →
  publishable_filters (default (filters (this w)) given) →
  ∃ u, Router.buildURL basePath tab (arrays (default (filters (this w)) given)) = Some u ∧
    navigate basePath w tab given rep r
    = Done (mkRouter false (calls r ++ [mkCall rep tab (default (filters (this w)) given) u])).
Proof.
  intros Hidle (Hj & Hc & Hd). unfold navigate. rewrite Hidle.
  destruct (RouterFacts.buildURL_shape basePath tab
              (arrays (default (filters (this w)) given)) Hj Hc Hd) as (ps & Hurl & _).
  cbv zeta. rewrite Hurl. eauto.
Qed.

Lemma merge_publishable (fs : Filters) (nf : PartialFilters) :
  publishable_filters fs → publishable_action (filters_changed (Apply nf)) →
  publishable_filters (merge fs nf).
Proof.
  intros (Hj & Hc & Hd) (Nj & Nc & Nd). unfold merge, publishable_filters. simpl.
  destruct (new_jobFamilies nf), (new_contractTypes nf), (new_departments nf); done.
Qed.

Lemma tab_of_table_truthy (tab : string) :
  tab ∈ Router.tabToPath.*1 → truthy_string tab = true.
Proof.
  intros Ht. unfold Router.tabToPath in Ht. csimpl in Ht.
  repeat (apply elem_of_cons in Ht as [->|Ht]; [reflexivity|]).
  by apply elem_of_nil in Ht.
Qed.

(** One action of the user on an idle router. *)
Lemma act_spec (basePath : string) (s : Session) (a : Action) :
  loaded (processor s) → isNavigating (router s) = false →
  publishable_filters (filters (this (processor s))) →
  publishable_action a →
  loaded (processor (act basePath s a)) ∧
  isNavigating (router (act basePath s a)) = false ∧
  publishable_filters (filters (this (processor (act basePath s a)))) ∧
  currentTab (act basePath s a)
    = match a with tab_clicked tab => tab | filters_changed _ => currentTab s end ∧
  ∃ c, calls (router (act basePath s a)) = calls (router s) ++ [c] ∧
    replace c = match a with tab_clicked _ => false | filters_changed _ => true end ∧
    state_tab c = match a with tab_clicked tab => tab | filters_changed _ => "overview" end ∧
    state_filters c = filters (this (processor (act basePath s a))) ∧
    Router.buildURL basePath (state_tab c) (arrays (state_filters c)) = Some (url c).
Proof.
  intros Hl Hidle Hp Ha. destruct a as [tab|op]; simpl in *.
  - unfold handleTabChange. rewrite Hidle, (tab_of_table_truthy tab Ha).
    destruct (navigate_publishable basePath (processor s) tab None false (router s) Hidle Hp)
      as (u & Hu & ->).
    simpl. split; [done|]. split; [done|]. split; [done|]. split; [done|].
    eexists. split; [reflexivity|]. done.
  - destruct (run_op_frame op (processor s) Hl)
      as (w' & r & Hrun & Hf & _ & _ & Hd & _ & _).
    destruct (run_op_committed op (processor s) Hl) as (w2 & Hrun2 & Hc2 & _).
    assert (w2 = w') as -> by congruence.
    assert (Hp' : publishable_filters (filters (this w'))).
    { rewrite (run_op_filters op (processor s) w' Hl Hrun). destruct op as [nf|].
      - by apply merge_publishable.
      - repeat split; constructor. }
    rewrite Hrun, Hd, last_snoc. simpl.
    unfold handleFilterChange. rewrite Hidle.
    change (or_default window_App_currentTab "overview") with "overview".
    destruct (navigate_publishable basePath w' "overview"
                (Some (filters (this w'))) true (router s) Hidle Hp') as (u & Hu & Hnav).
    cbv zeta. rewrite Hnav. simpl.
    split; [by apply committed_loaded|]. split; [done|]. split; [done|]. split; [done|].
    eexists. split; [reflexivity|]. done.
Qed.

(** X21: for clicks on the tabs of the router's table and filter
    values that can be written in a URL, every tab click makes one
    pushState under the tab clicked and every change of the filters
    one replaceState under "overview" (the router reads
    window.App?.currentTab, which is undefined), in the order of the
    actions; the state object of the last call holds the filters now
    committed and its URL is the one buildURL gives for its tab and
    those filters; getShareableURL is the URL of "overview" with the
    committed filters after the origin, whatever tab is shown; and the
    router is ready for the next action. *)
Theorem history_follows_the_view (basePath : string) (actions : list Action) (s : Session) :
  loaded (processor s) → isNavigating (router s) = false →
  publishable_filters (filters (this (processor s))) →
  Forall publishable_action actions →
  isNavigating (router (run basePath actions s)) = false ∧
  (∃ made, calls (router (run basePath actions s)) = calls (router s) ++ made ∧
    replace <$> made
      = (λ a, match a with tab_clicked _ => false | filters_changed _ => true end) <$> actions ∧
    state_tab <$> made
      = (λ a, match a with tab_clicked tab => tab | filters_changed _ => "overview" end)
          <$> actions ∧
    ∀ c, list.last made = Some c →
      state_filters c = filters (this (processor (run basePath actions s))) ∧
      Router.buildURL basePath (state_tab c) (arrays (state_filters c)) = Some (url c)) ∧
  currentTab (run basePath actions s)
    = default (currentTab s)
        (list.last (omap (λ a, match a with tab_clicked tab => Some tab | _ => None end)
                         actions)) ∧
  ∃ u, Router.buildURL basePath "overview"
         (arrays (filters (this (processor (run basePath actions s))))) = Some u ∧
    ∀ origin, getShareableURL origin basePath (run basePath actions s)
              = Some (String.append origin u).
Proof.
  intros Hl Hidle Hp Hact.
  assert (Hgen : loaded (processor (run basePath actions s)) ∧
    isNavigating (router (run basePath actions s)) = false ∧
    publishable_filters (filters (this (processor (run basePath actions s)))) ∧
    currentTab (run basePath actions s)
      = default (currentTab s)
          (list.last (omap (λ a, match a with tab_clicked tab => Some tab | _ => None end)
                           actions)) ∧
    ∃ made, calls (router (run basePath actions s)) = calls (router s) ++ made ∧
      replace <$> made
        = (λ a, match a with tab_clicked _ => false | filters_changed _ => true end)
            <$> actions ∧
      state_tab <$> made
        = (λ a, match a with tab_clicked tab => tab | filters_changed _ => "overview" end)
            <$> actions ∧
      ∀ c, list.last made = Some c →
        state_filters c = filters (this (processor (run basePath actions s))) ∧
        Router.buildURL basePath (state_tab c) (arrays (state_filters c)) = Some (url c)).
  { induction actions as [|a actions IH] using rev_ind.
    - simpl. split; [done|]. split; [done|]. split; [done|]. split; [done|].
      exists []. split; [by rewrite app_nil_r|]. split; [done|]. split; [done|]. done.
    - apply Forall_app in Hact as (Hact & Ha). apply Forall_cons in Ha as (Ha & _).
      destruct (IH Hact) as (Hl1 & Hidle1 & Hp1 & Htab1 & made & Hcalls & Hrep & Htabs & _).
      unfold run in *. rewrite foldl_snoc.
      destruct (act_spec basePath (foldl (act basePath) s actions) a Hl1 Hidle1 Hp1 Ha)
        as (Hl2 & Hidle2 & Hp2 & Htab2 & c & Hc & Hr & Ht & Hf & Hu).
      split; [done|]. split; [done|]. split; [done|].
      split.
      { rewrite Htab2, omap_app. destruct a as [tab|op]; csimpl.
        - by rewrite last_snoc.
        - by rewrite app_nil_r. }
      exists (made ++ [c]). split; [by rewrite Hc, Hcalls, app_assoc|].
      split; [rewrite !fmap_app, Hrep; f_equal; simpl; by rewrite Hr|].
      split; [rewrite !fmap_app, Htabs; f_equal; simpl; by rewrite Ht|].
      intros c'. rewrite last_snoc. intros [= <-]. done. }
  destruct Hgen as (_ & H1 & Hp' & Htab & made & H2 & H3 & H4 & H5).
  split; [done|]. split; [by exists made|]. split; [done|].
  destruct (RouterFacts.buildURL_shape basePath "overview"
              (arrays (filters (this (processor (run basePath actions s))))))
    as (ps & Hurl & _); [apply Hp'..|].
  eexists. split; [exact Hurl|].
  intros origin. unfold getShareableURL. cbv zeta.
  change (or_default window_App_currentTab "overview") with "overview".
  by rewrite Hurl.
Qed.

Lemma history_follows_the_view_witness :
  ∃ made, calls (router (run "/cepid.eu"
                  [tab_clicked "salaries";
                   filters_changed (Apply (Scenario.byJobFamilies ["Archiviste"]))]
                  (mkSession Scenario.from_network (mkRouter false []) "overview")))
          = [] ++ made ∧
    replace <$> made = [false; true] ∧
    state_tab <$> made = ["salaries"; "overview"].
Proof.
  edestruct (history_follows_the_view "/cepid.eu"
              [tab_clicked "salaries";
               filters_changed (Apply (Scenario.byJobFamilies ["Archiviste"]))]
              (mkSession Scenario.from_network (mkRouter false []) "overview"))
    as (_ & (made & H1 & H2 & H3 & _) & _).
  - exact from_network_loaded.
  - reflexivity.
  - vm_compute. repeat split; constructor.
  - repeat constructor; done.
  - exists made. split; [exact H1|]. split; [exact H2|exact H3].
Defined.

Lemma act_navigating (basePath : string) (s : Session) (a : Action) :
  isNavigating (router s) = true → router (act basePath s a) = router s.
Proof.
  intros Hnav. destruct a as [tab|op]; simpl.
  - unfold handleTabChange. by rewrite Hnav.
  - destruct (run_op op (processor s)) as [w'|e w']; [|done].
    destruct (list.last (dispatched w')) as [[offers fs|offers]|]; simpl; [|done|done].
    unfold handleFilterChange. by rewrite Hnav.
Qed.

(** X22: when buildURL throws inside navigate (a filter value with an
    unpaired surrogate), the exception leaves [isNavigating] set and no
    call to history is made; from then on the router ignores every tab
    click and every change of the filters. *)
Theorem router_ignores_all_after_URIError (basePath : string) (w : World) (tab : string)
    (given : option Filters) (rep : bool) (r : RouterState) :
  isNavigating r = false →
  Router.buildURL basePath tab (arrays (default (filters (this w)) given)) = None →
  ∃ r', navigate basePath w tab given rep r = URIError r' ∧
    isNavigating r' = true ∧ calls r' = calls r ∧
    ∀ actions s, router s = r' → router (run basePath actions s) = r'.
Proof.
  intros Hidle Hurl. unfold navigate. rewrite Hidle. cbv zeta. rewrite Hurl.
  eexists. split; [reflexivity|]. split; [done|]. split; [done|].
  intros actions. induction actions as [|a actions IH] using rev_ind; intros s Hs.
  - done.
  - unfold run in *. rewrite foldl_snoc. rewrite act_navigating; [by apply IH|].
    by rewrite (IH s Hs).
Qed.

Lemma router_ignores_all_after_URIError_witness :
  ∃ r', navigate "" Scenario.from_network "overview"
          (Some (mkFilters [Scenario.unpaired_surrogate] [] [] None)) true (mkRouter false [])
        = URIError r' ∧
    router (run "" [tab_clicked "salaries"] (mkSession Scenario.from_network r' "overview")) = r'.
Proof.
  edestruct (router_ignores_all_after_URIError "" Scenario.from_network "overview"
               (Some (mkFilters [Scenario.unpaired_surrogate] [] [] None)) true
               (mkRouter false [])) as (r' & H1 & _ & _ & H2).
  - reflexivity.
  - vm_compute. reflexivity.
  - exists r'. split; [exact H1|]. by apply H2.
Defined.

End NavigationFacts.

(** ** More of the router *)

Module RouterMoreFacts.
Import JSString JSStringFacts Router RouterFacts RouterMore.

Lemma startsWith_append (a b : string) : startsWith (String.append a b) a = true.
Proof.
  induction a as [|c a IH]; simpl; [by destruct b|].
  by rewrite bool_decide_eq_true_2.
Qed.

Lemma slice_append (a b : string) : slice (String.append a b) (String.length a) = b.
Proof. induction a as [|c a IH]; simpl; [by destruct b|apply IH]. Qed.

Lemma url_pathname_append (a b : string) :
  all in_path a = true →
  b = EmptyString ∨ (∃ r, b = String (char 63) r) →
  url_pathname (String.append a b) = a.
Proof.
  intros Ha Hb. induction a as [|c a IH]; simpl.
  - destruct Hb as [->|(r & ->)]; done.
  - simpl in Ha. apply andb_true_iff in Ha as (Hc & Ha). unfold in_path in Hc.
    apply negb_true_iff in Hc. rewrite Hc. by rewrite IH.
Qed.

Lemma unreserved_in_path (c : ascii) : unreserved c = true → in_path c = true.
Proof. unfold unreserved, in_path. intros H. apply negb_true_iff. codes. Qed.

Lemma project_base_in_path (basePath : string) :
  project_base basePath → all in_path basePath = true.
Proof.
  intros [->|(c & segment & -> & Hc & _ & Hs)]; [done|].
  cbn [all]. rewrite (unreserved_in_path c Hc). simpl.
  eapply all_impl; [|exact Hs]. apply unreserved_in_path.
Qed.

(** X23: a URL built by buildURL leads back to its tab: when the base
    path is the one of a project site and [t] is one of the five tabs
    of config.tabToPath, parseCurrentURL reads the tab [t] in the
    location reached by buildURL(t, filters), for all filter values
    that can be written in a URL; nothing is rewritten in the
    history. *)
Theorem buildURL_parse_tab (basePath t : string) (f : Filters) :
  project_base basePath →
  t ∈ tabToPath.*1 →
  Forall publishable (jobFamilies f) →
  Forall publishable (contractTypes f) →
  Forall publishable (departments f) →
  ∃ url parsed,
    buildURL basePath t f = Some url ∧
    parseCurrentURL basePath (url_pathname url) (url_search url) = Some parsed ∧
    replaced parsed = None ∧
    tab (route parsed) = t.
Proof.
  intros Hbase Ht Hj Hc Hd.
  pose proof (project_base_in_path basePath Hbase) as Hb.
  destruct (buildURL_shape basePath t f Hj Hc Hd) as (ps & Hurl & Hps & Hr & Pj & Pc & Pd).
  set (path := or_default (lookup_table t tabToPath) "/") in *.
  eexists _, _. split; [exact Hurl|].
  assert (Hpath : url_pathname (String.append (String.append basePath path)
                     (query_suffix (URLSearchParams.toString ps)))
                  = String.append basePath path).
  { apply url_pathname_append.
    - rewrite all_append, Hb. apply path_in_path.
    - unfold query_suffix. destruct (truthy_string _); eauto. }
  rewrite Hpath. unfold parseCurrentURL.
  rewrite parse_url_search; [|rewrite all_append, Hb; apply path_in_path|done].
  rewrite Hr. cbn [truthy_ostring mbind option_bind].
  rewrite Pj, Pc, Pd. cbn [mbind option_bind].
  split; [reflexivity|]. cbn [replaced route tab]. split; [done|].
  assert (Hroute :
    (if truthy_string basePath && startsWith (String.append basePath path) basePath
     then or_else (slice (String.append basePath path) (String.length basePath)) "/"
     else String.append basePath path) = path).
  { rewrite startsWith_append, slice_append.
    destruct Hbase as [->|(c & segment & -> & _)]; simpl.
    - done.
    - unfold path, tabToPath. simpl. repeat (case_bool_decide; [done|]). done. }
  rewrite Hroute. unfold path. clear -Ht.
  unfold tabToPath in Ht. csimpl in Ht.
  repeat (apply elem_of_cons in Ht as [->|Ht]; [reflexivity|]).
  by apply elem_of_nil in Ht.
Qed.

Lemma buildURL_parse_tab_witness :
  ∃ url parsed,
    buildURL "/cepid.eu" "sectors" (mkFilters ["Archiviste"] [] []) = Some url ∧
    parseCurrentURL "/cepid.eu" (url_pathname url) (url_search url) = Some parsed ∧
    tab (route parsed) = "sectors".
Proof.
  destruct (buildURL_parse_tab "/cepid.eu" "sectors" (mkFilters ["Archiviste"] [] []))
    as (url & parsed & H1 & H2 & _ & H3).
  - right. exists (char 99), "epid.eu". split; [reflexivity|]. split; [reflexivity|].
    split; reflexivity.
  - by apply (bool_decide_unpack _).
  - repeat constructor; apply publishable_Archiviste.
  - constructor.
  - constructor.
  - exists url, parsed. split; [exact H1|]. split; [exact H2|]. exact H3.
Defined.

End RouterMoreFacts.

(** ** App.handleRoute and JobClassifier *)

Module AppFacts.
Import Router.

(** X24: the tab that App.handleRoute opens for a path is the tab of
    that path in the tables of the router: the two routers agree on
    the paths that buildURL writes. *)
Theorem handleRoute_agrees_with_routes (path t : string) :
  lookup_table path routes = Some t ∨ lookup_table t tabToPath = Some path →
  App.targetTab path = t.
Proof.
  intros [H|H].
  - unfold routes in H. simpl in H.
    repeat (case_bool_decide; [subst path; by injection H as <-|]). done.
  - unfold tabToPath in H. simpl in H.
    repeat (case_bool_decide; [subst t; by injection H as <-|]). done.
Qed.

Lemma handleRoute_agrees_with_routes_witness : App.targetTab "/carte" = "map".
Proof. apply handleRoute_agrees_with_routes. left. reflexivity. Defined.

End AppFacts.

Module JobClassifierFacts.
Import JobClassifier.

(** X25: getFamily always finds a family of the table: the one with
    the name asked for, or the last one, "Documentaliste", for any
    other name; so getColor and getIcon answer with the colour and the
    icon of a family, and the grey "#64748b" that getColor keeps for a
    missing family is never returned. *)
Theorem getFamily_total (n : string) :
  ∃ f, getFamily n = Some f ∧ f ∈ families ∧
    getColor n = color f ∧ getIcon n = icon f ∧
    (n ∈ getAllFamilyNames → name f = n) ∧
    (n ∉ getAllFamilyNames → name f = "Documentaliste") ∧
    getColor n ≠ "#64748b".
Proof.
  destruct (decide (n ∈ getAllFamilyNames)) as [Hin|Hout].
  - pose proof Hin as Hin'. unfold getAllFamilyNames, families in Hin'. simpl in Hin'.
    repeat (apply elem_of_cons in Hin' as [->|Hin'];
      [eexists; split; [vm_compute; reflexivity|];
       split; [repeat constructor|];
       split; [vm_compute; reflexivity|]; split; [vm_compute; reflexivity|];
       split; [done|]; split; [done|]; vm_compute; discriminate|]).
    by apply elem_of_nil in Hin'.
  - assert (Hnone : find_family n = None).
    { unfold find_family.
      destruct (list_find (λ f, name f = n) families) as [[i f]|] eqn:E; [|done].
      apply list_find_Some in E as (Hi & Hn & _). exfalso. apply Hout.
      unfold getAllFamilyNames. apply list_elem_of_fmap. exists f. split; [done|].
      by eapply list_elem_of_lookup_2. }
    unfold getColor, getIcon, getFamily. rewrite Hnone.
    eexists. split; [vm_compute; reflexivity|].
    split; [repeat constructor|].
    split; [vm_compute; reflexivity|]. split; [vm_compute; reflexivity|].
    split; [done|]. split; [done|]. vm_compute. discriminate.
Qed.

End JobClassifierFacts.

(** ** The offers button and the modal *)

Module OffersCTAFacts.
Import DataProcessor DataProcessorMore OffersCTA.

Lemma sorts_in_place (m : loc) (sorts : list (Offer → Offer → Q)) (w : World) :
  this (foldl (sort_in_place m) w sorts) = this w ∧
  dispatched (foldl (sort_in_place m) w sorts) = dispatched w ∧
  (∀ r, r ≠ m → heap (foldl (sort_in_place m) w sorts) !! r = heap w !! r) ∧
  (heap (foldl (sort_in_place m) w sorts) !!! m) ≡ₚ (heap w !!! m).
Proof.
  revert w. induction sorts as [|cmp sorts IH]; intros w; simpl; [done|].
  destruct (IH (sort_in_place m w cmp)) as (H1 & H2 & H3 & H4).
  split; [by rewrite H1|]. split; [by rewrite H2|]. split.
  - intros r Hr. rewrite (H3 r Hr). unfold sort_in_place; simpl.
    by rewrite lookup_insert_ne.
  - rewrite H4. unfold sort_in_place; simpl.
    rewrite lookup_total_insert_eq. apply SortFacts.Array_sort_perm.
Qed.

(** X26: the modal sorts a copy: after a click on an offers button
    and any number of sorts in the modal, every array that existed
    before, filteredOffers and data.offers among them, holds the same
    offers in the same order, DataProcessor is unchanged, and the
    modal holds the filtered offers (those with a truthy
    salaryNetMonthly for the "with-salary" button) in some order. *)
Theorem modal_sorts_a_copy (with_salary : bool) (sorts : list (Offer → Offer → Q))
    (w : World) (r : loc) :
  filteredOffers (this w) = Some r → r ∈ dom (heap w) →
  ∃ currentOffers w1,
    open_modal with_salary w = Some (currentOffers, w1) ∧
    let w2 := foldl (sort_in_place currentOffers) w1 sorts in
    this w2 = this w ∧
    (∀ r', r' ∈ dom (heap w) → heap w2 !! r' = heap w !! r') ∧
    filtered w2 = filtered w ∧
    (heap w2 !!! currentOffers) ≡ₚ
      (if with_salary
       then filter (λ o, truthy_num (salaryNetMonthly o) = true) (filtered w)
       else filtered w).
Proof.
  intros Hr Hin. unfold open_modal, getOffers. rewrite Hr.
  assert (Hgen : ∀ h src, (∀ r', r' ∈ dom (heap w) → h !! r' = heap w !! r') →
            dom (heap w) ⊆ dom h →
            ∃ m, (m ∉ dom h) ∧ alloc h (h !!! src) = (m, <[m := h !!! src]> h)).
  { intros h src _ _. exists (fresh (dom h)). split; [apply is_fresh|done]. }
  assert (Hfinish : ∀ h src content,
            (∀ r', r' ∈ dom (heap w) → h !! r' = heap w !! r') →
            dom (heap w) ⊆ dom h → h !!! src = content →
            ∃ currentOffers w1,
              (let '(currentOffers, h0) := alloc h (h !!! src) in
               Some (currentOffers, set_heap h0 w)) = Some (currentOffers, w1) ∧
              let w2 := foldl (sort_in_place currentOffers) w1 sorts in
              this w2 = this w ∧
              (∀ r', r' ∈ dom (heap w) → heap w2 !! r' = heap w !! r') ∧
              filtered w2 = filtered w ∧ (heap w2 !!! currentOffers) ≡ₚ content).
  { intros h src content Hsame Hdom Hcontent.
    destruct (Hgen h src Hsame Hdom) as (m & Hm & ->).
    eexists _, _. split; [reflexivity|]. cbv zeta.
    destruct (sorts_in_place m sorts (set_heap (<[m := h !!! src]> h) w))
      as (H1 & _ & H3 & H4).
    assert (Hold : ∀ r', r' ∈ dom (heap w) →
              heap (foldl (sort_in_place m) (set_heap (<[m := h !!! src]> h) w) sorts) !! r'
              = heap w !! r').
    { intros r' Hr'. assert (r' ≠ m) by (intros ->; apply Hm, Hdom, Hr').
      rewrite H3 by done. simpl. rewrite lookup_insert_ne by done. by apply Hsame. }
    split; [by rewrite H1|]. split; [done|]. split.
    - unfold filtered. rewrite H1. simpl. rewrite Hr.
      rewrite !lookup_total_alt. f_equal. exact (Hold r Hin).
    - rewrite H4. simpl. by rewrite lookup_total_insert_eq, Hcontent. }
  destruct with_salary.
  - pose proof (is_fresh (dom (heap w))) as Hfresh.
    unfold alloc at 1. cbv zeta.
    set (c := fresh (dom (heap w))) in *.
    apply Hfinish.
    + intros r' Hr'. rewrite lookup_insert_ne; [done|]. by intros ->.
    + rewrite dom_insert. set_solver.
    + rewrite lookup_total_insert_eq. unfold filtered. by rewrite Hr.
  - apply Hfinish; [done|done|]. unfold filtered. by rewrite Hr.
Qed.

Lemma modal_sorts_a_copy_witness :
  ∃ currentOffers w1,
    open_modal false Scenario.archivists = Some (currentOffers, w1) ∧
    filtered (foldl (sort_in_place currentOffers) w1 [λ a b, inject_Z 1]) 
    = filtered Scenario.archivists.
Proof.
  edestruct (modal_sorts_a_copy false [λ a b, inject_Z 1] Scenario.archivists)
    as (m & w1 & H1 & _ & _ & H2 & _).
  - vm_compute. reflexivity.
  - apply elem_of_dom. vm_compute. eauto.
  - exists m, w1. split; [exact H1|exact H2].
Defined.

End OffersCTAFacts.

(** ** The offers modal on a narrow window *)

Module InfiniteScrollFacts.
Import OffersModal OffersModalMore InfiniteScroll.

Lemma Array_slice_from_to {A : Type} (l : list A) (a b : nat) :
  (a ≤ b ≤ length l)%nat →
  Array_slice (Z.of_nat a) (Z.of_nat b) l = take (b - a) (drop a l).
Proof.
  intros Hab. unfold Array_slice.
  destruct (Z.ltb_spec (Z.of_nat a) 0) as [|_]; [lia|].
  destruct (Z.ltb_spec (Z.of_nat b) 0) as [|_]; [lia|].
  rewrite !Z.min_l by lia. rewrite Nat2Z.id. f_equal. lia.
Qed.

Lemma take_more {A : Type} (l : list A) (a b : nat) :
  (a ≤ b)%nat → take a l ++ take (b - a) (drop a l) = take b l.
Proof.
  revert l b. induction a as [|a IH]; intros l b Hab.
  - simpl. by rewrite Nat.sub_0_r.
  - destruct b as [|b]; [lia|]. destruct l as [|x l]; [by rewrite drop_nil, !take_nil|].
    simpl. f_equal. apply IH. lia.
Qed.

(** X27: on a narrow window the table shows a prefix of the offers:
    whatever the user does (opening the modal, clicking headers,
    scrolling) and whenever the delayed loads run, the rows of the table
    are the first loadedCount offers of currentOffers, in order, and
    loadedCount never exceeds their number; a delayed load adds the
    next offers, 20 at most. *)
Theorem rows_are_a_prefix (toLowerCase : string → string)
    (localeCompare : string → string → Z) (events : list Event) (m : Mobile) :
  rows m = take (loadedCount m) (currentOffers (modal m)) →
  (loadedCount m ≤ length (currentOffers (modal m)))%nat →
  let m' := foldl (handle toLowerCase localeCompare) m events in
  rows m' = take (loadedCount m') (currentOffers (modal m')) ∧
  (loadedCount m' ≤ length (currentOffers (modal m')))%nat ∧
  (timers m' ≠ 0%nat →
   let m'' := handle toLowerCase localeCompare m' Timeout in
   loadedCount m'' = Nat.min (loadedCount m' + 20) (length (currentOffers (modal m'))) ∧
   currentOffers (modal m'') = currentOffers (modal m')).
Proof.
  intros Hrows Hcount m'. unfold m'. clear m'.
  assert (Hrender : ∀ st m0,
    rows (renderTable st m0) = take (loadedCount (renderTable st m0)) (currentOffers st) ∧
    (loadedCount (renderTable st m0) ≤ length (currentOffers st))%nat ∧
    modal (renderTable st m0) = st).
  { intros st m0. unfold renderTable, loadItemsPerScroll. cbn [rows loadedCount modal].
    set (n := length (currentOffers st)).
    change 0%Z with (Z.of_nat 0).
    replace (Z.min 20 (Z.of_nat n)) with (Z.of_nat (Nat.min 20 n)) by lia.
    rewrite Array_slice_from_to by (unfold n; lia).
    rewrite Nat2Z.id, drop_0, Nat.sub_0_r. split; [done|]. split; [lia|done]. }
  assert (Hload : ∀ m0,
    rows m0 = take (loadedCount m0) (currentOffers (modal m0)) →
    (loadedCount m0 ≤ length (currentOffers (modal m0)))%nat →
    rows (loaded_more m0) = take (loadedCount (loaded_more m0)) (currentOffers (modal m0)) ∧
    loadedCount (loaded_more m0)
      = Nat.min (loadedCount m0 + 20) (length (currentOffers (modal m0))) ∧
    modal (loaded_more m0) = modal m0).
  { intros m0 Hr Hc. unfold loaded_more, loadItemsPerScroll. cbn [rows loadedCount modal].
    set (n := length (currentOffers (modal m0))) in *. set (k := loadedCount m0) in *.
    replace (Z.min (Z.of_nat k + 20) (Z.of_nat n)) with (Z.of_nat (Nat.min (k + 20) n)) by lia.
    rewrite Array_slice_from_to by (unfold n; lia).
    rewrite Nat2Z.id, Hr, take_more by lia. done. }
  assert (Hstep : ∀ m0 e,
    rows m0 = take (loadedCount m0) (currentOffers (modal m0)) →
    (loadedCount m0 ≤ length (currentOffers (modal m0)))%nat →
    rows (handle toLowerCase localeCompare m0 e)
      = take (loadedCount (handle toLowerCase localeCompare m0 e))
             (currentOffers (modal (handle toLowerCase localeCompare m0 e))) ∧
    (loadedCount (handle toLowerCase localeCompare m0 e)
       ≤ length (currentOffers (modal (handle toLowerCase localeCompare m0 e))))%nat).
  { intros m0 e Hr Hc. destruct e as [offers|column|near|]; cbn [handle].
    - destruct (Hrender (show offers) (mkMobile (show offers) 0 false (rows m0) (timers m0)))
        as (H1 & H2 & H3).
      rewrite H3. done.
    - destruct (Hrender (toggleSort toLowerCase localeCompare column (modal m0)) m0)
        as (H1 & H2 & H3).
      rewrite H3. done.
    - destruct (isLoading m0); [done|]. case_bool_decide; [done|].
      destruct near; [|done]. unfold loadMoreItems. case_bool_decide; done.
    - destruct (timers m0) as [|n]; [done|].
      destruct (Hload (mkMobile (modal m0) (loadedCount m0) (isLoading m0) (rows m0) n))
        as (H1 & H2 & H3); [done|done|].
      rewrite H3. cbn [modal] in *. split; [done|]. rewrite H2. cbn [loadedCount]. lia. }
  assert (Hinv : rows (foldl (handle toLowerCase localeCompare) m events)
                 = take (loadedCount (foldl (handle toLowerCase localeCompare) m events))
                     (currentOffers (modal (foldl (handle toLowerCase localeCompare) m events))) ∧
                 (loadedCount (foldl (handle toLowerCase localeCompare) m events)
                  ≤ length (currentOffers
                      (modal (foldl (handle toLowerCase localeCompare) m events))))%nat).
  { induction events as [|e events IH] using rev_ind; [done|].
    rewrite foldl_snoc. destruct IH as (IH1 & IH2). by apply Hstep. }
  destruct Hinv as (H1 & H2). split; [done|]. split; [done|].
  intros Ht. cbv zeta. cbn [handle].
  destruct (timers (foldl (handle toLowerCase localeCompare) m events)) as [|n]; [done|].
  set (m1 := foldl (handle toLowerCase localeCompare) m events) in *.
  destruct (Hload (mkMobile (modal m1) (loadedCount m1) (isLoading m1) (rows m1) n))
    as (_ & E2 & E3); [done|done|].
  rewrite E2, E3. done.
Qed.

Lemma rows_are_a_prefix_witness :
  rows (foldl (handle id by_length)
         (mkMobile (show []) 0 false [] 0)
         [Show (replicate 45 Scenario.offer1); Scroll true; Timeout])
  = replicate 40 Scenario.offer1.
Proof.
  pose proof (rows_are_a_prefix id by_length
                [Show (replicate 45 Scenario.offer1); Scroll true; Timeout]
                (mkMobile (show []) 0 false [] 0) eq_refl) as H.
  destruct H as (H & _); [simpl; lia|].
  rewrite H. vm_compute. reflexivity.
Defined.

End InfiniteScrollFacts.
